(** * IrRep, [gvectors.py]: plane-wave tables and symmetry evaluators

    A shallow embedding of [calc_gvectors], [transformed_g],
    [symm_eigenvalues] and [symm_matrix].

    Conventions of the embedding.
    - Python [float] values (k-point coordinates, lattice vectors, cutoffs,
      energies) are exact rationals [Q]: IEEE rounding is idealised away, so
      [norm(v) ** 2] is the sum of the squared components.
    - Python [complex] values are pairs of reals; the only transcendental
      operation, [np.exp(-1j * x)], is [cos x - i sin x] over [R].
    - numpy [int] arrays hold [Z]; positions inside Rocq lists are [nat].
    - The two-element Python [set] of the innermost loop is iterated in
      CPython's order (hash slots of a table of eight, 64-bit build).
    - A raised exception is a value of [exn]; a function that can raise
      returns a [result]. *)

From Stdlib Require Import ZArith QArith Qround Qabs List Lia Lra Psatz Bool.
From Stdlib Require Import Permutation Sorted Reals.
Import ListNotations.

Local Open Scope Z_scope.

(* ================================================================== *)
(** ** Exceptions *)

(** [NotSymmetryError] is declared in the source as a subclass of
    [RuntimeError]; the other three [RuntimeError]s are told apart by their
    message. [ValueError], [IndexError] and [LinAlgError] are the numpy
    exceptions the code can run into. *)
Inductive exn : Type :=
| StuckError                              (* "calc_gvectors is stuck ..." *)
| CountMismatch (computed nplane : Z)     (* "*** error - computed ..."   *)
| NotSymmetryError
| NoPairFound (i : nat)                   (* "no pair found for ..."      *)
| ValueError
| IndexError
| LinAlgError.

Definition is_RuntimeError (e : exn) : bool :=
  match e with
  | StuckError | CountMismatch _ _ | NotSymmetryError | NoPairFound _ => true
  | ValueError | IndexError | LinAlgError => false
  end.

Inductive result (A : Type) : Type :=
| Ok (a : A)
| Raise (e : exn).
Arguments Ok {A} a.
Arguments Raise {A} e.

Definition bind {A B : Type} (r : result A) (k : A -> result B) : result B :=
  match r with
  | Ok a => k a
  | Raise e => Raise e
  end.

Notation "x <- r ;; k" := (bind r (fun x => k))
  (at level 61, r at next level, right associativity).

(* ================================================================== *)
(** ** Vectors, matrices and scalars *)

Definition vec3 : Type := (Q * Q * Q)%type.
Definition ivec3 : Type := (Z * Z * Z)%type.
(** A 3x3 matrix is the triple of its rows. *)
Definition mat3 : Type := (vec3 * vec3 * vec3)%type.

Definition Qltb (a b : Q) : bool := negb (Qle_bool b a).

Definition ivec3_eqb (a b : ivec3) : bool :=
  let '(a1, a2, a3) := a in
  let '(b1, b2, b3) := b in
  (a1 =? b1) && (a2 =? b2) && (a3 =? b3).

Definition ivec3_eq_dec (a b : ivec3) : {a = b} + {a <> b}.
Proof. repeat decide equality. Defined.

Definition to_vec (g : ivec3) : vec3 :=
  let '(g1, g2, g3) := g in (inject_Z g1, inject_Z g2, inject_Z g3).

Definition vadd (u v : vec3) : vec3 :=
  let '(u1, u2, u3) := u in
  let '(v1, v2, v3) := v in
  (u1 + v1, u2 + v2, u3 + v3)%Q.

Definition vsub (u v : vec3) : vec3 :=
  let '(u1, u2, u3) := u in
  let '(v1, v2, v3) := v in
  (u1 - v1, u2 - v2, u3 - v3)%Q.

Definition dot3 (u v : vec3) : Q :=
  let '(u1, u2, u3) := u in
  let '(v1, v2, v3) := v in
  (u1 * v1 + u2 * v2 + u3 * v3)%Q.

Definition transpose (M : mat3) : mat3 :=
  let '((a, b, c), (d, e, f), (g, h, i)) := M in
  ((a, d, g), (b, e, h), (c, f, i)).

(** [M.dot(v)]: matrix times column vector. *)
Definition mat_dot_vec (M : mat3) (v : vec3) : vec3 :=
  let '(r1, r2, r3) := M in (dot3 r1 v, dot3 r2 v, dot3 r3 v).

(** [v.dot(M)]: row vector times matrix. *)
Definition vec_dot_mat (v : vec3) (M : mat3) : vec3 :=
  mat_dot_vec (transpose M) v.

Definition det3 (M : mat3) : Q :=
  let '((a, b, c), (d, e, f), (g, h, i)) := M in
  (a * (e * i - f * h) - b * (d * i - f * g) + c * (d * h - e * g))%Q.

(** [np.linalg.inv]: the exact inverse (adjugate over determinant);
    a singular matrix raises [LinAlgError]. *)
Definition inv3 (M : mat3) : result mat3 :=
  let '((a, b, c), (d, e, f), (g, h, i)) := M in
  let D := det3 M in
  if Qeq_bool D 0 then Raise LinAlgError
  else Ok (((e * i - f * h) / D, (c * h - b * i) / D, (b * f - c * e) / D),
           ((f * g - d * i) / D, (a * i - c * g) / D, (c * d - a * f) / D),
           ((d * h - e * g) / D, (b * g - a * h) / D, (a * e - b * d) / D))%Q.

Definition eye3 : mat3 := ((1, 0, 0), (0, 1, 0), (0, 0, 1))%Q.

(** [np.round]: to the nearest integer, halves to the even neighbour. *)
Definition np_round (x : Q) : Z :=
  let f := Qfloor x in
  let r := (x - inject_Z f)%Q in
  if Qltb r (1 # 2) then f
  else if Qltb (1 # 2) r then f + 1
  else if Z.even f then f else f + 1.

Definition vround (v : vec3) : ivec3 :=
  let '(v1, v2, v3) := v in (np_round v1, np_round v2, np_round v3).

(** [np.isclose(a, b)] with its default tolerances:
    [|a - b| <= atol + rtol * |b|], [rtol = 1e-05], [atol = 1e-08]. *)
Definition rtol : Q := 1 # 100000.
Definition atol : Q := 1 # 100000000.
Definition isclose (a b : Q) : bool :=
  Qle_bool (Qabs (a - b)) (atol + rtol * Qabs b).

(* ================================================================== *)
(** ** Physical constant *)

Definition correction : Q := 0.
(** [twomhbar2 = 0.262465831; twomhbar2 *= 1 + correction] *)
Definition twomhbar2 : Q := ((262465831 # 1000000000) * (1 + correction))%Q.

(* ================================================================== *)
(** ** [calc_gvectors]: enumeration *)

(** Python [range(a, b)]. *)
Definition range (a b : Z) : list Z :=
  map (fun k => a + Z.of_nat k) (seq 0 (Z.to_nat (b - a))).

(** [hash] of a Python integer: the sign times the absolute value modulo
    [2^61 - 1], with [-2] in place of [-1]. *)
Definition py_hash (z : Z) : Z :=
  let h := Z.sgn z * (Z.abs z mod (2 ^ 61 - 1)) in
  if h =? -1 then -2 else h.

(** The slot a second key takes in a set of eight slots of which [taken]
    holds the first key: the slot [i] of its hash if that is free, else the
    next slots [(5 i + 1 + perturb) mod 8] with [perturb] shifted right by
    five bits at every step. *)
Fixpoint probe (fuel : nat) (taken i perturb : Z) : Z :=
  if i =? taken then
    match fuel with
    | O => i
    | S fuel' =>
      let perturb' := Z.shiftr perturb 5 in
      probe fuel' taken ((i * 5 + 1 + perturb') mod 8) perturb'
    end
  else i.

(** [set([-a, a])] in iteration order: one element when the two coincide;
    else [-a] is inserted first, [a] second, and CPython iterates over the
    slots in ascending order. The order only influences the order of rows
    that tie in both sort keys. *)
Definition pm_set (a : Z) : list Z :=
  if (- a =? a) then [a]
  else
    let s1 := py_hash (- a) mod 8 in
    let h2 := py_hash a in
    let s2 := probe 32 s1 (h2 mod 8) (h2 mod 2 ^ 64) in
    if s2 <? s1 then [a; - a] else [- a; a].

(** The triples visited by the three nested [for] loops at radius [N],
    in visiting order. *)
Definition shell (N : Z) : list ivec3 :=
  flat_map (fun ig3 =>
    flat_map (fun ig2 =>
      map (fun ig1 => (ig1, ig2, ig3))
          (pm_set (N - Z.abs ig3 - Z.abs ig2)))
      (range (- (N - Z.abs ig3)) (N - Z.abs ig3 + 1)))
    (range (- N) (N + 1)).

(** [etot = norm((K + np.array(igp)).dot(B)) ** 2 / twomhbar2] *)
Definition norm_sq (v : vec3) : Q := dot3 v v.
Definition etot (K : vec3) (B : mat3) (igp : ivec3) : Q :=
  (norm_sq (vec_dot_mat (vadd K (to_vec igp)) B) / twomhbar2)%Q.

(** [nplane] is an integer read from the DFT files, or [np.Inf]. *)
Inductive nplane_t : Type :=
| Finite (n : Z)
| Inf.

(** [len(igall) >= nplane / 2] (true division) *)
Definition ge_half (len : nat) (nplane : nplane_t) : bool :=
  match nplane with
  | Finite n => n <=? 2 * Z.of_nat len
  | Inf => false
  end.

(** [len(igall) >= nplane] *)
Definition ge_full (len : nat) (nplane : nplane_t) : bool :=
  match nplane with
  | Finite n => n <=? Z.of_nat len
  | Inf => false
  end.

(** The local variables the enumeration loop updates. [iters] is a ghost
    counter of the outer iterations entered. *)
Record enum_state : Type := mk_enum_state {
  igall : list ivec3;
  Eg : list Q;
  memory : list bool;
  iters : nat
}.

(** Body of the innermost loop for one candidate [igp]; the third component
    is [flag]. *)
Definition visit (K : vec3) (B : mat3) (Ecut : Q)
    (acc : list ivec3 * list Q * bool) (igp : ivec3)
  : list ivec3 * list Q * bool :=
  let '(ig, eg, flag) := acc in
  let e := etot K B igp in
  if Qltb e Ecut then (ig ++ [igp], eg ++ [e], false) else (ig, eg, flag).

Inductive loop_exit : Type :=
| Exhausted     (* range(nplanemax) ran out *)
| Break         (* one of the two [break]s *)
| Stuck.        (* the "stuck" RuntimeError was raised *)

(** The test at the top of each radius:
    [if len(igall) >= nplane / 2: if spinor: break
     else: if len(igall) >= nplane: break
           elif np.all(memory): raise RuntimeError(...)]. *)
Definition check_stop (len : nat) (mem : list bool) (nplane : nplane_t)
    (spinor : bool) : option loop_exit :=
  if ge_half len nplane then
    if spinor then Some Break
    else if ge_full len nplane then Some Break
    else if forallb (fun b => b) mem then Some Stuck
    else None
  else None.

(** [for N in range(nplanemax): ...], started at radius [N] with [fuel]
    radii left. The progress [print] is not modelled. *)
Fixpoint enum_loop (K : vec3) (B : mat3) (Ecut : Q) (nplane : nplane_t)
    (spinor : bool) (fuel : nat) (N : Z) (st : enum_state)
  : loop_exit * enum_state :=
  match fuel with
  | O => (Exhausted, st)
  | S fuel' =>
    let st := mk_enum_state (igall st) (Eg st) (memory st) (S (iters st)) in
    match check_stop (length (igall st)) (memory st) nplane spinor with
    | Some ex => (ex, st)
    | None =>
      let '(ig, eg, flag) :=
        fold_left (visit K B Ecut) (shell N) (igall st, Eg st, true) in
      enum_loop K B Ecut nplane spinor fuel' (N + 1)
        (mk_enum_state ig eg (tl (memory st) ++ [flag]) (iters st))
    end
  end.

Definition init_state : enum_state :=
  mk_enum_state [] [] (repeat true 10) 0.

Definition enumerate (K : vec3) (B : mat3) (Ecut : Q) (nplane : nplane_t)
    (spinor : bool) (nplanemax : Z) : loop_exit * enum_state :=
  enum_loop K B Ecut nplane spinor (Z.to_nat nplanemax) 0 init_state.

(* ================================================================== *)
(** ** [calc_gvectors]: ordering and grouping *)

(** One column of the returned 6 x n array. *)
Record entry : Type := mk_entry {
  gvec : ivec3;          (* rows 0..2 *)
  order_index : Z;       (* row 3 *)
  shell_start : Z;       (* row 4 *)
  shell_end : Z          (* row 5 *)
}.

Definition entry0 : entry := mk_entry (0, 0, 0) 0 0 0.

(** Arithmetic of numpy's 64-bit integers. *)
Definition i64 (z : Z) : Z := (z + 2 ^ 63) mod 2 ^ 64 - 2 ^ 63.

(** numpy's integer [%]: the sign of the divisor, and 0 for a zero divisor
    (with a warning, not an exception). *)
Definition np_mod (a n : Z) : Z := if n =? 0 then 0 else a mod n.

(** [a.max(axis=0)] and [a.min(axis=0)] of one column; the reduction of an
    empty array raises [ValueError]. *)
Definition col_max (l : list Z) : result Z :=
  match l with
  | [] => Raise ValueError
  | x :: l' => Ok (fold_left Z.max l' x)
  end.

Definition col_min (l : list Z) : result Z :=
  match l with
  | [] => Raise ValueError
  | x :: l' => Ok (fold_left Z.min l' x)
  end.

Definition c1 (g : ivec3) : Z := fst (fst g).
Definition c2 (g : ivec3) : Z := snd (fst g).
Definition c3 (g : ivec3) : Z := snd g.

(** [ng = igall.max(axis=0) - igall.min(axis=0)] *)
Definition span (ig : list ivec3) : result ivec3 :=
  M1 <- col_max (map c1 ig) ;; M2 <- col_max (map c2 ig) ;;
  M3 <- col_max (map c3 ig) ;;
  m1 <- col_min (map c1 ig) ;; m2 <- col_min (map c2 ig) ;;
  m3 <- col_min (map c3 ig) ;;
  Ok (i64 (M1 - m1), i64 (M2 - m2), i64 (M3 - m3)).

(** The sort key [(igall1[:,2] * ng[1] + igall1[:,1]) * ng[0] + igall1[:,0]]
    of one vector, with [igall1 = igall % ng]. *)
Definition order_key (ng : ivec3) (g : ivec3) : Z :=
  let '(n1, n2, n3) := ng in
  let '(r1, r2, r3) := (np_mod (c1 g) n1, np_mod (c2 g) n2, np_mod (c3 g) n3) in
  i64 (i64 (i64 (i64 (r3 * n2) + r2) * n1) + r1).

(** [np.argsort]: the positions of the keys in ascending key order. numpy's
    default sort leaves the order of equal keys unspecified; here equal keys
    keep their order. The properties proved below use only that the result
    is a permutation of the positions that sorts the keys. *)
Fixpoint insert_key {A : Type} (leb : A -> A -> bool) (x : A * nat)
    (l : list (A * nat)) : list (A * nat) :=
  match l with
  | [] => [x]
  | y :: l' =>
    if leb (fst x) (fst y) then x :: l else y :: insert_key leb x l'
  end.

Definition sort_keys {A : Type} (leb : A -> A -> bool)
    (l : list (A * nat)) : list (A * nat) :=
  fold_right (insert_key leb) [] l.

Definition argsort {A : Type} (leb : A -> A -> bool) (keys : list A)
  : list nat :=
  map snd (sort_keys leb (combine keys (seq 0 (length keys)))).

(** [a[idx]] for an array of positions [idx]. *)
Definition take {A : Type} (d : A) (a : list A) (idx : list nat) : list A :=
  map (fun i => nth i a d) idx.

(** [a[mask]] for a boolean array [mask]. *)
Definition mask_select {A : Type} (mask : list bool) (a : list A) : list A :=
  map snd (filter fst (combine mask a)).

(** [np.where(mask)[0]] *)
Definition np_where (mask : list bool) : list nat :=
  map fst (filter snd (combine (seq 0 (length mask)) mask)).

(** [wall = [0] + list(np.where(Eg[1:] - Eg[:-1] > thresh)[0] + 1)
           + [igall.shape[1]]] *)
Definition wall (Eg : list Q) (thresh : Q) : list nat :=
  let diffs := map (fun p => (fst p - snd p)%Q)
                   (combine (tl Eg) (removelast Eg)) in
  [0%nat] ++ map S (np_where (map (fun d => Qltb thresh d) diffs))
          ++ [length Eg].

(** [igall[4, a:b] = a; igall[5, a:b] = b] *)
Definition set_shell (a b : nat) (t : list entry) : list entry :=
  map (fun pe : nat * entry =>
         let (p, e) := pe in
         if ((a <=? p) && (p <? b))%nat
         then mk_entry (gvec e) (order_index e) (Z.of_nat a) (Z.of_nat b)
         else e)
      (combine (seq 0 (length t)) t).

(** [for i in range(len(wall) - 1): ...] *)
Definition mark_shells (w : list nat) (t : list entry) : list entry :=
  fold_left (fun t i => set_shell (nth i w 0%nat) (nth (S i) w 0%nat) t)
            (seq 0 (length w - 1)) t.

(** The plane-wave count test made when [nplane < np.Inf]. *)
Definition check_count (nplane : nplane_t) (spinor : bool) (ncnt : nat)
  : result unit :=
  match nplane with
  | Inf => Ok tt
  | Finite n =>
    if spinor
    then if 2 * Z.of_nat ncnt =? n then Ok tt
         else Raise (CountMismatch (2 * Z.of_nat ncnt) n)
    else if Z.of_nat ncnt =? n then Ok tt
         else Raise (CountMismatch (Z.of_nat ncnt) n)
  end.

(** Everything after the enumeration loop, from the vectors [ig] and
    energies [eg] it collected. *)
Definition build_table (ig : list ivec3) (eg : list Q) (Ecut1 thresh : Q)
  : result (list entry) :=
  ng <- span ig ;;
  let igallsrt := argsort Z.leb (map (order_key ng) ig) in
  let igall1 := take (0, 0, 0) ig igallsrt in
  let Eg1 := take 0%Q eg igallsrt in
  let rows := map (fun gi : ivec3 * nat =>
                     mk_entry (fst gi) (Z.of_nat (snd gi)) 0 0)
                  (combine igall1 (seq 0 (length ig))) in
  let mask := map (fun e => Qle_bool e Ecut1) Eg1 in
  let rows2 := mask_select mask rows in
  let Eg2 := mask_select mask Eg1 in
  let srt := argsort Qle_bool Eg2 in
  let Eg3 := take 0%Q Eg2 srt in
  let rows3 := take entry0 rows2 srt in
  Ok (mark_shells (wall Eg3 thresh) rows3).

(** [calc_gvectors(K, RecLattice, Ecut, nplane, Ecut1, thresh, spinor,
    nplanemax)]. The returned list holds the columns of [igall]. *)
Definition calc_gvectors (K : vec3) (RecLattice : mat3) (Ecut : Q)
    (nplane : nplane_t) (Ecut1 thresh : Q) (spinor : bool) (nplanemax : Z)
  : result (list entry) :=
  let Ecut1 := if Qle_bool Ecut1 0 then Ecut else Ecut1 in
  match enumerate K RecLattice Ecut nplane spinor nplanemax with
  | (Stuck, _) => Raise StuckError
  | (_, st) =>
    _ <- check_count nplane spinor (length (igall st)) ;;
    build_table (igall st) (Eg st) Ecut1 thresh
  end.

(* ================================================================== *)
(** ** [transformed_g] *)

(** [a[j]] for a Python integer [j]: negative positions count from the end,
    positions outside [-n, n) raise [IndexError]. *)
Definition py_index {A : Type} (a : list A) (j : Z) : result A :=
  let n := Z.of_nat (length a) in
  let k := if j <? 0 then j + n else j in
  if (0 <=? k) && (k <? n)
  then match nth_error a (Z.to_nat k) with
       | Some x => Ok x
       | None => Raise IndexError
       end
  else Raise IndexError.

(** The inner search [for j in range(ig[4, i], ig[5, i]): ...]; the result
    is the value of [rotind[i]] when the loop is left ([-1] if it was never
    assigned). *)
Fixpoint find_pair (ig : list entry) (target : ivec3) (js : list Z)
  : result Z :=
  match js with
  | [] => Ok (-1)
  | j :: js' =>
    e <- py_index ig j ;;
    if ivec3_eqb target (gvec e) then Ok j else find_pair ig target js'
  end.

(** [for i in range(ng): ...] over the remaining columns, each paired with
    its position and its transformed vector. *)
Fixpoint rot_loop (ig : list entry) (todo : list (nat * (entry * ivec3)))
  : result (list Z) :=
  match todo with
  | [] => Ok []
  | (i, (e, tr)) :: rest =>
    j <- find_pair ig tr (range (shell_start e) (shell_end e)) ;;
    if j =? -1 then Raise (NoPairFound i)
    else js <- rot_loop ig rest ;; Ok (j :: js)
  end.

Definition isclose_all (d : ivec3) (x : vec3) : bool :=
  let '(d1, d2, d3) := d in
  let '(x1, x2, x3) := x in
  isclose (inject_Z d1) x1 && isclose (inject_Z d2) x2
  && isclose (inject_Z d3) x3.

(** [igTr[:, i]]: the rounded image of one G-vector. *)
Definition transform_g (B : mat3) (dkpt : ivec3) (g : ivec3) : ivec3 :=
  vround (vadd (mat_dot_vec B (to_vec g)) (to_vec dkpt)).

(** [transformed_g(kpt, ig, RecLattice, A)]; [RecLattice] is not used by
    the source either. *)
Definition transformed_g (kpt : vec3) (ig : list entry) (RecLattice : mat3)
    (A : mat3) : result (list Z) :=
  Ainv <- inv3 A ;;
  let B := transpose Ainv in
  let kpt_ := mat_dot_vec B kpt in
  let dkpt := vround (vsub kpt_ kpt) in
  if negb (isclose_all dkpt (vsub kpt_ kpt)) then Raise NotSymmetryError
  else
    let igTr := map (fun e => transform_g B dkpt (gvec e)) ig in
    rot_loop ig (combine (seq 0 (length ig)) (combine ig igTr)).

(* ================================================================== *)
(** ** Complex numbers and arrays *)

Definition C : Type := (R * R)%type.

Definition C0 : C := (0%R, 0%R).
Definition C1 : C := (1%R, 0%R).
Definition Cadd (x y : C) : C := (fst x + fst y, snd x + snd y)%R.
Definition Cmul (x y : C) : C :=
  (fst x * fst y - snd x * snd y, fst x * snd y + snd x * fst y)%R.
Definition Cconj (x : C) : C := (fst x, - snd x)%R.

(** [np.exp(-1.0j * x)] for a real [x]. *)
Definition cexp_neg_i (x : R) : C := (cos x, - sin x)%R.

Fixpoint mapM {A B : Type} (f : A -> result B) (l : list A)
  : result (list B) :=
  match l with
  | [] => Ok []
  | x :: l' => y <- f x ;; ys <- mapM f l' ;; Ok (y :: ys)
  end.

(** [w[idx]] for an integer array [idx] (Python indexing). *)
Definition take_z {A : Type} (w : list A) (idx : list Z) : result (list A) :=
  mapM (py_index w) idx.

(** Element-wise operations on arrays of one shape. *)
Definition arr_mul (a b : list C) : list C :=
  map (fun p => Cmul (fst p) (snd p)) (combine a b).
Definition arr_add (a b : list C) : list C :=
  map (fun p => Cadd (fst p) (snd p)) (combine a b).
Definition arr_scale (a : list C) (s : C) : list C :=
  map (fun x => Cmul x s) a.
Definition arr_conj (a : list C) : list C := map Cconj a.

Definition csum (l : list C) : C := fold_left Cadd l C0.

(** [np.dot] of two one-dimensional arrays. *)
Definition cdot (a b : list C) : C := csum (arr_mul a b).

(** A 3 x n float array, as its three rows. *)
Definition rows3 : Type := (list Q * list Q * list Q)%type.

(** [igall[:3, :]] *)
Definition coords (ig : list entry) : rows3 :=
  (map (fun e => inject_Z (c1 (gvec e))) ig,
   map (fun e => inject_Z (c2 (gvec e))) ig,
   map (fun e => inject_Z (c3 (gvec e))) ig).

(** [M + K[:, None]] *)
Definition add_column (M : rows3) (K : vec3) : rows3 :=
  let '(r1, r2, r3) := M in
  let '(k1, k2, k3) := K in
  (map (fun x => x + k1)%Q r1, map (fun x => x + k2)%Q r2,
   map (fun x => x + k3)%Q r3).

(** [v.dot(M)] for a 3-vector and a 3 x n array: entry [j] is
    [sum_k v[k] * M[k, j]]. *)
Definition vec_dot_rows (v : vec3) (M : rows3) : list Q :=
  let '(v1, v2, v3) := v in
  let '(r1, r2, r3) := M in
  map (fun p => (v1 * fst p + v2 * fst (snd p) + v3 * snd (snd p))%Q)
      (combine r1 (combine r2 r3)).

(** [np.exp(-1.0j * (2 * np.pi * x))], element-wise. *)
Definition phases (x : list Q) : list C :=
  map (fun th => cexp_neg_i (2 * PI * Q2R th)%R) x.

(* ================================================================== *)
(** ** [symm_eigenvalues] and [symm_matrix] *)

(** [multZ] of [symm_eigenvalues]. *)
Definition multZ_eigenvalues (K : vec3) (igall : list entry) (A : mat3)
    (T : vec3) : result (list C) :=
  Ainv <- inv3 A ;;
  Ok (phases (vec_dot_rows (mat_dot_vec Ainv T)
                           (add_column (coords igall) K))).

(** [multZ] of [symm_matrix]. *)
Definition multZ_matrix (K : vec3) (igall : list entry) (A : mat3)
    (T : vec3) : list C :=
  phases (vec_dot_rows (mat_dot_vec A T) (add_column (coords igall) K)).

Definition smat : Type := ((C * C) * (C * C))%type.
Definition S00 (S : smat) : C := fst (fst S).
Definition S01 (S : smat) : C := snd (fst S).
Definition S10 (S : smat) : C := fst (snd S).
Definition S11 (S : smat) : C := snd (snd S).
Definition eye2 : smat := ((C1, C0), (C0, C1)).

(** The coefficient rows are taken to have the width the data model gives
    them ([npw1], doubled for spinors); numpy's broadcasting of other
    widths is not modelled and is reported as [ValueError]. *)
Definition check_width (spinor : bool) (npw1 : nat) (WF : list (list C))
  : result unit :=
  let width := if spinor then (2 * npw1)%nat else npw1 in
  if forallb (fun w => (length w =? width)%nat) WF then Ok tt
  else Raise ValueError.

(** One band of [symm_eigenvalues]. *)
Definition band_trace (spinor : bool) (S : smat) (npw1 : nat)
    (igrot : list Z) (multZ : list C) (w : list C) : result C :=
  if spinor then
    ur <- take_z w igrot ;;
    dr <- take_z w (map (fun j => j + Z.of_nat npw1) igrot) ;;
    let up := firstn npw1 w in
    let dn := skipn npw1 w in
    let part1 := arr_scale (arr_mul (arr_conj ur) up) (S00 S) in
    let part2 :=
      arr_add
        (arr_add (arr_scale (arr_mul (arr_conj dr) dn) (S11 S))
                 (arr_scale (arr_mul (arr_conj ur) dn) (S01 S)))
        (arr_scale (arr_mul (arr_conj dr) up) (S10 S)) in
    Ok (cdot (arr_add part1 part2) multZ)
  else
    wr <- take_z w igrot ;;
    Ok (cdot (arr_mul (arr_conj wr) w) multZ).

Definition symm_eigenvalues (K : vec3) (RecLattice : mat3)
    (WF : list (list C)) (igall : list entry) (A : mat3) (S : smat)
    (T : vec3) (spinor : bool) : result (list C) :=
  let npw1 := length igall in
  multZ <- multZ_eigenvalues K igall A T ;;
  igrot <- transformed_g K igall RecLattice A ;;
  _ <- check_width spinor npw1 WF ;;
  mapM (band_trace spinor S npw1 igrot multZ) WF.

(** One element of [symm_matrix]: the [einsum] contraction for the pair of
    bands with coefficient rows [wm] and [wn]. *)
Definition band_pair (spinor : bool) (S : smat) (npw1 : nat)
    (igrot : list Z) (multZ : list C) (wm wn : list C) : result C :=
  if spinor then
    ur <- take_z wm igrot ;;
    dr <- take_z wm (map (fun j => j + Z.of_nat npw1) igrot) ;;
    let up := firstn npw1 wn in
    let dn := skipn npw1 wn in
    let term (a b : list C) (s : C) :=
      arr_scale (arr_mul (arr_mul (arr_conj a) b) multZ) s in
    Ok (csum (arr_add
                (arr_add (term ur up (S00 S)) (term ur dn (S01 S)))
                (arr_add (term dr up (S10 S)) (term dr dn (S11 S)))))
  else
    wr <- take_z wm igrot ;;
    Ok (csum (arr_mul (arr_mul (arr_conj wr) wn) multZ)).

Definition symm_matrix (K : vec3) (RecLattice : mat3)
    (WF : list (list C)) (igall : list entry) (A : mat3) (S : smat)
    (T : vec3) (spinor : bool) : result (list (list C)) :=
  let npw1 := length igall in
  let multZ := multZ_matrix K igall A T in
  igrot <- transformed_g K igall RecLattice A ;;
  _ <- check_width spinor npw1 WF ;;
  mapM (fun wm => mapM (band_pair spinor S npw1 igrot multZ wm) WF) WF.

(** The diagonal of a square matrix given by its rows. *)
Definition diagonal (M : list (list C)) : list C :=
  map (fun i => nth i (nth i M []) C0) (seq 0 (length M)).

(* ================================================================== *)
(** ** Notions used to state the properties *)

(** The L1 norm of an integer triple. *)
Definition L1 (g : ivec3) : Z := Z.abs (c1 g) + Z.abs (c2 g) + Z.abs (c3 g).

(** All triples visited by the radii [0, 1, ..., M - 1], in visiting order. *)
Definition visited (M : Z) : list ivec3 := flat_map shell (range 0 M).

(** The test [etot < Ecut] of the innermost loop. *)
Definition below (K : vec3) (B : mat3) (Ecut : Q) (g : ivec3) : bool :=
  Qltb (etot K B g) Ecut.

(** What the enumeration loop has collected when it is about to start
    radius [N]. *)
Definition enum_inv (K : vec3) (B : mat3) (Ecut : Q) (N : Z)
    (st : enum_state) : Prop :=
  igall st = filter (below K B Ecut) (visited N) /\
  Eg st = map (etot K B) (igall st).

(** The energy gap between positions [i] and [i + 1] exceeds [thresh]. *)
Definition gap_after (Eg : list Q) (thresh : Q) (i : nat) : bool :=
  Qltb thresh (nth (S i) Eg 0%Q - nth i Eg 0%Q).

(** Position [p] lies in the slice [a:b]. *)
Definition covers (p : nat) (ab : nat * nat) : bool :=
  ((fst ab <=? p) && (p <? snd ab))%nat.

(** The kinetic energies of the rows of a table computed for the k-point
    [K] and the lattice [B]. *)
Definition energies (K : vec3) (B : mat3) (t : list entry) : list Q :=
  map (fun e => etot K B (gvec e)) t.

(** The kinetic energy of row [i] of a table. *)
Definition energy_at (K : vec3) (B : mat3) (t : list entry) (i : nat) : Q :=
  etot K B (gvec (nth i t entry0)).

(** The cutoff [calc_gvectors] uses after [if Ecut1 <= 0: Ecut1 = Ecut]. *)
Definition effective_Ecut1 (Ecut Ecut1 : Q) : Q :=
  if Qle_bool Ecut1 0 then Ecut else Ecut1.

(** [B = np.linalg.inv(A).T], the matrix [transformed_g] applies to the
    k-point and to the G-vectors. *)
Definition dual (A : mat3) : result mat3 :=
  Ainv <- inv3 A ;; Ok (transpose Ainv).

(** [dkpt = round(B.dot(kpt) - kpt)] *)
Definition wrap_around (B : mat3) (kpt : vec3) : ivec3 :=
  vround (vsub (mat_dot_vec B kpt) kpt).

(** [np.isclose(dkpt, kpt_ - kpt).all()] *)
Definition kpoint_check (B : mat3) (kpt : vec3) : bool :=
  isclose_all (wrap_around B kpt) (vsub (mat_dot_vec B kpt) kpt).

(** [igTr], column by column. *)
Definition igTr (B : mat3) (kpt : vec3) (ig : list entry) : list ivec3 :=
  map (fun e => transform_g B (wrap_around B kpt) (gvec e)) ig.

(** The shell bounds of every row are positions of the table. *)
Definition bounds_in_table (ig : list entry) : Prop :=
  forall e, In e ig ->
            0 <= shell_start e /\ shell_end e <= Z.of_nat (length ig).

(** Row [i] has no partner inside its shell. *)
Definition no_partner (ig : list entry) (tr : list ivec3) (i : nat) : Prop :=
  forall j, shell_start (nth i ig entry0) <= j < shell_end (nth i ig entry0) ->
            gvec (nth (Z.to_nat j) ig entry0) <> nth i tr (0, 0, 0).

(** What every entry of a returned [rotind] satisfies. *)
Definition is_partner (ig : list entry) (x : nat * (entry * ivec3)) (j : Z)
  : Prop :=
  j <> -1 /\
  shell_start (fst (snd x)) <= j < shell_end (fst (snd x)) /\
  exists e', py_index ig j = Ok e' /\ gvec e' = snd (snd x).

(** Component-wise equality of rational vectors. *)
Definition veq (u v : vec3) : Prop :=
  (fst (fst u) == fst (fst v))%Q /\ (snd (fst u) == snd (fst v))%Q /\
  (snd u == snd v)%Q.

(** [x] is within [np.isclose]'s tolerance of the integer it rounds to. *)
Definition within_tolerance (x : Q) : Prop :=
  (Qabs (inject_Z (np_round x) - x) <= atol + rtol * Qabs x)%Q.

Definition all_within_tolerance (v : vec3) : Prop :=
  within_tolerance (fst (fst v)) /\ within_tolerance (snd (fst v)) /\
  within_tolerance (snd v).

(** A rational that is an integer; a matrix of integers. *)
Definition integral (q : Q) : Prop := exists z : Z, (q == inject_Z z)%Q.
Definition integral_vec (v : vec3) : Prop :=
  integral (fst (fst v)) /\ integral (snd (fst v)) /\ integral (snd v).
Definition integral_mat (M : mat3) : Prop :=
  integral_vec (fst (fst M)) /\ integral_vec (snd (fst M)) /\
  integral_vec (snd M).

(** The phase [exp(-2 pi i (v . (G + K)))] of one G-vector. *)
Definition phase_of (v : vec3) (K : vec3) (g : ivec3) : C :=
  cexp_neg_i (2 * PI * Q2R (dot3 v (vadd (to_vec g) K)))%R.

(** Columns 0..3 of a row: the vector and its position in the canonical
    order. *)
Definition vector_and_index (e : entry) : ivec3 * Z :=
  (gvec e, order_index e).

(** The vectors the enumeration loop has collected when it stops. *)
Definition found_vectors (K : vec3) (B : mat3) (Ecut : Q)
    (nplane : nplane_t) (spinor : bool) (nplanemax : Z) : list ivec3 :=
  igall (snd (enumerate K B Ecut nplane spinor nplanemax)).

(** The value of [flag] at the end of radius [N]: no triple of the radius
    is below [Ecut]. *)
Definition empty_radius (K : vec3) (B : mat3) (Ecut : Q) (N : Z) : bool :=
  negb (existsb (below K B Ecut) (shell N)).

(** The sliding window [memory] when radius [N] is about to start: the
    flags of the ten radii before [N], [True] where there is no such
    radius. *)
Definition memory_at (K : vec3) (B : mat3) (Ecut : Q) (N : Z) : list bool :=
  map (fun k => let r := N - 10 + Z.of_nat k in
                if r <? 0 then true else empty_radius K B Ecut r)
      (seq 0 10).

(** ** Concrete inputs used in examples *)

(** The Gamma point, and a cubic lattice with unit reciprocal vectors. *)
Definition K_gamma : vec3 := (0, 0, 0)%Q.
Definition B_cubic : mat3 := eye3.

(** A lattice whose second reciprocal vector is four times shorter than the
    other two. *)
Definition B_flat : mat3 := ((4, 0, 0), (0, 1, 0), (0, 0, 4))%Q.

(** The energy of the six nearest neighbours of the origin on [B_cubic]. *)
Definition E_first : Q := 1000000000 # 262465831.

(** The seven vectors of [B_flat] below 40 eV at the Gamma point. *)
Definition seven : list ivec3 :=
  [(0, 0, 0); (0, -1, 0); (0, 1, 0); (0, -2, 0); (0, 2, 0);
   (0, -3, 0); (0, 3, 0)].

(** Inversion, a doubling of the cell, and two k-points on the first axis. *)
Definition minus_eye3 : mat3 := ((-1, 0, 0), (0, -1, 0), (0, 0, -1))%Q.
Definition twice_eye3 : mat3 := ((2, 0, 0), (0, 2, 0), (0, 0, 2))%Q.
Definition K_half : vec3 := (1 # 2, 0, 0)%Q.
Definition K_quarter : vec3 := (1 # 4, 0, 0)%Q.

(** The two vectors [G] with [|K_half + G| = 1/2], in one shell. *)
Definition table_pair : list entry :=
  [mk_entry (0, 0, 0) 0 0 2; mk_entry (-1, 0, 0) 1 0 2].

(** The table that holds the origin only. *)
Definition table_origin : list entry := [mk_entry (0, 0, 0) 0 0 1].

(** A table that lists the same vector twice, in one shell. *)
Definition table_twins : list entry :=
  [mk_entry (0, 0, 0) 0 0 2; mk_entry (0, 0, 0) 1 0 2].

(** The table of the Gamma point on [B_cubic] below 5 eV when the grouping
    threshold is 100 eV: its seven rows form one shell. *)
Definition table_one_shell : list entry :=
  Eval vm_compute in
    match calc_gvectors K_gamma B_cubic 5 Inf (-1) 100 false 4 with
    | Ok t => t
    | Raise _ => []
    end.

(** The threefold rotation that permutes the axes cyclically, its inverse,
    and a translation by a quarter of the first basis vector. *)
Definition rot3 : mat3 := ((0, 0, 1), (1, 0, 0), (0, 1, 0))%Q.
Definition rot3_inv : mat3 := ((0, 1, 0), (0, 0, 1), (1, 0, 0))%Q.
Definition T_quarter : vec3 := (1 # 4, 0, 0)%Q.

(** One normalised band on the seven plane waves of [table7]: weight 3/5
    on [G = (0, 1, 0)] (row 4) and 4/5 on [G = (0, 0, 1)] (row 6). *)
Definition band : list C :=
  [C0; C0; C0; C0; (3 / 5, 0)%R; C0; (4 / 5, 0)%R].

(** A lattice on which the vectors below 3 eV at the Gamma point are the
    multiples [m (11, 1, 0)], [|m| <= 3], twelve radii apart. *)
Definition B_needle : mat3 := ((1, 0, 0), (-11, 1 # 4, 0), (0, 0, 1))%Q.

(** The table of the Gamma point on [B_flat] below 40 eV: the seven
    vectors [(0, k, 0)], [|k| <= 3]. *)
Definition table_flat : list entry :=
  Eval vm_compute in
    match calc_gvectors K_gamma B_flat 40 Inf (-1) (1 # 1000) false 5 with
    | Ok t => t
    | Raise _ => []
    end.

(** The table of the Gamma point on [B_cubic] below 5 eV. *)
Definition table7 : list entry :=
  Eval vm_compute in
    match calc_gvectors K_gamma B_cubic 5 Inf (-1) (1 # 1000) false 4 with
    | Ok t => t
    | Raise _ => []
    end.

(* ================================================================== *)
(** * Properties *)

(** ** Generic list facts *)

Lemma In_range (a b x : Z) : In x (range a b) <-> a <= x < b.
Proof.
  unfold range. rewrite in_map_iff. split.
  - intros (k & <- & Hk). apply in_seq in Hk. lia.
  - intros Hx. exists (Z.to_nat (x - a)). split; [lia|].
    apply in_seq. lia.
Qed.

Lemma NoDup_map_injective {A B : Type} (f : A -> B) (l : list A) :
  (forall x y, f x = f y -> x = y) -> NoDup l -> NoDup (map f l).
Proof.
  intros Hinj Hnd. induction Hnd as [|a l Hna Hnd IH]; simpl; constructor.
  - rewrite in_map_iff. intros (y & Hy & Hin).
    apply Hinj in Hy. now subst.
  - exact IH.
Qed.

Lemma NoDup_range (a b : Z) : NoDup (range a b).
Proof.
  unfold range. apply NoDup_map_injective.
  - intros i j Hij. lia.
  - apply seq_NoDup.
Qed.

Lemma NoDup_flat_map {A B : Type} (f : A -> list B) (l : list A) :
  NoDup l ->
  (forall x, In x l -> NoDup (f x)) ->
  (forall x y z, In x l -> In y l -> In z (f x) -> In z (f y) -> x = y) ->
  NoDup (flat_map f l).
Proof.
  induction l as [|a l IH]; intros Hnd Hin Hdisj; simpl.
  - constructor.
  - inversion Hnd as [|? ? Hna Hnd']; subst.
    apply NoDup_app.
    + apply Hin. now left.
    + apply IH; auto.
      * intros x Hx. apply Hin. now right.
      * intros x y z Hx Hy. apply Hdisj; now right.
    + intros b Hb Hb'. apply in_flat_map in Hb' as (y & Hy & Hby).
      apply Hna. assert (a = y) as ->; [|exact Hy].
      apply (Hdisj a y b); simpl; auto.
Qed.

(** ** The enumeration by radius *)

Lemma In_pm_set (a x : Z) : In x (pm_set a) <-> x = a \/ x = - a.
Proof.
  unfold pm_set. destruct (Z.eqb_spec (- a) a); [simpl; intuition lia|].
  cbv zeta. destruct (_ <? _); simpl; intuition lia.
Qed.

Lemma NoDup_pm_set (a : Z) : NoDup (pm_set a).
Proof.
  unfold pm_set. destruct (Z.eqb_spec (- a) a).
  - repeat constructor. simpl. tauto.
  - cbv zeta. destruct (_ <? _); repeat constructor; simpl; intuition lia.
Qed.

Lemma In_shell (N : Z) (g : ivec3) : In g (shell N) <-> L1 g = N.
Proof.
  destruct g as [[g1 g2] g3]. unfold shell, L1, c1, c2, c3. simpl.
  rewrite in_flat_map. split.
  - intros (ig3 & H3 & H). apply in_flat_map in H as (ig2 & H2 & H).
    apply in_map_iff in H as (ig1 & Heq & H1).
    inversion Heq; subst. apply In_range in H3, H2. apply In_pm_set in H1.
    lia.
  - intros HN. exists g3. split; [apply In_range; lia|].
    apply in_flat_map. exists g2. split; [apply In_range; lia|].
    apply in_map_iff. exists g1. split; [reflexivity|].
    apply In_pm_set. lia.
Qed.

Lemma NoDup_shell (N : Z) : NoDup (shell N).
Proof.
  unfold shell. apply NoDup_flat_map.
  - apply NoDup_range.
  - intros ig3 _. apply NoDup_flat_map.
    + apply NoDup_range.
    + intros ig2 _. apply NoDup_map_injective.
      * intros x y Hxy. now inversion Hxy.
      * apply NoDup_pm_set.
    + intros x y z _ _ Hx Hy.
      apply in_map_iff in Hx as (? & <- & _).
      apply in_map_iff in Hy as (? & Heq & _). now inversion Heq.
  - intros x y z _ _ Hx Hy.
    apply in_flat_map in Hx as (? & _ & Hx).
    apply in_flat_map in Hy as (? & _ & Hy).
    apply in_map_iff in Hx as (? & <- & _).
    apply in_map_iff in Hy as (? & Heq & _). now inversion Heq.
Qed.

Lemma L1_nonneg (g : ivec3) : 0 <= L1 g.
Proof. unfold L1. lia. Qed.

Lemma In_visited (M : Z) (g : ivec3) : In g (visited M) <-> L1 g < M.
Proof.
  unfold visited. rewrite in_flat_map. split.
  - intros (N & HN & Hg). apply In_range in HN. apply In_shell in Hg. lia.
  - intros Hlt. exists (L1 g). split.
    + apply In_range. pose proof (L1_nonneg g). lia.
    + now apply In_shell.
Qed.

Lemma NoDup_visited (M : Z) : NoDup (visited M).
Proof.
  unfold visited. apply NoDup_flat_map.
  - apply NoDup_range.
  - intros N _. apply NoDup_shell.
  - intros x y z _ _ Hx Hy. apply In_shell in Hx, Hy. congruence.
Qed.

(** C8. At radius [N] the three nested loops visit exactly the integer
    triples with [|g1| + |g2| + |g3| = N], none of them twice (the set
    [{-a, a}] has one element when [a = 0]); hence over the radii
    [0, 1, ..., M - 1] every triple of L1 norm below [M] is generated exactly
    once, and no other triple is generated. *)
Theorem shell_enumerates_L1_sphere_once :
  (forall N g, In g (shell N) <-> L1 g = N) /\
  (forall N g, count_occ ivec3_eq_dec (shell N) g
               = if L1 g =? N then 1%nat else 0%nat) /\
  (forall M g, count_occ ivec3_eq_dec (visited M) g
               = if L1 g <? M then 1%nat else 0%nat).
Proof.
  split; [exact In_shell|]. split.
  - intros N g. destruct (Z.eqb_spec (L1 g) N) as [H | H].
    + apply NoDup_count_occ'; [apply NoDup_shell | now apply In_shell].
    + apply count_occ_not_In. now rewrite In_shell.
  - intros M g. destruct (Z.ltb_spec (L1 g) M) as [H | H].
    + apply NoDup_count_occ'; [apply NoDup_visited | now apply In_visited].
    + apply count_occ_not_In. rewrite In_visited. lia.
Qed.

(** ** Index arrays, masks and [argsort] *)

Lemma map_snd_combine {A B : Type} (l : list A) (l' : list B) :
  length l = length l' -> map snd (combine l l') = l'.
Proof.
  revert l'. induction l as [|a l IH]; intros [|b l'] Hlen;
    simpl in *; try discriminate; auto.
  f_equal. apply IH. lia.
Qed.

Lemma map_fst_combine {A B : Type} (l : list A) (l' : list B) :
  length l = length l' -> map fst (combine l l') = l.
Proof.
  revert l'. induction l as [|a l IH]; intros [|b l'] Hlen;
    simpl in *; try discriminate; auto.
  f_equal. apply IH. lia.
Qed.

Lemma take_seq {A : Type} (d : A) (l : list A) :
  take d l (seq 0 (length l)) = l.
Proof.
  unfold take. induction l as [|a l IH]; simpl; auto.
  f_equal. rewrite <- seq_shift, map_map. exact IH.
Qed.

Lemma take_Permutation {A : Type} (d : A) (l : list A) (idx : list nat) :
  Permutation idx (seq 0 (length l)) -> Permutation (take d l idx) l.
Proof.
  intros Hp. rewrite <- (take_seq d l) at 2.
  unfold take. now apply Permutation_map.
Qed.

Lemma take_map {A B : Type} (f : A -> B) (d : A) (d' : B) (l : list A)
    (idx : list nat) :
  (forall i, In i idx -> (i < length l)%nat) ->
  take d' (map f l) idx = map f (take d l idx).
Proof.
  intros Hin. unfold take. rewrite map_map. apply map_ext_in.
  intros i Hi. rewrite (nth_indep _ d' (f d)).
  - apply map_nth.
  - rewrite length_map. now apply Hin.
Qed.

Lemma Permutation_seq_bound (idx : list nat) (n : nat) :
  Permutation idx (seq 0 n) -> forall i, In i idx -> (i < n)%nat.
Proof.
  intros Hp i Hi. apply (Permutation_in _ Hp) in Hi.
  apply in_seq in Hi. lia.
Qed.

Lemma mask_select_map {A : Type} (p : A -> bool) (l : list A) :
  mask_select (map p l) l = filter p l.
Proof.
  unfold mask_select. induction l as [|a l IH]; simpl; auto.
  destruct (p a); simpl; now rewrite IH.
Qed.

Lemma mask_select_map2 {A B : Type} (f : A -> B) (p : B -> bool)
    (l : list A) :
  mask_select (map p (map f l)) (map f l)
  = map f (mask_select (map p (map f l)) l).
Proof.
  unfold mask_select. induction l as [|a l IH]; simpl; auto.
  destruct (p (f a)); simpl; now rewrite IH.
Qed.

Section Argsort.
Context {A : Type} (leb : A -> A -> bool).
Hypothesis leb_total : forall a b, leb a b = true \/ leb b a = true.
Hypothesis leb_trans :
  forall a b c, leb a b = true -> leb b c = true -> leb a c = true.

Let le_key (x y : A * nat) : Prop := leb (fst x) (fst y) = true.

Lemma insert_key_Permutation (x : A * nat) (l : list (A * nat)) :
  Permutation (insert_key leb x l) (x :: l).
Proof.
  induction l as [|y l IH]; simpl; auto.
  destruct (leb (fst x) (fst y)); auto.
  rewrite IH. apply perm_swap.
Qed.

Lemma sort_keys_Permutation (l : list (A * nat)) :
  Permutation (sort_keys leb l) l.
Proof.
  induction l as [|x l IH]; simpl; auto.
  rewrite insert_key_Permutation. now constructor.
Qed.

Lemma insert_key_sorted (x : A * nat) (l : list (A * nat)) :
  StronglySorted le_key l -> StronglySorted le_key (insert_key leb x l).
Proof.
  induction 1 as [|y l Hs IH Hall]; simpl.
  - repeat constructor.
  - destruct (leb (fst x) (fst y)) eqn:Hxy.
    + constructor; [now constructor|].
      constructor; [exact Hxy|].
      eapply Forall_impl; [|exact Hall].
      intros z Hz. unfold le_key in *. eauto.
    + constructor; [exact IH|].
      apply (Permutation_Forall
               (Permutation_sym (insert_key_Permutation x l))).
      constructor; [|exact Hall].
      unfold le_key. destruct (leb_total (fst x) (fst y)); congruence.
Qed.

Lemma sort_keys_sorted (l : list (A * nat)) :
  StronglySorted le_key (sort_keys leb l).
Proof.
  induction l as [|x l IH]; simpl.
  - constructor.
  - now apply insert_key_sorted.
Qed.

Lemma argsort_Permutation (keys : list A) :
  Permutation (argsort leb keys) (seq 0 (length keys)).
Proof.
  unfold argsort.
  rewrite sort_keys_Permutation, map_snd_combine; auto.
  now rewrite length_seq.
Qed.

Lemma take_argsort (d : A) (keys : list A) :
  take d keys (argsort leb keys)
  = map fst (sort_keys leb (combine keys (seq 0 (length keys)))).
Proof.
  unfold take, argsort. rewrite map_map. apply map_ext_in.
  intros [k i] Hin. simpl.
  apply (Permutation_in _ (sort_keys_Permutation _)) in Hin.
  remember 0%nat as s eqn:Hs.
  assert (Hgen : forall l s, In (k, i) (combine l (seq s (length l))) ->
                             nth (i - s) l d = k).
  { clear. induction l as [|a l IH]; simpl; intros s Hin; [tauto|].
    destruct Hin as [Heq | Hin].
    - inversion Heq; subst. now rewrite Nat.sub_diag.
    - pose proof (in_combine_r _ _ _ _ Hin) as Hr. apply in_seq in Hr.
      specialize (IH _ Hin).
      replace (i - s)%nat with (S (i - S s)) by lia. exact IH. }
  subst s. specialize (Hgen _ _ Hin). now rewrite Nat.sub_0_r in Hgen.
Qed.

Lemma take_argsort_sorted (d : A) (keys : list A) :
  StronglySorted (fun a b => leb a b = true)
                 (take d keys (argsort leb keys)).
Proof.
  rewrite take_argsort.
  generalize (sort_keys_sorted (combine keys (seq 0 (length keys)))).
  generalize (sort_keys leb (combine keys (seq 0 (length keys)))).
  induction 1 as [|y l Hs IH Hall]; simpl; constructor; auto.
  apply Forall_map. exact Hall.
Qed.
End Argsort.

Lemma StronglySorted_nth {A : Type} (R : A -> A -> Prop) (d : A)
    (l : list A) :
  StronglySorted R l ->
  forall i j, (i < j)%nat -> (j < length l)%nat -> R (nth i l d) (nth j l d).
Proof.
  induction 1 as [|a l Hs IH Hall]; simpl; intros i j Hij Hj; [lia|].
  destruct j as [|j]; [lia|]. destruct i as [|i].
  - rewrite Forall_forall in Hall. apply Hall, nth_In. lia.
  - apply IH; lia.
Qed.

Lemma Qle_bool_total (a b : Q) : Qle_bool a b = true \/ Qle_bool b a = true.
Proof.
  rewrite !Qle_bool_iff. destruct (Qlt_le_dec a b) as [H | H]; auto.
  left. now apply Qlt_le_weak.
Qed.

Lemma Qle_bool_trans (a b c : Q) :
  Qle_bool a b = true -> Qle_bool b c = true -> Qle_bool a c = true.
Proof. rewrite !Qle_bool_iff. apply Qle_trans. Qed.

Lemma Qltb_lt (a b : Q) : Qltb a b = true <-> (a < b)%Q.
Proof.
  unfold Qltb. rewrite negb_true_iff, <- not_true_iff_false, Qle_bool_iff.
  split; [apply Qnot_le_lt | apply Qlt_not_le].
Qed.

Lemma Qltb_ge (a b : Q) : Qltb a b = false <-> (b <= a)%Q.
Proof.
  unfold Qltb. now rewrite negb_false_iff, Qle_bool_iff.
Qed.

(** ** The enumeration loop *)

Lemma range_succ (N : Z) : 0 <= N -> range 0 (N + 1) = range 0 N ++ [N].
Proof.
  intros HN. unfold range.
  replace (Z.to_nat (N + 1 - 0)) with (S (Z.to_nat (N - 0))) by lia.
  rewrite seq_S, map_app. simpl. do 2 f_equal. lia.
Qed.

Lemma visited_succ (N : Z) : 0 <= N -> visited (N + 1) = visited N ++ shell N.
Proof.
  intros HN. unfold visited. rewrite range_succ by exact HN.
  rewrite flat_map_app. simpl. now rewrite app_nil_r.
Qed.

Lemma visited_nonpos (N : Z) : N <= 0 -> visited N = [].
Proof.
  intros HN. unfold visited, range.
  replace (Z.to_nat (N - 0)) with 0%nat by lia. reflexivity.
Qed.

Lemma check_stop_cases (len : nat) (mem : list bool) (nplane : nplane_t)
    (spinor : bool) (ex : loop_exit) :
  check_stop len mem nplane spinor = Some ex ->
  ge_half len nplane = true /\
  ((ex = Break /\ (spinor = true \/ ge_full len nplane = true)) \/
   (ex = Stuck /\ spinor = false /\ ge_full len nplane = false)).
Proof.
  unfold check_stop. destruct (ge_half len nplane); [|discriminate].
  destruct spinor.
  - intros [= <-]. auto.
  - destruct (ge_full len nplane).
    + intros [= <-]. auto.
    + destruct (forallb _ mem); [|discriminate]. intros [= <-]. auto.
Qed.

Section Enumeration.
Variables (K : vec3) (B : mat3) (Ecut : Q).

Lemma visit_fold (l : list ivec3) (ig : list ivec3) (eg : list Q)
    (flag : bool) :
  fold_left (visit K B Ecut) l (ig, eg, flag)
  = (ig ++ filter (below K B Ecut) l, eg ++ map (etot K B) (filter (below K B Ecut) l),
     flag && negb (existsb (below K B Ecut) l)).
Proof.
  revert ig eg flag. induction l as [|g l IH]; intros ig eg flag;
    cbn [fold_left filter existsb map].
  - now rewrite !app_nil_r, andb_true_r.
  - change (visit K B Ecut (ig, eg, flag) g)
      with (if below K B Ecut g
            then (ig ++ [g], eg ++ [etot K B g], false)
            else (ig, eg, flag)).
    destruct (below K B Ecut g); rewrite IH; simpl.
    + rewrite <- !app_assoc, andb_false_r. reflexivity.
    + reflexivity.
Qed.

Lemma enum_loop_spec (nplane : nplane_t) (spinor : bool) (fuel : nat) :
  forall N st ex st',
    0 <= N -> enum_inv K B Ecut N st ->
    enum_loop K B Ecut nplane spinor fuel N st = (ex, st') ->
    (exists N', N <= N' <= N + Z.of_nat fuel /\ enum_inv K B Ecut N' st' /\
                (ex = Exhausted -> N' = N + Z.of_nat fuel)) /\
    (iters st' <= iters st + fuel)%nat /\
    (ex <> Exhausted ->
     check_stop (length (igall st')) (memory st') nplane spinor = Some ex).
Proof.
  induction fuel as [|fuel IH]; intros N st ex st' HN Hinv Hrun; simpl in Hrun.
  - inversion Hrun; subst. split; [|split]; [|lia|congruence].
    exists N. split; [lia|]. split; [exact Hinv|]. intros _. lia.
  - destruct (check_stop (length (igall st)) (memory st) nplane spinor)
      as [ex0|] eqn:Hstop.
    + inversion Hrun; subst. simpl. split; [|split]; [|lia|auto].
      exists N. split; [lia|]. split; [exact Hinv|].
      intros ->. apply check_stop_cases in Hstop.
      destruct Hstop as (_ & [(Hc & _) | (Hc & _)]); discriminate.
    + rewrite visit_fold in Hrun. simpl in Hrun.
      apply IH in Hrun; [|lia|].
      * destruct Hrun as ((N' & HN' & Hinv' & Hex) & Hit & Hchk).
        simpl in Hit. split; [|split]; [|lia|exact Hchk].
        exists N'. split; [lia|]. split; [exact Hinv'|].
        intros He. specialize (Hex He). lia.
      * destruct Hinv as [Hig Heg]. unfold enum_inv. simpl. split.
        -- rewrite visited_succ by exact HN.
           now rewrite filter_app, Hig.
        -- now rewrite map_app, Heg.
Qed.

Lemma enumerate_spec (nplane : nplane_t) (spinor : bool) (nplanemax : Z)
    (ex : loop_exit) (st : enum_state) :
  enumerate K B Ecut nplane spinor nplanemax = (ex, st) ->
  (exists N, 0 <= N <= Z.max 0 nplanemax /\ enum_inv K B Ecut N st /\
             (ex = Exhausted -> N = Z.max 0 nplanemax)) /\
  (iters st <= Z.to_nat nplanemax)%nat /\
  (ex <> Exhausted ->
   check_stop (length (igall st)) (memory st) nplane spinor = Some ex).
Proof.
  unfold enumerate. intros Hrun.
  apply enum_loop_spec in Hrun; [|lia|].
  - destruct Hrun as ((N & HN & Hinv & Hex) & Hit & Hchk).
    simpl in Hit. split; [|split]; auto.
    exists N. split; [lia|]. split; [exact Hinv|].
    intros He. specialize (Hex He). lia.
  - unfold enum_inv. simpl. auto.
Qed.

End Enumeration.

(** ** Shell walls *)

Lemma np_where_filter (mask : list bool) :
  np_where mask = filter (fun i => nth i mask false) (seq 0 (length mask)).
Proof.
  unfold np_where.
  enough (Hgen : forall s,
             map fst (filter snd (combine (seq s (length mask)) mask))
             = filter (fun i => nth (i - s) mask false)
                      (seq s (length mask))).
  { rewrite Hgen. apply filter_ext. intros i. now rewrite Nat.sub_0_r. }
  induction mask as [|b m IH]; intros s; auto.
  cbn [length seq combine].
  assert (Htail : filter (fun i => nth (i - s) (b :: m) false)
                         (seq (S s) (length m))
                  = filter (fun i => nth (i - S s) m false)
                           (seq (S s) (length m))).
  { apply filter_ext_in. intros i Hi. apply in_seq in Hi.
    replace (i - s)%nat with (S (i - S s)) by lia. reflexivity. }
  cbn [filter snd]. rewrite Htail, <- IH, Nat.sub_diag.
  now destruct b.
Qed.

Lemma nth_tl {A : Type} (l : list A) (i : nat) (d : A) :
  nth i (tl l) d = nth (S i) l d.
Proof. destruct l; simpl; auto. now destruct i. Qed.

Lemma nth_removelast {A : Type} (l : list A) (i : nat) (d : A) :
  (S i < length l)%nat -> nth i (removelast l) d = nth i l d.
Proof.
  intros Hi. rewrite removelast_firstn_len, nth_firstn.
  destruct (Nat.ltb_spec i (Nat.pred (length l))); auto. lia.
Qed.

Lemma length_removelast {A : Type} (l : list A) :
  length (removelast l) = (length l - 1)%nat.
Proof.
  rewrite removelast_firstn_len, length_firstn. lia.
Qed.

Lemma wall_eq (Eg : list Q) (thresh : Q) :
  wall Eg thresh
  = 0%nat :: map S (filter (gap_after Eg thresh) (seq 0 (length Eg - 1)))
      ++ [length Eg].
Proof.
  unfold wall. simpl. do 3 f_equal.
  rewrite np_where_filter, !length_map, length_combine, length_tl,
    length_removelast, Nat.min_id.
  apply filter_ext_in. intros i Hi. apply in_seq in Hi.
  set (diffs := combine (tl Eg) (removelast Eg)).
  assert (Hlen : length diffs = (length Eg - 1)%nat).
  { unfold diffs.
    rewrite length_combine, length_tl, length_removelast. lia. }
  rewrite (nth_indep _ false (Qltb thresh 0%Q))
    by (rewrite !length_map; lia).
  rewrite map_nth.
  rewrite (nth_indep _ 0%Q (fst (0%Q, 0%Q) - snd (0%Q, 0%Q))%Q)
    by (rewrite length_map; lia).
  rewrite (map_nth (fun p => (fst p - snd p)%Q)).
  unfold diffs. rewrite combine_nth
    by (rewrite length_tl, length_removelast; lia).
  simpl. rewrite nth_tl, nth_removelast by lia. reflexivity.
Qed.

Lemma filter_seq_sorted (f : nat -> bool) (k a : nat) :
  StronglySorted le (filter f (seq a k)).
Proof.
  revert a. induction k as [|k IH]; intros a; simpl; [constructor|].
  destruct (f a); [|apply IH].
  constructor; [apply IH|]. apply Forall_forall. intros x Hx.
  apply filter_In in Hx as [Hx _]. apply in_seq in Hx. lia.
Qed.

Lemma sorted_snoc (l : list nat) (n : nat) :
  StronglySorted le l -> (forall x, In x l -> (x <= n)%nat) ->
  StronglySorted le (l ++ [n]).
Proof.
  induction 1 as [|a l Hs IH Hall]; intros Hle; simpl.
  - repeat constructor.
  - constructor.
    + apply IH. intros x Hx. apply Hle. now right.
    + apply Forall_app. split; [exact Hall|].
      constructor; [|constructor]. apply Hle. now left.
Qed.

Lemma wall_sorted (Eg : list Q) (thresh : Q) :
  StronglySorted le (wall Eg thresh).
Proof.
  rewrite wall_eq. constructor.
  - apply sorted_snoc.
    + generalize (filter_seq_sorted (gap_after Eg thresh)
                    (length Eg - 1) 0).
      induction 1 as [|a l Hs IH Hall]; simpl; constructor; auto.
      apply Forall_map. eapply Forall_impl; [|exact Hall].
      intros x Hx. simpl. lia.
    + intros x Hx. apply in_map_iff in Hx as (i & <- & Hi).
      apply filter_In in Hi as [Hi _]. apply in_seq in Hi. lia.
  - apply Forall_forall. intros x _. lia.
Qed.

Lemma wall_interior (Eg : list Q) (thresh : Q) (x : nat) :
  In x (wall Eg thresh) ->
  x = 0%nat \/ x = length Eg \/
  (exists i, x = S i /\ (S i < length Eg)%nat /\ gap_after Eg thresh i = true).
Proof.
  rewrite wall_eq. simpl. rewrite in_app_iff. simpl.
  intros [H | [H | [H | []]]]; auto.
  apply in_map_iff in H as (i & <- & Hi).
  apply filter_In in Hi as [Hi Hg]. apply in_seq in Hi.
  right. right. exists i. repeat split; auto. lia.
Qed.

Lemma wall_contains (Eg : list Q) (thresh : Q) (i : nat) :
  (S i < length Eg)%nat -> gap_after Eg thresh i = true ->
  In (S i) (wall Eg thresh).
Proof.
  intros Hi Hg. rewrite wall_eq. right. apply in_or_app. left.
  apply in_map, filter_In. split; [|exact Hg]. apply in_seq. lia.
Qed.

(** Consecutive walls. *)
Lemma sorted_consecutive (w : list nat) :
  StronglySorted le w ->
  forall a b x, In (a, b) (combine w (tl w)) -> In x w ->
                (x <= a)%nat \/ (b <= x)%nat.
Proof.
  induction 1 as [|y w' Hs IH Hall]; intros a b x Hab Hx; [contradiction|].
  destruct w' as [|z w'']; [contradiction|].
  rewrite Forall_forall in Hall.
  destruct Hab as [Heq | Hab].
  - inversion Heq; subst. destruct Hx as [-> | Hx]; [left; lia|].
    right. destruct Hx as [-> | Hx]; [lia|].
    inversion Hs as [|? ? _ Hz]; subst.
    rewrite Forall_forall in Hz. now apply Hz.
  - destruct Hx as [-> | Hx].
    + left. apply Hall. now apply in_combine_l in Hab.
    + now apply IH.
Qed.

Lemma consecutive_cover (w : list nat) (p : nat) :
  (hd 0%nat w <= p)%nat -> (p < last w 0%nat)%nat ->
  exists ab, In ab (combine w (tl w)) /\ covers p ab = true.
Proof.
  induction w as [|a w IH]; simpl; intros Hlo Hhi; [lia|].
  destruct w as [|b w]; [lia|].
  destruct (Nat.ltb_spec p b) as [Hlt | Hge].
  - exists (a, b). split; [now left|]. unfold covers. simpl.
    apply andb_true_iff. split; [apply Nat.leb_le | apply Nat.ltb_lt]; lia.
  - destruct IH as (ab & Hin & Hc); auto.
    exists ab. split; [right; exact Hin | exact Hc].
Qed.

Lemma covers_iff (p : nat) (ab : nat * nat) :
  covers p ab = true <-> (fst ab <= p < snd ab)%nat.
Proof.
  unfold covers. rewrite andb_true_iff, Nat.leb_le, Nat.ltb_lt. tauto.
Qed.

Lemma consecutive_unique (w : list nat) (p : nat) (ab cd : nat * nat) :
  StronglySorted le w ->
  In ab (combine w (tl w)) -> In cd (combine w (tl w)) ->
  covers p ab = true -> covers p cd = true -> ab = cd.
Proof.
  intros Hs Hab Hcd Hp Hq. destruct ab as [a b], cd as [c d].
  apply covers_iff in Hp, Hq. simpl in Hp, Hq.
  pose proof (sorted_consecutive w Hs a b c Hab (in_combine_l _ _ _ _ Hcd)).
  pose proof (sorted_consecutive w Hs c d a Hcd (in_combine_l _ _ _ _ Hab)).
  assert (Hd : In d w).
  { apply in_combine_r in Hcd. destruct w; [contradiction|now right]. }
  assert (Hb : In b w).
  { apply in_combine_r in Hab. destruct w; [contradiction|now right]. }
  pose proof (sorted_consecutive w Hs a b d Hab Hd).
  pose proof (sorted_consecutive w Hs c d b Hcd Hb).
  f_equal; lia.
Qed.

(** ** Writing the shell bounds *)

Lemma set_shell_length (a b : nat) (t : list entry) :
  length (set_shell a b t) = length t.
Proof.
  unfold set_shell. rewrite length_map, length_combine, length_seq.
  apply Nat.min_id.
Qed.

Lemma set_shell_nth (a b : nat) (t : list entry) (p : nat) :
  (p < length t)%nat ->
  nth p (set_shell a b t) entry0
  = let e := nth p t entry0 in
    if covers p (a, b)
    then mk_entry (gvec e) (order_index e) (Z.of_nat a) (Z.of_nat b)
    else e.
Proof.
  intros Hp. unfold set_shell.
  match goal with |- nth p (map ?g _) _ = _ => set (f := g) end.
  rewrite (nth_indep _ entry0 (f (0%nat, entry0)))
    by (rewrite length_map, length_combine, length_seq; lia).
  rewrite map_nth, combine_nth by apply length_seq.
  rewrite seq_nth by exact Hp. reflexivity.
Qed.

Lemma consecutive_pairs (w : list nat) :
  map (fun i => (nth i w 0%nat, nth (S i) w 0%nat))
      (seq 0 (length w - 1))
  = combine w (tl w).
Proof.
  induction w as [|a w IH]; auto.
  destruct w as [|b w]; auto.
  replace (length (a :: b :: w) - 1)%nat with (S (length (b :: w) - 1))
    by (simpl; lia).
  cbn [seq map]. rewrite <- seq_shift, map_map. cbn [nth tl combine].
  f_equal. exact IH.
Qed.

Lemma mark_shells_pairs (w : list nat) (t : list entry) :
  mark_shells w t
  = fold_left (fun t ab => set_shell (fst ab) (snd ab) t)
              (combine w (tl w)) t.
Proof.
  unfold mark_shells. rewrite <- consecutive_pairs.
  generalize (seq 0 (length w - 1)). intros l. revert t.
  induction l as [|i l IH]; intros t; simpl; auto.
Qed.

Lemma fold_set_shell_length (pairs : list (nat * nat)) (t : list entry) :
  length (fold_left (fun t ab => set_shell (fst ab) (snd ab) t) pairs t)
  = length t.
Proof.
  revert t. induction pairs as [|ab pairs IH]; intros t; simpl; auto.
  now rewrite IH, set_shell_length.
Qed.

(** The last slice written over a position decides its bounds. *)
Lemma fold_set_shell_nth (pairs : list (nat * nat)) (t : list entry)
    (p : nat) :
  (p < length t)%nat ->
  let e := nth p (fold_left (fun t ab => set_shell (fst ab) (snd ab) t)
                            pairs t) entry0 in
  let e0 := nth p t entry0 in
  gvec e = gvec e0 /\ order_index e = order_index e0 /\
  match find (covers p) (rev pairs) with
  | Some ab => shell_start e = Z.of_nat (fst ab) /\
               shell_end e = Z.of_nat (snd ab)
  | None => shell_start e = shell_start e0 /\ shell_end e = shell_end e0
  end.
Proof.
  intros Hp. induction pairs as [|ab pairs IH] using rev_ind; simpl.
  - auto.
  - rewrite fold_left_app, rev_app_distr. simpl.
    rewrite set_shell_nth by (now rewrite fold_set_shell_length).
    destruct ab as [a b]. simpl in *.
    destruct IH as (Hg & Ho & Hs).
    destruct (covers p (a, b)); simpl; auto.
Qed.

Lemma mark_shells_length (w : list nat) (t : list entry) :
  length (mark_shells w t) = length t.
Proof. rewrite mark_shells_pairs. apply fold_set_shell_length. Qed.

Lemma mark_shells_gvec (w : list nat) (t : list entry) :
  map gvec (mark_shells w t) = map gvec t.
Proof.
  apply (nth_ext _ _ (gvec entry0) (gvec entry0)).
  - now rewrite !length_map, mark_shells_length.
  - intros p Hp. rewrite length_map, mark_shells_length in Hp.
    rewrite !map_nth, mark_shells_pairs.
    now destruct (fold_set_shell_nth (combine w (tl w)) t p Hp) as (Hg & _).
Qed.

(** The bounds [mark_shells] leaves at a position between the first and the
    last wall: those of the one pair of consecutive walls around it. *)
Lemma mark_shells_nth (w : list nat) (t : list entry) (p : nat) :
  (p < length t)%nat -> (hd 0%nat w <= p)%nat -> (p < last w 0%nat)%nat ->
  exists a b,
    In (a, b) (combine w (tl w)) /\ (a <= p < b)%nat /\
    shell_start (nth p (mark_shells w t) entry0) = Z.of_nat a /\
    shell_end (nth p (mark_shells w t) entry0) = Z.of_nat b.
Proof.
  intros Hp Hlo Hhi. rewrite mark_shells_pairs.
  destruct (fold_set_shell_nth (combine w (tl w)) t p Hp) as (_ & _ & Hs).
  destruct (find (covers p) (rev (combine w (tl w)))) as [[a b]|] eqn:Hf.
  - apply find_some in Hf as [Hin Hc]. apply in_rev in Hin.
    apply covers_iff in Hc. exists a, b. simpl in *. tauto.
  - destruct (consecutive_cover w p Hlo Hhi) as (ab & Hin & Hc).
    apply in_rev in Hin. apply (find_none _ _ Hf) in Hin. congruence.
Qed.

(** ** The table built from the collected vectors *)

Lemma Permutation_filter {A : Type} (f : A -> bool) (l l' : list A) :
  Permutation l l' -> Permutation (filter f l) (filter f l').
Proof.
  induction 1 as [|x l l' Hp IH|x y l|l l' l'' Hp1 IH1 Hp2 IH2]; simpl.
  - constructor.
  - destruct (f x); auto.
  - destruct (f x), (f y); auto. apply perm_swap.
  - now transitivity (filter f l').
Qed.

Lemma span_nonempty (ig : list ivec3) :
  ig <> [] -> exists ng, span ig = Ok ng.
Proof.
  destruct ig as [|g ig]; [congruence|]. intros _. unfold span. simpl.
  eexists. reflexivity.
Qed.

Lemma build_table_raises (ig : list ivec3) (eg : list Q) (Ecut1 thresh : Q)
    (e : exn) :
  build_table ig eg Ecut1 thresh = Raise e -> ig = [] /\ e = ValueError.
Proof.
  unfold build_table. destruct ig as [|g ig].
  - simpl. intros [= <-]. auto.
  - destruct (span_nonempty (g :: ig)) as (ng & ->); [discriminate|].
    simpl. discriminate.
Qed.

Lemma build_table_spec (K : vec3) (B : mat3) (ig : list ivec3)
    (Ecut1 thresh : Q) (t : list entry) :
  build_table ig (map (etot K B) ig) Ecut1 thresh = Ok t ->
  exists rows,
    t = mark_shells (wall (energies K B rows) thresh) rows /\
    Permutation (map gvec rows)
                (filter (fun g => Qle_bool (etot K B g) Ecut1) ig) /\
    StronglySorted (fun a b => Qle_bool a b = true) (energies K B rows).
Proof.
  unfold build_table. destruct (span ig) as [ng|e]; [|discriminate].
  cbn [bind]. intros [= <-].
  set (f := fun e : entry => etot K B (gvec e)).
  set (q := fun x : Q => Qle_bool x Ecut1).
  set (idx := argsort Z.leb (map (order_key ng) ig)).
  assert (Hidx : Permutation idx (seq 0 (length ig))).
  { unfold idx. rewrite <- (length_map (order_key ng) ig).
    apply argsort_Permutation. }
  set (igall1 := take (0, 0, 0) ig idx).
  assert (Hig1 : Permutation igall1 ig) by now apply take_Permutation.
  assert (Hlen1 : length igall1 = length ig)
    by now apply Permutation_length.
  set (rows := map (fun gi : ivec3 * nat =>
                      mk_entry (fst gi) (Z.of_nat (snd gi)) 0 0)
                   (combine igall1 (seq 0 (length ig)))).
  assert (Hrows : map gvec rows = igall1).
  { unfold rows. rewrite map_map. simpl.
    apply map_fst_combine. now rewrite length_seq. }
  assert (HEg1 : take 0%Q (map (etot K B) ig) idx = map f rows).
  { rewrite (take_map _ (0, 0, 0)).
    - fold igall1. rewrite <- Hrows, map_map. reflexivity.
    - now apply Permutation_seq_bound. }
  rewrite HEg1.
  set (mask := map q (map f rows)).
  set (rows2 := mask_select mask rows).
  assert (HEg2 : mask_select mask (map f rows) = map f rows2).
  { unfold rows2, mask. apply (mask_select_map2 f q). }
  rewrite HEg2.
  set (srt := argsort Qle_bool (map f rows2)).
  assert (Hsrt : Permutation srt (seq 0 (length rows2))).
  { unfold srt. rewrite <- (length_map f rows2).
    apply argsort_Permutation. }
  assert (HEg3 : take 0%Q (map f rows2) srt
                 = map f (take entry0 rows2 srt)).
  { apply take_map. now apply Permutation_seq_bound. }
  exists (take entry0 rows2 srt). unfold energies. fold f.
  split; [now rewrite <- HEg3|]. split.
  - rewrite (Permutation_map gvec (take_Permutation entry0 rows2 srt Hsrt)).
    unfold rows2, mask. rewrite map_map, mask_select_map.
    rewrite <- (filter_map_swap (fun g => Qle_bool (etot K B g) Ecut1) gvec).
    rewrite Hrows. now apply Permutation_filter.
  - rewrite <- HEg3. unfold srt.
    apply take_argsort_sorted; [apply Qle_bool_total | apply Qle_bool_trans].
Qed.

Lemma wall_hd (Eg : list Q) (thresh : Q) : hd 0%nat (wall Eg thresh) = 0%nat.
Proof. reflexivity. Qed.

Lemma wall_last (Eg : list Q) (thresh : Q) :
  last (wall Eg thresh) 0%nat = length Eg.
Proof.
  unfold wall. rewrite app_assoc. apply last_last.
Qed.

Lemma energies_nth (K : vec3) (B : mat3) (t : list entry) (i : nat) :
  (i < length t)%nat -> nth i (energies K B t) 0%Q = energy_at K B t i.
Proof.
  intros Hi. unfold energies, energy_at.
  rewrite (nth_indep _ 0%Q (etot K B (gvec entry0)))
    by now rewrite length_map.
  apply (map_nth (fun e => etot K B (gvec e))).
Qed.

Lemma energies_mark_shells (K : vec3) (B : mat3) (w : list nat)
    (t : list entry) :
  energies K B (mark_shells w t) = energies K B t.
Proof.
  unfold energies.
  rewrite <- (map_map gvec (etot K B)), mark_shells_gvec.
  apply map_map.
Qed.

(** The shells written by [mark_shells] for the walls of an energy list. *)
Lemma shells_spec (Eg : list Q) (thresh : Q) (rows : list entry) (p : nat) :
  length Eg = length rows -> (p < length rows)%nat ->
  let t := mark_shells (wall Eg thresh) rows in
  exists a b,
    (a <= p < b)%nat /\ (b <= length rows)%nat /\
    shell_start (nth p t entry0) = Z.of_nat a /\
    shell_end (nth p t entry0) = Z.of_nat b /\
    (forall j, (a <= j < b)%nat ->
               shell_start (nth j t entry0) = Z.of_nat a /\
               shell_end (nth j t entry0) = Z.of_nat b) /\
    (forall j, (a <= j)%nat -> (S j < b)%nat ->
               gap_after Eg thresh j = false) /\
    ((b < length rows)%nat -> gap_after Eg thresh (b - 1) = true).
Proof.
  intros Hlen Hp t. subst t.
  pose proof (wall_sorted Eg thresh) as Hs.
  destruct (mark_shells_nth (wall Eg thresh) rows p Hp) as
    (a & b & Hin & Hab & Hst & Hen).
  { rewrite wall_hd. lia. }
  { rewrite wall_last. lia. }
  assert (Hbw : In b (wall Eg thresh)).
  { apply in_combine_r in Hin. destruct (wall Eg thresh); [contradiction|].
    now right. }
  assert (Hb : (b <= length rows)%nat).
  { apply wall_interior in Hbw as [-> | [-> | (i & -> & Hi & _)]]; lia. }
  exists a, b. repeat split; try tauto; try lia.
  - destruct (mark_shells_nth (wall Eg thresh) rows j) as
      (c & d & Hin' & Hcd & Hst' & _); [lia| rewrite wall_hd; lia
                                       | rewrite wall_last; lia |].
    assert (Heq : (c, d) = (a, b)).
    { apply (consecutive_unique (wall Eg thresh) j); auto;
        apply covers_iff; simpl; lia. }
    inversion Heq; subst. exact Hst'.
  - destruct (mark_shells_nth (wall Eg thresh) rows j) as
      (c & d & Hin' & Hcd & _ & Hen'); [lia| rewrite wall_hd; lia
                                       | rewrite wall_last; lia |].
    assert (Heq : (c, d) = (a, b)).
    { apply (consecutive_unique (wall Eg thresh) j); auto;
        apply covers_iff; simpl; lia. }
    inversion Heq; subst. exact Hen'.
  - intros j Haj Hjb. destruct (gap_after Eg thresh j) eqn:Hg; auto.
    assert (Hw : In (S j) (wall Eg thresh))
      by (apply wall_contains; [lia | exact Hg]).
    pose proof (sorted_consecutive _ Hs a b (S j) Hin Hw). lia.
  - intros Hlt.
    apply wall_interior in Hbw as [-> | [-> | (i & -> & Hi & Hg)]];
      [lia | lia |].
    now replace (S i - 1)%nat with i by lia.
Qed.

(** ** Tables returned by [calc_gvectors] *)

Lemma calc_gvectors_ok (K : vec3) (B : mat3) (Ecut : Q) (nplane : nplane_t)
    (Ecut1 thresh : Q) (spinor : bool) (nplanemax : Z) (t : list entry) :
  calc_gvectors K B Ecut nplane Ecut1 thresh spinor nplanemax = Ok t ->
  exists rows,
    t = mark_shells (wall (energies K B rows) thresh) rows /\
    NoDup (map gvec rows) /\
    (forall g, In g (map gvec rows) ->
               (etot K B g < Ecut)%Q /\
               (etot K B g <= effective_Ecut1 Ecut Ecut1)%Q) /\
    StronglySorted (fun a b => Qle_bool a b = true) (energies K B rows).
Proof.
  unfold calc_gvectors. fold (effective_Ecut1 Ecut Ecut1).
  destruct (enumerate K B Ecut nplane spinor nplanemax) as [ex st] eqn:Hen.
  apply enumerate_spec in Hen as ((N & _ & Hinv & _) & _ & _).
  intros Hcalc.
  assert (Hb : build_table (igall st) (Eg st)
                 (effective_Ecut1 Ecut Ecut1) thresh = Ok t).
  { destruct ex; try discriminate;
      destruct (check_count nplane spinor (length (igall st)));
      try discriminate; exact Hcalc. }
  destruct Hinv as [Hig Heg]. rewrite Heg in Hb.
  apply build_table_spec in Hb as (rows & Ht & Hperm & Hsorted).
  exists rows. split; [exact Ht|]. split; [|split; [|exact Hsorted]].
  - apply (Permutation_NoDup (Permutation_sym Hperm)).
    apply NoDup_filter. rewrite Hig. apply NoDup_filter, NoDup_visited.
  - intros g Hg. apply (Permutation_in _ Hperm) in Hg.
    apply filter_In in Hg as [Hg Hle]. split.
    + rewrite Hig in Hg. apply filter_In in Hg as [_ Hg].
      now apply Qltb_lt.
    + now apply Qle_bool_iff.
Qed.

(** C1 (amended). Every table returned by [calc_gvectors] is sorted by
    ascending kinetic energy; the energy of every row is strictly below
    [Ecut] and at most the effective [Ecut1] (equality with [Ecut1] is
    kept); columns 5 and 6 of row [i] hold a range [shell_start, shell_end)
    around [i], shared by all its members, inside which consecutive energies
    differ by at most [thresh], while the gap between the last member and
    the first row of the next shell exceeds [thresh]. *)
Theorem calc_gvectors_table_invariants (K : vec3) (B : mat3) (Ecut : Q)
    (nplane : nplane_t) (Ecut1 thresh : Q) (spinor : bool) (nplanemax : Z)
    (t : list entry) :
  calc_gvectors K B Ecut nplane Ecut1 thresh spinor nplanemax = Ok t ->
  let E := energy_at K B t in
  (forall i j, (i <= j < length t)%nat -> (E i <= E j)%Q) /\
  (forall i, (i < length t)%nat ->
             (E i < Ecut)%Q /\ (E i <= effective_Ecut1 Ecut Ecut1)%Q) /\
  (forall i, (i < length t)%nat ->
     exists a b : nat,
       shell_start (nth i t entry0) = Z.of_nat a /\
       shell_end (nth i t entry0) = Z.of_nat b /\
       (a <= i < b)%nat /\ (b <= length t)%nat /\
       (forall j, (a <= j < b)%nat ->
                  shell_start (nth j t entry0) = Z.of_nat a /\
                  shell_end (nth j t entry0) = Z.of_nat b) /\
       (forall j, (a <= j)%nat -> (S j < b)%nat ->
                  (E (S j) - E j <= thresh)%Q) /\
       ((b < length t)%nat -> (thresh < E b - E (b - 1)%nat)%Q)).
Proof.
  intros Hcalc E.
  apply calc_gvectors_ok in Hcalc as (rows & Ht & Hnd & Hcut & Hsorted).
  assert (Hlen : length t = length rows)
    by (rewrite Ht; apply mark_shells_length).
  assert (HE : energies K B t = energies K B rows)
    by (rewrite Ht; apply energies_mark_shells).
  assert (Hnth : forall i, (i < length t)%nat ->
                           nth i (energies K B rows) 0%Q = E i).
  { intros i Hi. rewrite <- HE. now apply energies_nth. }
  split; [|split].
  - intros i j Hij. destruct (Nat.eq_dec i j) as [-> | Hne].
    + apply Qle_refl.
    + rewrite <- !Hnth by lia. apply Qle_bool_iff.
      apply (StronglySorted_nth _ 0%Q _ Hsorted); [lia|].
      unfold energies. rewrite length_map. lia.
  - intros i Hi. apply Hcut.
    assert (Hg : map gvec t = map gvec rows)
      by (rewrite Ht; apply mark_shells_gvec).
    rewrite <- Hg. unfold E, energy_at. apply in_map, nth_In, Hi.
  - intros i Hi. rewrite Hlen in Hi.
    destruct (shells_spec (energies K B rows) thresh rows i) as
      (a & b & Hab & Hb & Hs & He & Hshared & Hin & Hout); auto.
    { unfold energies. apply length_map. }
    rewrite <- Ht in Hs, He, Hshared.
    exists a, b. rewrite Hlen. repeat split; try tauto; try lia.
    + now apply Hshared.
    + now apply Hshared.
    + intros j Haj Hjb. specialize (Hin j Haj Hjb).
      unfold gap_after in Hin. apply Qltb_ge in Hin.
      rewrite !Hnth in Hin by lia. exact Hin.
    + intros Hlt. specialize (Hout Hlt).
      unfold gap_after in Hout. apply Qltb_lt in Hout.
      replace (S (b - 1)) with b in Hout by lia.
      rewrite !Hnth in Hout by lia. exact Hout.
Qed.

(** A row whose energy equals [Ecut1] survives the test [Eg <= Ecut1]:
    the six neighbours of the origin have energy [E_first], and with
    [Ecut1 = E_first] row 1 of the table is one of them. *)
Lemma calc_gvectors_keeps_energy_equal_to_Ecut1 :
  exists t,
    calc_gvectors K_gamma B_cubic 10 Inf E_first (1 # 1000) false 3 = Ok t /\
    (1 < length t)%nat /\
    ~ (energy_at K_gamma B_cubic t 1 < E_first)%Q.
Proof.
  eexists. split; [vm_compute; reflexivity|]. split; [simpl; lia|].
  apply Qle_not_lt. vm_compute. discriminate.
Qed.

Lemma calc_gvectors_table_invariants_witness :
  calc_gvectors K_gamma B_cubic 5 Inf (-1) (1 # 1000) false 4 = Ok table7 /\
  let E := energy_at K_gamma B_cubic table7 in
  (forall i j, (i <= j < length table7)%nat -> (E i <= E j)%Q) /\
  (forall i, (i < length table7)%nat ->
             (E i < 5)%Q /\ (E i <= effective_Ecut1 5 (-1))%Q) /\
  (forall i, (i < length table7)%nat ->
     exists a b : nat,
       shell_start (nth i table7 entry0) = Z.of_nat a /\
       shell_end (nth i table7 entry0) = Z.of_nat b /\
       (a <= i < b)%nat /\ (b <= length table7)%nat /\
       (forall j, (a <= j < b)%nat ->
                  shell_start (nth j table7 entry0) = Z.of_nat a /\
                  shell_end (nth j table7 entry0) = Z.of_nat b) /\
       (forall j, (a <= j)%nat -> (S j < b)%nat ->
                  (E (S j) - E j <= 1 # 1000)%Q) /\
       ((b < length table7)%nat ->
        (1 # 1000 < E b - E (b - 1)%nat)%Q)).
Proof.
  split; [vm_compute; reflexivity|].
  apply (calc_gvectors_table_invariants K_gamma B_cubic 5 Inf (-1)
           (1 # 1000) false 4 table7).
  vm_compute; reflexivity.
Defined.

(** ** Termination and the error paths of [calc_gvectors] *)

Lemma check_count_cases (nplane : nplane_t) (spinor : bool) (ncnt : nat) :
  check_count nplane spinor ncnt = Ok tt \/
  exists c n, check_count nplane spinor ncnt = Raise (CountMismatch c n).
Proof.
  unfold check_count. destruct nplane as [n|]; auto.
  destruct spinor.
  - destruct (2 * Z.of_nat ncnt =? n); eauto.
  - destruct (Z.of_nat ncnt =? n); eauto.
Qed.

(** C9. The enumeration loop enters at most [nplanemax] radii, and
    [calc_gvectors] always ends: it returns a table or raises the "stuck"
    error, the count-mismatch error, or the [ValueError] of an empty
    search. *)
Theorem calc_gvectors_terminates (K : vec3) (B : mat3) (Ecut : Q)
    (nplane : nplane_t) (Ecut1 thresh : Q) (spinor : bool) (nplanemax : Z) :
  let r := calc_gvectors K B Ecut nplane Ecut1 thresh spinor nplanemax in
  (iters (snd (enumerate K B Ecut nplane spinor nplanemax))
   <= Z.to_nat nplanemax)%nat /\
  ((exists t, r = Ok t) \/ r = Raise StuckError \/
   (exists c n, r = Raise (CountMismatch c n)) \/ r = Raise ValueError).
Proof.
  intros r. subst r. unfold calc_gvectors.
  destruct (enumerate K B Ecut nplane spinor nplanemax) as [ex st] eqn:Hen.
  pose proof (enumerate_spec _ _ _ _ _ _ _ _ Hen) as (_ & Hit & _).
  split; [exact Hit|].
  set (Ec := if Qle_bool Ecut1 0 then Ecut else Ecut1).
  assert (Hrest :
    let r := _ <- check_count nplane spinor (length (igall st)) ;;
             build_table (igall st) (Eg st) Ec thresh in
    (exists t, r = Ok t) \/ r = Raise StuckError \/
    (exists c n, r = Raise (CountMismatch c n)) \/ r = Raise ValueError).
  { destruct (check_count_cases nplane spinor (length (igall st)))
      as [-> | (c & n & ->)]; simpl.
    - destruct (build_table (igall st) (Eg st) Ec thresh) as [t|e] eqn:Hb;
        eauto.
      apply build_table_raises in Hb as [_ ->]. now repeat right.
    - right. right. left. eauto. }
  destruct ex; auto.
Qed.

Lemma enumerate_Inf (K : vec3) (B : mat3) (Ecut : Q) (spinor : bool)
    (nplanemax : Z) :
  exists st,
    enumerate K B Ecut Inf spinor nplanemax = (Exhausted, st) /\
    igall st = filter (below K B Ecut) (visited nplanemax).
Proof.
  destruct (enumerate K B Ecut Inf spinor nplanemax) as [ex st] eqn:Hen.
  pose proof (enumerate_spec _ _ _ _ _ _ _ _ Hen)
    as ((N & HN & [Hig _] & Hex) & _ & Hstop).
  assert (ex = Exhausted) as ->.
  { destruct ex; auto; discriminate Hstop; discriminate. }
  exists st. split; [reflexivity|]. rewrite Hig, Hex by reflexivity.
  destruct (Z.max_spec 0 nplanemax) as [[_ ->] | [Hle ->]]; auto.
  now rewrite !visited_nonpos by lia.
Qed.

Lemma empty_search_raises (K : vec3) (B : mat3) (Ecut Ecut1 thresh : Q)
    (spinor : bool) (nplanemax : Z) :
  (forall g, L1 g < nplanemax -> ~ (etot K B g < Ecut)%Q) ->
  calc_gvectors K B Ecut Inf Ecut1 thresh spinor nplanemax
  = Raise ValueError.
Proof.
  intros Hnone. unfold calc_gvectors.
  destruct (enumerate_Inf K B Ecut spinor nplanemax) as (st & -> & Hig).
  assert (Hempty : igall st = []).
  { rewrite Hig. destruct (filter _ _) as [|g l] eqn:Hf; auto.
    assert (Hin : In g (filter (below K B Ecut) (visited nplanemax)))
      by (rewrite Hf; now left).
    apply filter_In in Hin as [Hv Hb]. apply In_visited in Hv.
    apply Qltb_lt in Hb. now apply Hnone in Hv. }
  rewrite Hempty. reflexivity.
Qed.

Lemma twomhbar2_pos : (0 < twomhbar2)%Q.
Proof. reflexivity. Qed.

Lemma norm_sq_nonneg (v : vec3) : (0 <= norm_sq v)%Q.
Proof. destruct v as [[a b] c]. unfold norm_sq, dot3. nra. Qed.

Lemma etot_nonneg (K : vec3) (B : mat3) (g : ivec3) : (0 <= etot K B g)%Q.
Proof.
  unfold etot. apply Qle_shift_div_l; [apply twomhbar2_pos|].
  rewrite Qmult_0_l. apply norm_sq_nonneg.
Qed.

(** With a cutoff that is not positive nothing is ever found. *)
Lemma nonpositive_Ecut_raises (K : vec3) (B : mat3) (Ecut Ecut1 thresh : Q)
    (spinor : bool) (nplanemax : Z) :
  (Ecut <= 0)%Q ->
  calc_gvectors K B Ecut Inf Ecut1 thresh spinor nplanemax
  = Raise ValueError.
Proof.
  intros Hle. apply empty_search_raises. intros g _ Hlt.
  pose proof (etot_nonneg K B g). lra.
Qed.

(** C10. With [nplane] infinite, if no integer triple of L1 norm below
    [nplanemax] (the radii the loop visits) has kinetic energy below [Ecut],
    [calc_gvectors] raises [ValueError] (the maximum of an empty array) and
    returns no table. *)
Theorem calc_gvectors_empty_search_raises (K : vec3) (B : mat3)
    (Ecut Ecut1 thresh : Q) (spinor : bool) (nplanemax : Z) :
  (forall g, L1 g < nplanemax -> ~ (etot K B g < Ecut)%Q) ->
  calc_gvectors K B Ecut Inf Ecut1 thresh spinor nplanemax = Raise ValueError
  /\ forall t,
       calc_gvectors K B Ecut Inf Ecut1 thresh spinor nplanemax <> Ok t.
Proof.
  intros Hnone. rewrite (empty_search_raises _ _ _ _ _ _ _ Hnone).
  split; [reflexivity | discriminate].
Qed.

Lemma calc_gvectors_empty_search_raises_witness :
  (forall g, L1 g < 3 -> ~ (etot K_gamma B_cubic g < 0)%Q) /\
  (calc_gvectors K_gamma B_cubic 0 Inf (-1) (1 # 1000) true 3
   = Raise ValueError /\
   forall t,
     calc_gvectors K_gamma B_cubic 0 Inf (-1) (1 # 1000) true 3 <> Ok t).
Proof.
  assert (H : forall g, L1 g < 3 -> ~ (etot K_gamma B_cubic g < 0)%Q).
  { intros g _ Hlt. pose proof (etot_nonneg K_gamma B_cubic g). lra. }
  split; [exact H|].
  apply (calc_gvectors_empty_search_raises K_gamma B_cubic 0 (-1)
           (1 # 1000) true 3 H).
Defined.

(** ** The plane-wave count test *)

Lemma etot_flat (g1 g2 g3 : Z) :
  (etot K_gamma B_flat (g1, g2, g3) < 40)%Q
  <-> 16 * g1 * g1 + g2 * g2 + 16 * g3 * g3 <= 10.
Proof.
  assert (He : (etot K_gamma B_flat (g1, g2, g3)
                == inject_Z (16 * g1 * g1 + g2 * g2 + 16 * g3 * g3)
                   * E_first)%Q).
  { unfold etot, norm_sq, vec_dot_mat, mat_dot_vec, transpose, vadd, to_vec,
      dot3, B_flat, K_gamma, twomhbar2, correction, E_first.
    rewrite !inject_Z_plus, !inject_Z_mult. field. }
  rewrite He. unfold Qlt, Qmult, inject_Z, E_first. simpl. lia.
Qed.

(** The count the loop compares with [nplane] is the number of vectors it
    has collected when it stops, and it stops at the first radius that
    starts with [nplane] vectors or more. On [B_flat] seven vectors lie
    below 40 eV, two on each of the radii 1, 2 and 3; with [nplane = 5] the
    loop stops before radius 3 with five of them, and a table is returned. *)
Lemma calc_gvectors_accepts_nplane_5_of_7 :
  (forall g, (etot K_gamma B_flat g < 40)%Q <-> In g seven) /\
  NoDup seven /\ length seven = 7%nat /\
  exists t,
    calc_gvectors K_gamma B_flat 40 (Finite 5) (-1) (1 # 1000) false 10000
    = Ok t.
Proof.
  split; [|split; [|split]].
  - intros [[g1 g2] g3]. rewrite etot_flat. split.
    + intros H.
      pose proof (Z.square_nonneg g1) as S1.
      pose proof (Z.square_nonneg g2) as S2.
      pose proof (Z.square_nonneg g3) as S3.
      assert (Ha : g1 * g1 <= 0) by lia.
      assert (Hc : g3 * g3 <= 0) by lia.
      assert (Hb : g2 * g2 <= 10) by lia.
      assert (g1 = 0) by nia. assert (g3 = 0) by nia.
      assert (-3 <= g2 <= 3) by nia. subst. clear S1 S2 S3 Ha Hb Hc H.
      assert (g2 = 0 \/ g2 = -1 \/ g2 = 1 \/ g2 = -2 \/ g2 = 2 \/
              g2 = -3 \/ g2 = 3) by lia.
      unfold seven. simpl. intuition (subst; auto 10).
    + unfold seven. simpl. intros H.
      repeat (destruct H as [H | H]; [inversion H; subst; lia|]).
      contradiction.
  - unfold seven.
    repeat (constructor; [simpl; intuition discriminate|]). constructor.
  - reflexivity.
  - eexists. vm_compute. reflexivity.
Qed.

(** C6 (amended). For a finite [nplane], [calc_gvectors] raises a
    [RuntimeError] exactly when the number of vectors the enumeration loop
    has collected when it stops differs from [nplane] ([spinor = False]) or
    twice that number differs from [nplane] ([spinor = True]); no table is
    returned in that case. At the Gamma point of the cubic lattice with
    [Ecut = 5], where the loop collects 7 vectors, [nplane = 5] raises the
    count-mismatch error. *)
Theorem calc_gvectors_count_check :
  (forall (K : vec3) (B : mat3) (Ecut : Q) (n : Z) (Ecut1 thresh : Q)
          (spinor : bool) (nplanemax : Z),
     let r := calc_gvectors K B Ecut (Finite n) Ecut1 thresh spinor
                nplanemax in
     let found :=
       Z.of_nat (length (igall (snd (enumerate K B Ecut (Finite n) spinor
                                       nplanemax)))) in
     let mismatch := if spinor then 2 * found <> n else found <> n in
     ((exists e, r = Raise e /\ is_RuntimeError e = true) <-> mismatch) /\
     (mismatch -> forall t, r <> Ok t)) /\
  calc_gvectors K_gamma B_cubic 5 (Finite 5) (-1) (1 # 1000) false 10000
  = Raise (CountMismatch 7 5).
Proof.
  split; [|vm_compute; reflexivity].
  intros K B Ecut n Ecut1 thresh spinor nplanemax r found mismatch.
  subst r found mismatch. unfold calc_gvectors.
  destruct (enumerate K B Ecut (Finite n) spinor nplanemax)
    as [ex st] eqn:Hen.
  pose proof (enumerate_spec _ _ _ _ _ _ _ _ Hen) as (_ & _ & Hstop).
  cbn [snd].
  set (Ec := if Qle_bool Ecut1 0 then Ecut else Ecut1).
  assert (Hrest :
    let r := _ <- check_count (Finite n) spinor (length (igall st)) ;;
             build_table (igall st) (Eg st) Ec thresh in
    let found := Z.of_nat (length (igall st)) in
    let mismatch := if spinor then 2 * found <> n else found <> n in
    ((exists e, r = Raise e /\ is_RuntimeError e = true) <-> mismatch) /\
    (mismatch -> forall t, r <> Ok t)).
  { unfold check_count.
    assert (Hb : forall e,
               build_table (igall st) (Eg st) Ec thresh = Raise e ->
               is_RuntimeError e = false).
    { intros e He. apply build_table_raises in He as [_ ->]. reflexivity. }
    destruct spinor.
    - destruct (Z.eqb_spec (2 * Z.of_nat (length (igall st))) n) as [Heq|Hne];
        cbn [bind]; split.
      + split; [|tauto]. intros (e & He & Hr). apply Hb in He. congruence.
      + tauto.
      + split; [tauto|]. intros _. eexists. split; reflexivity.
      + discriminate.
    - destruct (Z.eqb_spec (Z.of_nat (length (igall st))) n) as [Heq|Hne];
        cbn [bind]; split.
      + split; [|tauto]. intros (e & He & Hr). apply Hb in He. congruence.
      + tauto.
      + split; [tauto|]. intros _. eexists. split; reflexivity.
      + discriminate. }
  destruct ex; try exact Hrest.
  assert (Hs : check_stop (length (igall st)) (memory st) (Finite n) spinor
               = Some Stuck) by (apply Hstop; discriminate).
  apply check_stop_cases in Hs
    as (_ & [(Hc & _) | (_ & -> & Hfull)]); [discriminate|].
  unfold ge_full in Hfull. apply Z.leb_gt in Hfull. split.
  - split; [intros _; lia|]. intros _. exists StuckError. split; reflexivity.
  - discriminate.
Qed.

(** ** The rotation mapper *)

Lemma transformed_g_unfold (kpt : vec3) (ig : list entry) (RL A : mat3) :
  transformed_g kpt ig RL A
  = B <- dual A ;;
    if negb (kpoint_check B kpt) then Raise NotSymmetryError
    else rot_loop ig (combine (seq 0 (length ig))
                              (combine ig (igTr B kpt ig))).
Proof.
  unfold transformed_g, dual. now destruct (inv3 A).
Qed.

Lemma range_cons (a b : Z) : a < b -> range a b = a :: range (a + 1) b.
Proof.
  intros Hab. unfold range.
  replace (Z.to_nat (b - a)) with (S (Z.to_nat (b - (a + 1)))) by lia.
  cbn [seq map]. rewrite <- seq_shift, map_map. f_equal; [lia|].
  apply map_ext. intros k. lia.
Qed.

Lemma range_empty (a b : Z) : b <= a -> range a b = [].
Proof.
  intros Hab. unfold range. now replace (Z.to_nat (b - a)) with 0%nat by lia.
Qed.

Lemma py_index_nonneg {A : Type} (a : list A) (j : Z) (d : A) :
  0 <= j < Z.of_nat (length a) ->
  py_index a j = Ok (nth (Z.to_nat j) a d).
Proof.
  intros Hj. unfold py_index.
  destruct (Z.ltb_spec j 0) as [Hneg | _]; [lia|].
  destruct (Z.leb_spec 0 j); [|lia].
  destruct (Z.ltb_spec j (Z.of_nat (length a))); [|lia]. simpl.
  destruct (nth_error a (Z.to_nat j)) as [x|] eqn:Hn.
  - f_equal. symmetry. now apply nth_error_nth.
  - apply nth_error_None in Hn. lia.
Qed.

Lemma py_index_raise {A : Type} (a : list A) (j : Z) (e : exn) :
  py_index a j = Raise e -> e = IndexError.
Proof.
  unfold py_index.
  destruct (_ && _); [destruct (nth_error a _)|]; congruence.
Qed.

Lemma ivec3_eqb_eq (a b : ivec3) : ivec3_eqb a b = true <-> a = b.
Proof.
  destruct a as [[a1 a2] a3], b as [[b1 b2] b3]. unfold ivec3_eqb.
  rewrite !andb_true_iff, !Z.eqb_eq. split.
  - intros [[-> ->] ->]. reflexivity.
  - intros [= -> -> ->]. auto.
Qed.

Lemma find_pair_ok (ig : list entry) (target : ivec3) (js : list Z) (j : Z) :
  find_pair ig target js = Ok j ->
  j = -1 \/
  (In j js /\ exists e, py_index ig j = Ok e /\ gvec e = target).
Proof.
  induction js as [|k js IH]; simpl.
  - intros [= <-]. auto.
  - destruct (py_index ig k) as [e|ex] eqn:Hk; simpl; [|discriminate].
    destruct (ivec3_eqb target (gvec e)) eqn:Heq.
    + intros [= <-]. right. split; [now left|].
      exists e. split; [exact Hk|]. symmetry. now apply ivec3_eqb_eq.
    + intros Hf. destruct (IH Hf) as [-> | (Hin & He)]; auto.
Qed.

Lemma find_pair_raise (ig : list entry) (target : ivec3) (js : list Z)
    (ex : exn) :
  find_pair ig target js = Raise ex -> ex = IndexError.
Proof.
  induction js as [|k js IH]; simpl; [discriminate|].
  destruct (py_index ig k) as [e|ex'] eqn:Hk; simpl.
  - destruct (ivec3_eqb target (gvec e)); [discriminate | exact IH].
  - intros [= <-]. now apply py_index_raise in Hk.
Qed.

(** The search over a shell that lies inside the table: it returns the
    first position of the shell holding the target, or leaves [-1]. *)
Lemma find_pair_scan (ig : list entry) (target : ivec3) (m : nat) :
  forall s e, 0 <= s -> e <= Z.of_nat (length ig) -> Z.to_nat (e - s) = m ->
    (find_pair ig target (range s e) = Ok (-1) /\
     forall j, s <= j < e -> gvec (nth (Z.to_nat j) ig entry0) <> target) \/
    (exists j, s <= j < e /\
               gvec (nth (Z.to_nat j) ig entry0) = target /\
               (forall j', s <= j' < j ->
                           gvec (nth (Z.to_nat j') ig entry0) <> target) /\
               find_pair ig target (range s e) = Ok j).
Proof.
  induction m as [|m IH]; intros s e Hs He Hm.
  - left. rewrite range_empty by lia. split; [reflexivity | lia].
  - rewrite range_cons by lia. cbn [find_pair].
    rewrite (py_index_nonneg ig s entry0) by lia. cbn [bind].
    destruct (ivec3_eqb target (gvec (nth (Z.to_nat s) ig entry0))) eqn:Heq.
    + right. exists s. apply ivec3_eqb_eq in Heq.
      repeat split; auto; lia.
    + assert (Hne : gvec (nth (Z.to_nat s) ig entry0) <> target).
      { intros Habs. symmetry in Habs. apply ivec3_eqb_eq in Habs.
        congruence. }
      destruct (IH (s + 1) e) as [(Hf & Hall) | (j & Hj & Hg & Hfirst & Hf)];
        try lia.
      * left. split; [exact Hf|]. intros j Hj.
        destruct (Z.eq_dec j s) as [-> | Hjs]; [exact Hne|].
        apply Hall. lia.
      * right. exists j. repeat split; auto; try lia.
        intros j' Hj'. destruct (Z.eq_dec j' s) as [-> | Hjs]; [exact Hne|].
        apply Hfirst. lia.
Qed.

Lemma In_combine_seq {A : Type} (d : A) (l : list A) :
  forall s i x, In (i, x) (combine (seq s (length l)) l) ->
                (s <= i < s + length l)%nat /\ nth (i - s) l d = x.
Proof.
  induction l as [|a l IH]; simpl; intros s i x Hin; [contradiction|].
  destruct Hin as [Heq | Hin].
  - inversion Heq; subst. rewrite Nat.sub_diag. split; [lia | reflexivity].
  - apply IH in Hin as [Hi Hx]. split; [lia|].
    replace (i - s)%nat with (S (i - S s)) by lia. exact Hx.
Qed.

Lemma In_todo (ig : list entry) (trs : list ivec3) (i : nat) (e : entry)
    (tr : ivec3) :
  length trs = length ig ->
  In (i, (e, tr)) (combine (seq 0 (length ig)) (combine ig trs)) ->
  (i < length ig)%nat /\ e = nth i ig entry0 /\ tr = nth i trs (0, 0, 0).
Proof.
  intros Hlen Hin.
  assert (Hl : length (combine ig trs) = length ig)
    by (rewrite length_combine; lia).
  rewrite <- Hl in Hin at 1.
  apply (In_combine_seq (entry0, ((0, 0, 0) : ivec3))) in Hin as [Hi Hx].
  rewrite Hl in Hi.
  rewrite Nat.sub_0_r, combine_nth in Hx by (now symmetry).
  inversion Hx; subst. repeat split; auto. lia.
Qed.

Lemma todo_nth (ig : list entry) (trs : list ivec3) (k : nat) :
  length trs = length ig -> (k < length ig)%nat ->
  nth k (combine (seq 0 (length ig)) (combine ig trs))
      (0%nat, (entry0, (0, 0, 0)))
  = (k, (nth k ig entry0, nth k trs (0, 0, 0))).
Proof.
  intros Hlen Hk.
  rewrite combine_nth by (rewrite length_seq, length_combine; lia).
  rewrite seq_nth by exact Hk.
  rewrite combine_nth by (now symmetry). reflexivity.
Qed.

Lemma todo_length (ig : list entry) (trs : list ivec3) :
  length trs = length ig ->
  length (combine (seq 0 (length ig)) (combine ig trs)) = length ig.
Proof.
  intros Hlen. rewrite !length_combine, length_seq. lia.
Qed.

Lemma igTr_length (B : mat3) (kpt : vec3) (ig : list entry) :
  length (igTr B kpt ig) = length ig.
Proof. apply length_map. Qed.

Lemma rot_loop_ok (ig : list entry) (todo : list (nat * (entry * ivec3))) :
  forall js, rot_loop ig todo = Ok js -> Forall2 (is_partner ig) todo js.
Proof.
  induction todo as [|[i [e tr]] todo IH]; simpl; intros js Hrun.
  - inversion Hrun. constructor.
  - destruct (find_pair ig tr (range (shell_start e) (shell_end e)))
      as [j|ex] eqn:Hf; simpl in Hrun; [|discriminate].
    destruct (Z.eqb_spec j (-1)) as [Hj | Hj]; [discriminate|].
    destruct (rot_loop ig todo) as [js'|ex]; simpl in Hrun; [|discriminate].
    inversion Hrun; subst. constructor; [|now apply IH].
    apply find_pair_ok in Hf as [Hf | (Hin & He)]; [contradiction|].
    apply In_range in Hin. split; [exact Hj|]. split; [exact Hin | exact He].
Qed.

Lemma rot_loop_raise (ig : list entry)
    (todo : list (nat * (entry * ivec3))) (ex : exn) :
  rot_loop ig todo = Raise ex ->
  ex = IndexError \/ exists i, ex = NoPairFound i.
Proof.
  induction todo as [|[i [e tr]] todo IH]; simpl; [discriminate|].
  destruct (find_pair ig tr (range (shell_start e) (shell_end e)))
    as [j|ex'] eqn:Hf; simpl.
  - destruct (j =? -1); [intros [= <-]; eauto|].
    destruct (rot_loop ig todo) as [js'|ex'']; simpl; [discriminate|].
    intros [= <-]. now apply IH.
  - intros [= <-]. left. now apply find_pair_raise in Hf.
Qed.

(** On a table whose shell bounds are positions of the table the loop
    either finds a partner for every row or raises for a row without one. *)
Lemma rot_loop_bounded (ig : list entry)
    (todo : list (nat * (entry * ivec3))) :
  (forall x, In x todo ->
             0 <= shell_start (fst (snd x)) /\
             shell_end (fst (snd x)) <= Z.of_nat (length ig)) ->
  (exists js, rot_loop ig todo = Ok js /\
     forall x, In x todo ->
       exists j, shell_start (fst (snd x)) <= j < shell_end (fst (snd x)) /\
                 gvec (nth (Z.to_nat j) ig entry0) = snd (snd x)) \/
  (exists x, In x todo /\ rot_loop ig todo = Raise (NoPairFound (fst x)) /\
     forall j, shell_start (fst (snd x)) <= j < shell_end (fst (snd x)) ->
               gvec (nth (Z.to_nat j) ig entry0) <> snd (snd x)).
Proof.
  induction todo as [|[i [e tr]] todo IH]; intros Hb.
  - left. exists []. split; [reflexivity | contradiction].
  - cbn [rot_loop].
    destruct (Hb (i, (e, tr)) (or_introl eq_refl)) as [Hs He].
    cbn [fst snd] in Hs, He.
    destruct (find_pair_scan ig tr _ (shell_start e) (shell_end e) Hs He
                eq_refl)
      as [(Hf & Hnone) | (j & Hj & Hg & _ & Hf)]; rewrite Hf; cbn [bind].
    + right. exists (i, (e, tr)). split; [now left|]. simpl. auto.
    + destruct (Z.eqb_spec j (-1)) as [Hneg | _]; [lia|].
      destruct IH as [(js & Hrun & Hall) | (x & Hin & Hrun & Hnone)].
      * intros x Hx. apply Hb. now right.
      * left. exists (j :: js). rewrite Hrun. split; [reflexivity|].
        intros x [<- | Hx]; [|now apply Hall].
        exists j. simpl. auto.
      * right. exists x. rewrite Hrun. split; [now right|]. auto.
Qed.

Lemma Forall2_nth {A B : Type} (P : A -> B -> Prop) (l : list A)
    (l' : list B) (d : A) (d' : B) :
  Forall2 P l l' ->
  length l = length l' /\
  forall k, (k < length l)%nat -> P (nth k l d) (nth k l' d').
Proof.
  induction 1 as [|x y l l' Hxy Hall [IHlen IH]]; simpl.
  - split; [reflexivity | lia].
  - split; [now f_equal|]. intros [|k] Hk; [exact Hxy|]. apply IH. lia.
Qed.

(** ** Rounding and the k-point test on exact values *)

Lemma Qltb_comp (a b c d : Q) :
  (a == b)%Q -> (c == d)%Q -> Qltb a c = Qltb b d.
Proof.
  intros Hab Hcd. unfold Qltb. now rewrite (Qleb_comp _ _ Hcd _ _ Hab).
Qed.

Lemma np_round_comp (x y : Q) : (x == y)%Q -> np_round x = np_round y.
Proof.
  intros Hxy. unfold np_round. rewrite (Qfloor_comp _ _ Hxy).
  assert (Hr : (x - inject_Z (Qfloor y) == y - inject_Z (Qfloor y))%Q)
    by now rewrite Hxy.
  rewrite (Qltb_comp _ _ (1 # 2) (1 # 2) Hr (Qeq_refl _)).
  rewrite (Qltb_comp (1 # 2) (1 # 2) _ _ (Qeq_refl _) Hr).
  reflexivity.
Qed.

Lemma np_round_inject_Z (z : Z) : np_round (inject_Z z) = z.
Proof.
  unfold np_round. rewrite Qfloor_Z.
  assert (Hr : Qltb (inject_Z z - inject_Z z) (1 # 2) = true).
  { apply Qltb_lt. ring_simplify (inject_Z z - inject_Z z)%Q. reflexivity. }
  now rewrite Hr.
Qed.

Lemma np_round_integral (x : Q) (z : Z) :
  (x == inject_Z z)%Q -> np_round x = z.
Proof.
  intros Hx. rewrite (np_round_comp _ _ Hx). apply np_round_inject_Z.
Qed.

Lemma isclose_exact (x : Q) (z : Z) :
  (x == inject_Z z)%Q -> isclose (inject_Z z) x = true.
Proof.
  intros Hx. unfold isclose. apply Qle_bool_iff.
  assert (Hd : (inject_Z z - x == 0)%Q) by (rewrite Hx; ring).
  rewrite Hd. simpl (Qabs 0).
  pose proof (Qabs_nonneg x). unfold atol, rtol. lra.
Qed.

Lemma integral_inject (z : Z) : integral (inject_Z z).
Proof. exists z. reflexivity. Qed.

Lemma integral_plus (x y : Q) : integral x -> integral y -> integral (x + y).
Proof.
  intros [m Hm] [n Hn]. exists (m + n). now rewrite inject_Z_plus, Hm, Hn.
Qed.

Lemma integral_mult (x y : Q) : integral x -> integral y -> integral (x * y).
Proof.
  intros [m Hm] [n Hn]. exists (m * n). now rewrite inject_Z_mult, Hm, Hn.
Qed.

Lemma np_round_of_integral (x : Q) :
  integral x -> (inject_Z (np_round x) == x)%Q.
Proof.
  intros [z Hz]. now rewrite (np_round_integral x z Hz), Hz.
Qed.

(** For an integer matrix the rounding in [transform_g] is exact. *)
Lemma transform_g_exact (B : mat3) (dk g : ivec3) :
  integral_mat B ->
  veq (to_vec (transform_g B dk g))
      (vadd (mat_dot_vec B (to_vec g)) (to_vec dk)).
Proof.
  destruct B as [[[[b11 b12] b13] [[b21 b22] b23]] [[b31 b32] b33]].
  destruct dk as [[k1 k2] k3], g as [[g1 g2] g3].
  intros ((H11 & H12 & H13) & (H21 & H22 & H23) & (H31 & H32 & H33)).
  simpl in *. unfold veq. simpl.
  repeat split; apply np_round_of_integral;
    repeat (apply integral_plus || apply integral_mult
            || apply integral_inject || assumption).
Qed.

Lemma to_vec_injective (g g' : ivec3) : veq (to_vec g) (to_vec g') -> g = g'.
Proof.
  destruct g as [[g1 g2] g3], g' as [[h1 h2] h3]. unfold veq. simpl.
  rewrite !inject_Z_injective. intros (-> & -> & ->). reflexivity.
Qed.

(** [B = inv(A).T] has the left inverse [A.T]. *)
Lemma dual_injective (A B : mat3) (u v : vec3) :
  dual A = Ok B ->
  veq (mat_dot_vec B u) (mat_dot_vec B v) -> veq u v.
Proof.
  destruct A as [[[[a b] c] [[d e] f]] [[g h] i]].
  destruct u as [[u1 u2] u3], v as [[v1 v2] v3].
  unfold dual, inv3. cbv zeta.
  match goal with |- context [Qeq_bool ?x 0] => set (D := x) end.
  destruct (Qeq_bool D 0) eqn:HD; cbn [bind]; [discriminate|].
  apply Qeq_bool_neq in HD. intros [= <-].
  unfold veq, transpose, mat_dot_vec, dot3. cbn [fst snd].
  intros (H1 & H2 & H3).
  assert (E1 : ((e * i - f * h) / D * (u1 - v1)
                + (f * g - d * i) / D * (u2 - v2)
                + (d * h - e * g) / D * (u3 - v3) == 0)%Q)
    by (ring_simplify; ring_simplify in H1; lra).
  assert (E2 : ((c * h - b * i) / D * (u1 - v1)
                + (a * i - c * g) / D * (u2 - v2)
                + (b * g - a * h) / D * (u3 - v3) == 0)%Q)
    by (ring_simplify; ring_simplify in H2; lra).
  assert (E3 : ((b * f - c * e) / D * (u1 - v1)
                + (c * d - a * f) / D * (u2 - v2)
                + (a * e - b * d) / D * (u3 - v3) == 0)%Q)
    by (ring_simplify; ring_simplify in H3; lra).
  set (X1 := ((e * i - f * h) / D * (u1 - v1)
              + (f * g - d * i) / D * (u2 - v2)
              + (d * h - e * g) / D * (u3 - v3))%Q) in *.
  set (X2 := ((c * h - b * i) / D * (u1 - v1)
              + (a * i - c * g) / D * (u2 - v2)
              + (b * g - a * h) / D * (u3 - v3))%Q) in *.
  set (X3 := ((b * f - c * e) / D * (u1 - v1)
              + (c * d - a * f) / D * (u2 - v2)
              + (a * e - b * d) / D * (u3 - v3))%Q) in *.
  assert (I1 : (u1 - v1 == a * X1 + d * X2 + g * X3)%Q)
    by (unfold X1, X2, X3, D, det3; field; exact HD).
  assert (I2 : (u2 - v2 == b * X1 + e * X2 + h * X3)%Q)
    by (unfold X1, X2, X3, D, det3; field; exact HD).
  assert (I3 : (u3 - v3 == c * X1 + f * X2 + i * X3)%Q)
    by (unfold X1, X2, X3, D, det3; field; exact HD).
  rewrite E1, E2, E3 in I1, I2, I3.
  repeat split; lra.
Qed.

(** ** The identity rotation *)

Lemma dual_eye3 : dual eye3 = Ok eye3.
Proof. reflexivity. Qed.

Lemma wrap_around_eye3 (kpt : vec3) : wrap_around eye3 kpt = (0, 0, 0).
Proof.
  destruct kpt as [[k1 k2] k3]. unfold wrap_around, eye3. simpl.
  repeat f_equal; apply np_round_integral; simpl; ring.
Qed.

Lemma kpoint_check_eye3 (kpt : vec3) : kpoint_check eye3 kpt = true.
Proof.
  unfold kpoint_check. rewrite wrap_around_eye3.
  destruct kpt as [[k1 k2] k3]. unfold eye3. simpl.
  rewrite !andb_true_iff. repeat split; apply isclose_exact; simpl; ring.
Qed.

Lemma transform_g_eye3 (g : ivec3) : transform_g eye3 (0, 0, 0) g = g.
Proof.
  destruct g as [[g1 g2] g3]. unfold transform_g, eye3. simpl.
  repeat f_equal; apply np_round_integral; simpl; ring.
Qed.

Lemma igTr_eye3 (kpt : vec3) (ig : list entry) :
  igTr eye3 kpt ig = map gvec ig.
Proof.
  unfold igTr. rewrite wrap_around_eye3. apply map_ext.
  intros e. apply transform_g_eye3.
Qed.

Lemma rot_loop_identity (ig : list entry)
    (todo : list (nat * (entry * ivec3))) :
  (forall x, In x todo ->
     find_pair ig (snd (snd x))
       (range (shell_start (fst (snd x))) (shell_end (fst (snd x))))
     = Ok (Z.of_nat (fst x))) ->
  rot_loop ig todo = Ok (map (fun x => Z.of_nat (fst x)) todo).
Proof.
  induction todo as [|[i [e tr]] todo IH]; intros Hall; [reflexivity|].
  cbn [rot_loop].
  pose proof (Hall _ (or_introl eq_refl)) as Hi. cbn [fst snd] in Hi.
  rewrite Hi. cbn [bind fst snd map].
  destruct (Z.eqb_spec (Z.of_nat i) (-1)) as [Hneg | _]; [lia|].
  rewrite IH by (intros x Hx; apply Hall; now right). reflexivity.
Qed.

(** A table with distinct vectors in which every row lies inside its own
    shell is mapped to itself by the identity. *)
Lemma identity_map (kpt : vec3) (ig : list entry) (RL : mat3) :
  NoDup (map gvec ig) ->
  (forall i, (i < length ig)%nat ->
     0 <= shell_start (nth i ig entry0) <= Z.of_nat i /\
     Z.of_nat i < shell_end (nth i ig entry0) <= Z.of_nat (length ig)) ->
  transformed_g kpt ig RL eye3 = Ok (map Z.of_nat (seq 0 (length ig))).
Proof.
  intros Hnd Hshell. rewrite transformed_g_unfold, dual_eye3. cbn [bind].
  rewrite kpoint_check_eye3, igTr_eye3. cbn [negb].
  rewrite rot_loop_identity.
  - rewrite <- (map_map fst Z.of_nat), map_fst_combine; [reflexivity|].
    rewrite length_seq, length_combine, length_map. lia.
  - intros [i [e tr]] Hin. cbn [fst snd].
    apply In_todo in Hin as (Hi & -> & ->); [|apply length_map].
    destruct (Hshell i Hi) as [Hs He].
    rewrite (nth_indep _ (0, 0, 0) (gvec entry0)) by now rewrite length_map.
    rewrite map_nth.
    destruct (find_pair_scan ig (gvec (nth i ig entry0)) _
                (shell_start (nth i ig entry0)) (shell_end (nth i ig entry0))
                ltac:(lia) ltac:(lia) eq_refl)
      as [(_ & Hnone) | (j & Hj & Hg & _ & Hf)].
    + exfalso. apply (Hnone (Z.of_nat i)); [lia|].
      now rewrite Nat2Z.id.
    + rewrite Hf. f_equal.
      assert (Hij : Z.to_nat j = i).
      { apply (proj1 (NoDup_nth (map gvec ig) (gvec entry0)) Hnd);
          rewrite ?length_map; try lia.
        now rewrite !map_nth. }
      lia.
Qed.

(** C5. For every table returned by [calc_gvectors] and every k-point,
    [transformed_g] with the identity rotation returns the identity
    permutation: [rotind[i] = i] for every index [i]. *)
Theorem identity_rotation_gives_identity_permutation (K : vec3) (B : mat3)
    (Ecut : Q) (nplane : nplane_t) (Ecut1 thresh : Q) (spinor : bool)
    (nplanemax : Z) (t : list entry) (kpt : vec3) (RecLattice : mat3) :
  calc_gvectors K B Ecut nplane Ecut1 thresh spinor nplanemax = Ok t ->
  transformed_g kpt t RecLattice eye3 = Ok (map Z.of_nat (seq 0 (length t)))
  /\ forall i, (i < length t)%nat ->
       nth i (map Z.of_nat (seq 0 (length t))) (-1) = Z.of_nat i.
Proof.
  intros Hcalc.
  apply calc_gvectors_ok in Hcalc as (rows & Ht & Hnd & _ & _).
  assert (Hlen : length t = length rows)
    by (rewrite Ht; apply mark_shells_length).
  split.
  - apply identity_map.
    + rewrite Ht, mark_shells_gvec. exact Hnd.
    + intros i Hi. rewrite Hlen in Hi.
      destruct (shells_spec (energies K B rows) thresh rows i) as
        (a & b & Hab & Hb & Hs & He & _); auto.
      { unfold energies. apply length_map. }
      rewrite <- Ht in Hs, He. rewrite Hs, He, Hlen. lia.
  - intros i Hi.
    rewrite (nth_indep _ (-1) (Z.of_nat 0))
      by now rewrite length_map, length_seq.
    rewrite map_nth, seq_nth by exact Hi. reflexivity.
Qed.

Lemma identity_rotation_gives_identity_permutation_witness :
  calc_gvectors K_gamma B_cubic 5 Inf (-1) (1 # 1000) false 4 = Ok table7 /\
  (transformed_g (1 # 3, 0, 1 # 2)%Q table7 B_cubic eye3
   = Ok (map Z.of_nat (seq 0 (length table7))) /\
   forall i, (i < length table7)%nat ->
     nth i (map Z.of_nat (seq 0 (length table7))) (-1) = Z.of_nat i).
Proof.
  split; [vm_compute; reflexivity|].
  apply (identity_rotation_gives_identity_permutation K_gamma B_cubic 5 Inf
           (-1) (1 # 1000) false 4 table7 (1 # 3, 0, 1 # 2)%Q B_cubic).
  vm_compute; reflexivity.
Defined.

(** ** [transformed_g]: partners, errors, injectivity *)

Lemma kpoint_check_iff (B : mat3) (kpt : vec3) :
  kpoint_check B kpt = true
  <-> all_within_tolerance (vsub (mat_dot_vec B kpt) kpt).
Proof.
  unfold kpoint_check, wrap_around, all_within_tolerance, within_tolerance.
  destruct (vsub (mat_dot_vec B kpt) kpt) as [[x1 x2] x3]. simpl.
  unfold isclose. rewrite !andb_true_iff, !Qle_bool_iff. tauto.
Qed.

Lemma transform_g_injective (A B : mat3) (dk g g' : ivec3) :
  dual A = Ok B -> integral_mat B ->
  transform_g B dk g = transform_g B dk g' -> g = g'.
Proof.
  intros Hd Hint Heq. apply to_vec_injective.
  apply (dual_injective A B _ _ Hd).
  pose proof (transform_g_exact B dk g Hint) as H1.
  pose proof (transform_g_exact B dk g' Hint) as H2.
  rewrite Heq in H1.
  destruct (mat_dot_vec B (to_vec g)) as [[u1 u2] u3].
  destruct (mat_dot_vec B (to_vec g')) as [[v1 v2] v3].
  destruct (to_vec (transform_g B dk g')) as [[t1 t2] t3].
  destruct (to_vec dk) as [[k1 k2] k3].
  unfold veq in *. simpl in *.
  destruct H1 as (H11 & H12 & H13), H2 as (H21 & H22 & H23).
  repeat split; lra.
Qed.

Lemma igTr_NoDup (A B : mat3) (kpt : vec3) (ig : list entry) :
  dual A = Ok B -> integral_mat B -> NoDup (map gvec ig) ->
  NoDup (igTr B kpt ig).
Proof.
  intros Hd Hint Hnd. unfold igTr.
  rewrite <- (map_map gvec (transform_g B (wrap_around B kpt))).
  apply NoDup_map_injective; [|exact Hnd].
  intros g g'. now apply (transform_g_injective A B).
Qed.

Lemma rotind_NoDup (ig : list entry) (trs : list ivec3) (rotind : list Z) :
  length trs = length ig -> NoDup trs ->
  rot_loop ig (combine (seq 0 (length ig)) (combine ig trs)) = Ok rotind ->
  NoDup rotind.
Proof.
  intros Hlen Hnd Hrun. apply rot_loop_ok in Hrun.
  apply (Forall2_nth _ _ _ (0%nat, (entry0, (0, 0, 0))) (-1)) in Hrun
    as [Hl Hall].
  rewrite todo_length in Hl, Hall by exact Hlen.
  apply (NoDup_nth rotind (-1)). intros i j Hi Hj Hij.
  rewrite <- Hl in Hi, Hj.
  pose proof (Hall i Hi) as (_ & _ & ei & Hei & Hgi).
  pose proof (Hall j Hj) as (_ & _ & ej & Hej & Hgj).
  rewrite todo_nth in Hgi, Hgj by auto. cbn [fst snd] in Hgi, Hgj.
  rewrite Hij in Hei. rewrite Hei in Hej. inversion Hej; subst ej.
  apply (proj1 (NoDup_nth trs (0, 0, 0)) Hnd); try lia. congruence.
Qed.

(** [transformed_g] itself makes no test of injectivity: away from
    rotations and from the tables of [calc_gvectors] a returned array can
    repeat a position, as under the doubling [2 I] (whose dual halves every
    vector) and on a table listing the origin twice. *)
Lemma transformed_g_not_injective :
  (calc_gvectors K_gamma B_cubic 5 Inf (-1) 100 false 4 = Ok table_one_shell
   /\ exists rotind,
        transformed_g K_gamma table_one_shell B_cubic twice_eye3
        = Ok rotind /\ ~ NoDup rotind) /\
  (exists rotind,
     transformed_g K_gamma table_twins B_cubic eye3 = Ok rotind /\
     ~ NoDup rotind).
Proof.
  split; [split; [vm_compute; reflexivity|]|].
  - eexists. split; [vm_compute; reflexivity|].
    intros H. inversion H as [|? ? Hin _]; subst. apply Hin. now left.
  - eexists. split; [vm_compute; reflexivity|].
    intros H. inversion H as [|? ? Hin _]; subst. apply Hin. now left.
Qed.

(** ** [transformed_g]: the k-point test *)

Lemma not_symmetry_error_iff (kpt : vec3) (ig : list entry) (RL A : mat3) :
  transformed_g kpt ig RL A = Raise NotSymmetryError
  <-> exists B, dual A = Ok B /\ kpoint_check B kpt = false.
Proof.
  rewrite transformed_g_unfold. destruct (dual A) as [B|ex] eqn:Hd.
  - cbn [bind]. destruct (kpoint_check B kpt) eqn:Hk; cbn [negb].
    + split.
      * intros Hr. apply rot_loop_raise in Hr as [Hr | (i & Hr)];
          discriminate.
      * intros (B' & [= <-] & Hk'). congruence.
    + split; [eauto | reflexivity].
  - cbn [bind]. split.
    + intros [= ->]. unfold dual in Hd.
      destruct A as [[[[a b] c] [[d e] f]] [[g h] i]]. unfold inv3 in Hd.
      cbv zeta in Hd. destruct (Qeq_bool _ 0); discriminate.
    + intros (B & [=] & _).
Qed.

Lemma inversion_at_K_half (ig : list entry) (RL : mat3) :
  transformed_g K_half ig RL minus_eye3 <> Raise NotSymmetryError.
Proof.
  intros Hr. apply not_symmetry_error_iff in Hr as (B & Hd & Hk).
  assert (Hd' : dual minus_eye3 = Ok minus_eye3)
    by (vm_compute; reflexivity).
  rewrite Hd' in Hd. inversion Hd; subst B.
  vm_compute in Hk. discriminate.
Qed.

(** For [K = (0.5, 0, 0)] and the inversion [A = -I] the difference
    [K' - K] is the integer vector [(-1, 0, 0)]: the k-point test passes,
    whatever the lattice and the table, and with the two vectors of
    [table_pair] the rotation map is returned. *)
Lemma inversion_at_K_half_is_accepted :
  transformed_g K_half table_pair B_cubic minus_eye3 = Ok [1; 0] /\
  wrap_around minus_eye3 K_half = (-1, 0, 0) /\
  forall ig RL,
    transformed_g K_half ig RL minus_eye3 <> Raise NotSymmetryError.
Proof.
  split; [vm_compute; reflexivity|]. split; [vm_compute; reflexivity|].
  exact inversion_at_K_half.
Qed.

(** C7 (amended). [transformed_g] raises [NotSymmetryError] exactly when
    [A] is invertible and some component of [K' - K], with
    [K' = inv(A).T K], is farther from the integer it rounds to than
    [np.isclose] tolerates. For [K = (0.5, 0, 0)] and [A = -I] the
    difference is [(-1, 0, 0)] and the error is not raised, on any lattice;
    for [K = (0.25, 0, 0)] and [A = -I] it is raised. *)
Theorem not_symmetry_error_exactly_when_not_integer :
  (forall kpt ig RecLattice A,
     transformed_g kpt ig RecLattice A = Raise NotSymmetryError
     <-> exists B, dual A = Ok B /\
                   ~ all_within_tolerance (vsub (mat_dot_vec B kpt) kpt)) /\
  (forall ig RecLattice,
     transformed_g K_half ig RecLattice minus_eye3
     <> Raise NotSymmetryError) /\
  (forall ig RecLattice,
     transformed_g K_quarter ig RecLattice minus_eye3
     = Raise NotSymmetryError).
Proof.
  split; [|split].
  - intros kpt ig RL A. rewrite not_symmetry_error_iff.
    split; intros (B & Hd & Hk); exists B; (split; [exact Hd|]).
    + rewrite <- kpoint_check_iff. congruence.
    + rewrite <- kpoint_check_iff in Hk.
      now destruct (kpoint_check B kpt).
  - exact inversion_at_K_half.
  - intros ig RL. apply not_symmetry_error_iff.
    exists minus_eye3. split; vm_compute; reflexivity.
Qed.

(** ** The phase factors of the two evaluators *)

Lemma vec_dot_rows_columns (v : vec3) (K : vec3) (ig : list entry) :
  vec_dot_rows v (add_column (coords ig) K)
  = map (fun e => dot3 v (vadd (to_vec (gvec e)) K)) ig.
Proof.
  destruct v as [[v1 v2] v3], K as [[k1 k2] k3].
  unfold vec_dot_rows, add_column, coords.
  induction ig as [|e ig IH]; [reflexivity|].
  cbn [map combine]. rewrite IH. f_equal.
  destruct e as [[[g1 g2] g3] o s t]. reflexivity.
Qed.

Lemma phases_nth (v K : vec3) (ig : list entry) (i : nat) :
  (i < length ig)%nat ->
  nth i (phases (vec_dot_rows v (add_column (coords ig) K))) C0
  = phase_of v K (gvec (nth i ig entry0)).
Proof.
  intros Hi. rewrite vec_dot_rows_columns. unfold phases.
  rewrite map_map.
  rewrite (nth_indep _ C0 (phase_of v K (gvec entry0)))
    by now rewrite length_map.
  apply (map_nth (fun e => phase_of v K (gvec e))).
Qed.

Lemma phases_length (v K : vec3) (ig : list entry) :
  length (phases (vec_dot_rows v (add_column (coords ig) K))) = length ig.
Proof.
  rewrite vec_dot_rows_columns. unfold phases. now rewrite !length_map.
Qed.

(** C3. For an invertible [A], the phase factor [symm_eigenvalues] uses for
    the G-vector of row [i] is [exp(-2 pi i (inv(A) T) . (G + K))] and the
    one [symm_matrix] uses is [exp(-2 pi i (A T) . (G + K))]; both arrays
    have one entry per row, and the array of [symm_eigenvalues] for [A] is
    the array [symm_matrix] computes for [inv(A)]: the two differ in the
    matrix applied to [T] and in nothing else. *)
Theorem phase_factors_of_the_evaluators (K : vec3) (igall : list entry)
    (A Ainv : mat3) (T : vec3) :
  inv3 A = Ok Ainv ->
  exists multZ,
    multZ_eigenvalues K igall A T = Ok multZ /\
    length multZ = length igall /\
    length (multZ_matrix K igall A T) = length igall /\
    (forall i, (i < length igall)%nat ->
       nth i multZ C0
       = phase_of (mat_dot_vec Ainv T) K (gvec (nth i igall entry0)) /\
       nth i (multZ_matrix K igall A T) C0
       = phase_of (mat_dot_vec A T) K (gvec (nth i igall entry0))) /\
    multZ = multZ_matrix K igall Ainv T.
Proof.
  intros Hinv. unfold multZ_eigenvalues, multZ_matrix. rewrite Hinv.
  cbn [bind]. eexists. split; [reflexivity|].
  split; [apply phases_length|]. split; [apply phases_length|].
  split; [|reflexivity].
  intros i Hi. split; now apply phases_nth.
Qed.

Lemma phase_factors_of_the_evaluators_witness :
  inv3 rot3 = Ok rot3_inv /\
  exists multZ,
    multZ_eigenvalues K_gamma table7 rot3 T_quarter = Ok multZ /\
    length multZ = length table7 /\
    length (multZ_matrix K_gamma table7 rot3 T_quarter) = length table7 /\
    (forall i, (i < length table7)%nat ->
       nth i multZ C0
       = phase_of (mat_dot_vec rot3_inv T_quarter) K_gamma
                  (gvec (nth i table7 entry0)) /\
       nth i (multZ_matrix K_gamma table7 rot3 T_quarter) C0
       = phase_of (mat_dot_vec rot3 T_quarter) K_gamma
                  (gvec (nth i table7 entry0))) /\
    multZ = multZ_matrix K_gamma table7 rot3_inv T_quarter.
Proof.
  assert (H : inv3 rot3 = Ok rot3_inv) by (vm_compute; reflexivity).
  split; [exact H|].
  exact (phase_factors_of_the_evaluators K_gamma table7 rot3 rot3_inv
           T_quarter H).
Defined.

(** ** The two evaluators on one band *)

Lemma Cmul_0_l (z : C) : Cmul C0 z = C0.
Proof. unfold Cmul, C0. simpl. f_equal; ring. Qed.

Lemma Cmul_0_r (z : C) : Cmul z C0 = C0.
Proof. unfold Cmul, C0. simpl. f_equal; ring. Qed.

Lemma Cconj_0 : Cconj C0 = C0.
Proof. unfold Cconj, C0. simpl. f_equal. ring. Qed.

Lemma Cadd_0_l (z : C) : Cadd C0 z = z.
Proof. destruct z. unfold Cadd, C0. simpl. f_equal; ring. Qed.

Lemma Cadd_0_r (z : C) : Cadd z C0 = z.
Proof. destruct z. unfold Cadd, C0. simpl. f_equal; ring. Qed.

(** Removes the terms of a sum that carry a zero coefficient. *)
Ltac drop_zero_terms :=
  repeat (rewrite Cconj_0 || rewrite Cmul_0_l || rewrite Cmul_0_r
          || rewrite Cadd_0_l || rewrite Cadd_0_r).

Lemma cexp_at_zero (th : Q) :
  (th == 0)%Q -> cexp_neg_i (2 * PI * Q2R th)%R = C1.
Proof.
  intros Hth. rewrite (Qreals.Qeq_eqR _ _ Hth), RMicromega.Q2R_0.
  unfold cexp_neg_i, C1. rewrite Rmult_0_r, cos_0, sin_0. f_equal. ring.
Qed.

Lemma cexp_at_quarter (th : Q) :
  (th == 1 # 4)%Q -> cexp_neg_i (2 * PI * Q2R th)%R = (0, -1)%R.
Proof.
  intros Hth. rewrite (Qreals.Qeq_eqR _ _ Hth).
  replace (2 * PI * Q2R (1 # 4))%R with (PI / 2)%R
    by (unfold Q2R; simpl; field).
  unfold cexp_neg_i. now rewrite cos_PI2, sin_PI2.
Qed.

Lemma rot3_on_table7 :
  transformed_g K_gamma table7 B_cubic rot3 = Ok [0; 4; 3; 5; 6; 2; 1].
Proof. vm_compute. reflexivity. Qed.

Lemma band_rotated :
  take_z band [0; 4; 3; 5; 6; 2; 1]
  = Ok [C0; (3 / 5, 0)%R; C0; C0; (4 / 5, 0)%R; C0; C0].
Proof. reflexivity. Qed.

Lemma band_normalised : cdot (arr_conj band) band = C1.
Proof.
  unfold cdot, csum, arr_mul, arr_conj, band.
  cbn [map combine fold_left fst snd].
  drop_zero_terms.
  unfold Cadd, Cmul, Cconj, C1. simpl. f_equal; field.
Qed.

Lemma trace_on_band :
  symm_eigenvalues K_gamma B_cubic [band] table7 rot3 eye2 T_quarter false
  = Ok [(12 / 25, 0)%R].
Proof.
  unfold symm_eigenvalues, multZ_eigenvalues.
  replace (inv3 rot3) with (Ok rot3_inv) by (vm_compute; reflexivity).
  cbn [bind]. rewrite rot3_on_table7, vec_dot_rows_columns. cbn [bind].
  replace (check_width false (length table7) [band]) with (Ok tt)
    by reflexivity.
  cbn [bind mapM band_trace]. rewrite band_rotated. cbn [bind].
  unfold phases, table7. cbn [map gvec].
  unfold cdot, csum, arr_mul, arr_conj, band.
  cbn [map combine fold_left fst snd].
  drop_zero_terms.
  rewrite cexp_at_zero by (vm_compute; reflexivity).
  unfold Cmul, Cconj, C1. simpl. do 3 f_equal; field.
Qed.

Lemma matrix_on_band :
  symm_matrix K_gamma B_cubic [band] table7 rot3 eye2 T_quarter false
  = Ok [[(0, - (12 / 25))%R]].
Proof.
  unfold symm_matrix, multZ_matrix.
  rewrite rot3_on_table7, vec_dot_rows_columns. cbn [bind].
  replace (check_width false (length table7) [band]) with (Ok tt)
    by reflexivity.
  cbn [bind mapM band_pair]. rewrite band_rotated. cbn [bind].
  unfold phases, table7. cbn [map gvec].
  unfold csum, arr_mul, arr_conj, band.
  cbn [map combine fold_left fst snd].
  drop_zero_terms.
  rewrite cexp_at_quarter by (vm_compute; reflexivity).
  unfold Cmul, Cconj. simpl. do 4 f_equal; field.
Qed.

(** C4 on a concrete input: the table of the Gamma point on the cubic
    lattice, the threefold rotation [rot3] (accepted by [transformed_g])
    with the translation [(1/4, 0, 0)], and one normalised band. The trace
    evaluator weights row 4 with [exp(-2 pi i (inv(A) T) . G) = 1], the
    matrix evaluator with [exp(-2 pi i (A T) . G) = -i]: the trace is
    [12/25] and the diagonal of the matrix is [-12/25 i]. *)
Theorem trace_is_not_the_matrix_diagonal :
  calc_gvectors K_gamma B_cubic 5 Inf (-1) (1 # 1000) false 4 = Ok table7 /\
  transformed_g K_gamma table7 B_cubic rot3 = Ok [0; 4; 3; 5; 6; 2; 1] /\
  cdot (arr_conj band) band = C1 /\
  symm_eigenvalues K_gamma B_cubic [band] table7 rot3 eye2 T_quarter false
  = Ok [(12 / 25, 0)%R] /\
  symm_matrix K_gamma B_cubic [band] table7 rot3 eye2 T_quarter false
  = Ok [[(0, - (12 / 25))%R]] /\
  diagonal [[(0, - (12 / 25))%R]] <> [(12 / 25, 0)%R].
Proof.
  split; [vm_compute; reflexivity|]. split; [exact rot3_on_table7|].
  split; [exact band_normalised|]. split; [exact trace_on_band|].
  split; [exact matrix_on_band|].
  unfold diagonal. simpl. intros [= H _]. lra.
Qed.

(** ** Where the two evaluators agree *)

Lemma mapM_nth {A B : Type} (f : A -> result B) (d : A) (d' : B)
    (l : list A) :
  forall r, mapM f l = Ok r ->
            length r = length l /\
            forall i, (i < length l)%nat -> f (nth i l d) = Ok (nth i r d').
Proof.
  induction l as [|a l IH]; simpl; intros r Hr.
  - inversion Hr. split; [reflexivity | intros i Hi; lia].
  - destruct (f a) as [y|ex] eqn:Hfa; simpl in Hr; [|discriminate].
    destruct (mapM f l) as [ys|ex]; simpl in Hr; [|discriminate].
    inversion Hr; subst. destruct (IH ys eq_refl) as [Hlen Hall].
    split; [simpl; now f_equal|].
    intros [|i] Hi; [exact Hfa|]. apply Hall. lia.
Qed.

Lemma mapM_of_nth {A B : Type} (g : A -> result B) (d : A) (l : list A) :
  forall h : nat -> B,
    (forall i, (i < length l)%nat -> g (nth i l d) = Ok (h i)) ->
    mapM g l = Ok (map h (seq 0 (length l))).
Proof.
  induction l as [|a l IH]; intros h Hall; [reflexivity|].
  cbn [mapM length seq map].
  pose proof (Hall 0%nat ltac:(simpl; lia)) as H0. cbn [nth] in H0.
  rewrite H0. cbn [bind].
  rewrite (IH (fun i => h (S i))).
  - cbn [bind]. now rewrite <- seq_shift, map_map.
  - intros i Hi. apply (Hall (S i)). simpl. lia.
Qed.

Lemma mapM_diagonal (f : list C -> list C -> result C)
    (WF : list (list C)) (M : list (list C)) :
  mapM (fun wm => mapM (f wm) WF) WF = Ok M ->
  mapM (fun w => f w w) WF = Ok (diagonal M).
Proof.
  intros HM.
  destruct (mapM_nth _ [] [] _ _ HM) as [Hlen Hrows].
  unfold diagonal. rewrite Hlen. apply (mapM_of_nth _ []).
  intros i Hi. specialize (Hrows i Hi).
  destruct (mapM_nth _ [] C0 _ _ Hrows) as [_ Hcols]. now apply Hcols.
Qed.

Lemma mapM_ext {A B : Type} (f g : A -> result B) (l : list A) :
  (forall x, f x = g x) -> mapM f l = mapM g l.
Proof.
  intros Hfg. induction l as [|a l IH]; simpl; [reflexivity|].
  now rewrite Hfg, IH.
Qed.

Lemma Cmul_spinor_terms (x y z u m s00 s01 s10 s11 : C) :
  Cmul (Cadd (Cmul x s00)
             (Cadd (Cadd (Cmul y s11) (Cmul z s01)) (Cmul u s10))) m
  = Cadd (Cadd (Cmul (Cmul x m) s00) (Cmul (Cmul z m) s01))
         (Cadd (Cmul (Cmul u m) s10) (Cmul (Cmul y m) s11)).
Proof. unfold Cmul, Cadd. simpl. f_equal; ring. Qed.

(** The spinor sum of [symm_eigenvalues], term by term, is the [einsum]
    contraction of [symm_matrix] for one band against itself. *)
Lemma spinor_terms (a b up dn mz : list C) (s00 s01 s10 s11 : C) :
  arr_mul
    (arr_add (arr_scale (arr_mul a up) s00)
             (arr_add (arr_add (arr_scale (arr_mul b dn) s11)
                               (arr_scale (arr_mul a dn) s01))
                      (arr_scale (arr_mul b up) s10)))
    mz
  = arr_add
      (arr_add (arr_scale (arr_mul (arr_mul a up) mz) s00)
               (arr_scale (arr_mul (arr_mul a dn) mz) s01))
      (arr_add (arr_scale (arr_mul (arr_mul b up) mz) s10)
               (arr_scale (arr_mul (arr_mul b dn) mz) s11)).
Proof.
  unfold arr_mul, arr_add, arr_scale.
  revert b up dn mz. induction a as [|x a IH]; intros b up dn mz.
  - reflexivity.
  - destruct b as [|y b], up as [|p up], dn as [|q dn], mz as [|m mz];
      try reflexivity.
    cbn [combine map fst snd]. rewrite IH. f_equal.
    apply Cmul_spinor_terms.
Qed.

Lemma band_trace_is_band_pair (spinor : bool) (S : smat) (npw1 : nat)
    (igrot : list Z) (multZ : list C) (w : list C) :
  band_trace spinor S npw1 igrot multZ w
  = band_pair spinor S npw1 igrot multZ w w.
Proof.
  unfold band_trace, band_pair. destruct spinor; [|reflexivity].
  destruct (take_z w igrot) as [ur|ex]; [|reflexivity]. cbn [bind].
  destruct (take_z w _) as [dr|ex]; [|reflexivity]. cbn [bind].
  unfold cdot. now rewrite spinor_terms.
Qed.

(** Whenever the two evaluators are given the same phase factors, the
    traces are the diagonal of the matrix. *)
Lemma trace_is_diagonal_for_equal_phases (K : vec3) (RL : mat3)
    (WF : list (list C)) (igall : list entry) (A : mat3) (S : smat)
    (T : vec3) (spinor : bool) (M : list (list C)) :
  multZ_eigenvalues K igall A T = Ok (multZ_matrix K igall A T) ->
  symm_matrix K RL WF igall A S T spinor = Ok M ->
  symm_eigenvalues K RL WF igall A S T spinor = Ok (diagonal M).
Proof.
  intros Hz. unfold symm_matrix, symm_eigenvalues. rewrite Hz. cbn [bind].
  destruct (transformed_g K igall RL A) as [igrot|ex]; [|discriminate].
  cbn [bind].
  destruct (check_width spinor (length igall) WF); [|discriminate].
  cbn [bind]. intros HM. apply mapM_diagonal in HM.
  rewrite <- HM. apply mapM_ext. intros w. apply band_trace_is_band_pair.
Qed.

Lemma phases_ext {A : Type} (f g : A -> Q) (l : list A) :
  (forall x, (f x == g x)%Q) -> phases (map f l) = phases (map g l).
Proof.
  intros Hfg. induction l as [|a l IH]; simpl; [reflexivity|].
  now rewrite (Qreals.Qeq_eqR _ _ (Hfg a)), IH.
Qed.

Lemma dot3_zero_translation (M N : mat3) (x : vec3) :
  (dot3 (mat_dot_vec M (0, 0, 0)%Q) x
   == dot3 (mat_dot_vec N (0, 0, 0)%Q) x)%Q.
Proof.
  destruct M as [[[[a b] c] [[d e] f]] [[g h] i]].
  destruct N as [[[[a' b'] c'] [[d' e'] f']] [[g' h'] i']].
  destruct x as [[x1 x2] x3]. simpl. ring.
Qed.

(** Without a translation the two phase arrays coincide, and the traces
    are the diagonal of the matrix. *)
Lemma trace_is_diagonal_without_translation (K : vec3) (RL : mat3)
    (WF : list (list C)) (igall : list entry) (A : mat3) (S : smat)
    (spinor : bool) (M : list (list C)) :
  symm_matrix K RL WF igall A S (0, 0, 0)%Q spinor = Ok M ->
  symm_eigenvalues K RL WF igall A S (0, 0, 0)%Q spinor = Ok (diagonal M).
Proof.
  intros HM. apply trace_is_diagonal_for_equal_phases; [|exact HM].
  unfold symm_matrix in HM.
  destruct (transformed_g K igall RL A) as [igrot|ex] eqn:Hg;
    [|discriminate].
  rewrite transformed_g_unfold in Hg.
  destruct (dual A) as [B|ex] eqn:Hd; [|discriminate].
  unfold dual in Hd. unfold multZ_eigenvalues, multZ_matrix.
  destruct (inv3 A) as [Ainv|ex]; [|discriminate]. cbn [bind].
  f_equal. rewrite !vec_dot_rows_columns. apply phases_ext.
  intros e. apply dot3_zero_translation.
Qed.

(* ================================================================== *)
(** * Further properties of [calc_gvectors] *)

(** ** What a returned table was built from *)

Lemma calc_gvectors_found (K : vec3) (B : mat3) (Ecut : Q)
    (nplane : nplane_t) (Ecut1 thresh : Q) (spinor : bool) (nplanemax : Z)
    (t : list entry) :
  calc_gvectors K B Ecut nplane Ecut1 thresh spinor nplanemax = Ok t ->
  exists ex st N,
    enumerate K B Ecut nplane spinor nplanemax = (ex, st) /\
    0 <= N <= Z.max 0 nplanemax /\
    (ex = Exhausted -> N = Z.max 0 nplanemax) /\
    igall st = filter (below K B Ecut) (visited N) /\
    build_table (igall st) (map (etot K B) (igall st))
      (effective_Ecut1 Ecut Ecut1) thresh = Ok t.
Proof.
  unfold calc_gvectors. fold (effective_Ecut1 Ecut Ecut1).
  destruct (enumerate K B Ecut nplane spinor nplanemax) as [ex st] eqn:Hen.
  pose proof (enumerate_spec _ _ _ _ _ _ _ _ Hen)
    as ((N & HN & [Hig Heg] & Hex) & _ & _).
  intros Hcalc. exists ex, st, N. repeat split; auto; try lia.
  rewrite <- Heg.
  destruct ex; try discriminate;
    destruct (check_count nplane spinor (length (igall st)));
    try discriminate; exact Hcalc.
Qed.

Lemma In_visited_max (nplanemax : Z) (g : ivec3) :
  In g (visited (Z.max 0 nplanemax)) <-> L1 g < nplanemax.
Proof.
  rewrite In_visited. pose proof (L1_nonneg g). lia.
Qed.

(** X1. The G-vectors of a returned table are pairwise distinct, and they
    are exactly the integer triples of L1 norm below the radius [N] at which
    the loop stopped whose energy is below [Ecut] and at most the effective
    [Ecut1]; with [nplane] infinite, [N] is [nplanemax]. *)
Theorem table_holds_each_vector_once (K : vec3) (B : mat3) (Ecut : Q)
    (nplane : nplane_t) (Ecut1 thresh : Q) (spinor : bool) (nplanemax : Z)
    (t : list entry) :
  calc_gvectors K B Ecut nplane Ecut1 thresh spinor nplanemax = Ok t ->
  exists N,
    0 <= N <= Z.max 0 nplanemax /\
    (nplane = Inf -> N = Z.max 0 nplanemax) /\
    NoDup (map gvec t) /\
    forall g, In g (map gvec t) <->
              L1 g < N /\ (etot K B g < Ecut)%Q /\
              (etot K B g <= effective_Ecut1 Ecut Ecut1)%Q.
Proof.
  intros Hcalc.
  destruct (calc_gvectors_found _ _ _ _ _ _ _ _ _ Hcalc)
    as (ex & st & N & Hen & HN & Hex & Hig & Hb).
  apply build_table_spec in Hb as (rows & Ht & Hperm & _).
  assert (Hg : map gvec t = map gvec rows)
    by (rewrite Ht; apply mark_shells_gvec).
  exists N. split; [exact HN|]. split; [|split].
  - intros ->. apply Hex.
    destruct (enumerate_Inf K B Ecut spinor nplanemax) as (st' & Hen' & _).
    congruence.
  - rewrite Hg. apply (Permutation_NoDup (Permutation_sym Hperm)).
    apply NoDup_filter. rewrite Hig. apply NoDup_filter, NoDup_visited.
  - intros g. rewrite Hg. split.
    + intros Hin. apply (Permutation_in _ Hperm) in Hin.
      apply filter_In in Hin as [Hin Hle]. rewrite Hig in Hin.
      apply filter_In in Hin as [Hv Hlt].
      apply In_visited in Hv. apply Qltb_lt in Hlt.
      apply Qle_bool_iff in Hle. auto.
    + intros (Hv & Hlt & Hle).
      apply (Permutation_in _ (Permutation_sym Hperm)).
      apply filter_In. split; [|now apply Qle_bool_iff].
      rewrite Hig. apply filter_In. split; [now apply In_visited|].
      now apply Qltb_lt.
Qed.

Lemma table_holds_each_vector_once_witness :
  calc_gvectors K_gamma B_cubic 5 Inf (-1) (1 # 1000) false 4 = Ok table7 /\
  exists N,
    0 <= N <= Z.max 0 4 /\
    (Inf = Inf -> N = Z.max 0 4) /\
    NoDup (map gvec table7) /\
    forall g, In g (map gvec table7) <->
              L1 g < N /\ (etot K_gamma B_cubic g < 5)%Q /\
              (etot K_gamma B_cubic g <= effective_Ecut1 5 (-1))%Q.
Proof.
  split; [vm_compute; reflexivity|].
  apply (table_holds_each_vector_once K_gamma B_cubic 5 Inf (-1) (1 # 1000)
           false 4 table7).
  vm_compute; reflexivity.
Defined.

Lemma unbounded_search_ok (K : vec3) (B : mat3) (Ecut Ecut1 thresh : Q)
    (spinor : bool) (nplanemax : Z) (g0 : ivec3) :
  L1 g0 < nplanemax -> (etot K B g0 < Ecut)%Q ->
  exists t,
    calc_gvectors K B Ecut Inf Ecut1 thresh spinor nplanemax = Ok t.
Proof.
  intros HL HE. unfold calc_gvectors.
  destruct (enumerate_Inf K B Ecut spinor nplanemax) as (st & -> & Hig).
  cbn [check_count bind].
  destruct (build_table (igall st) (Eg st) _ thresh) as [t|e] eqn:Hb;
    [eauto|].
  apply build_table_raises in Hb as [Hempty _]. exfalso.
  assert (Hin : In g0 (igall st)).
  { rewrite Hig. apply filter_In. split; [now apply In_visited|].
    now apply Qltb_lt. }
  rewrite Hempty in Hin. contradiction.
Qed.

Lemma unbounded_table_members (K : vec3) (B : mat3) (Ecut Ecut1 thresh : Q)
    (spinor : bool) (nplanemax : Z) (t : list entry) (g : ivec3) :
  calc_gvectors K B Ecut Inf Ecut1 thresh spinor nplanemax = Ok t ->
  In g (map gvec t) <->
  L1 g < nplanemax /\ (etot K B g < Ecut)%Q /\
  (etot K B g <= effective_Ecut1 Ecut Ecut1)%Q.
Proof.
  intros Hcalc.
  destruct (calc_gvectors_found _ _ _ _ _ _ _ _ _ Hcalc)
    as (ex & st & N & Hen & HN & Hex & Hig & Hb).
  destruct (enumerate_Inf K B Ecut spinor nplanemax) as (st' & Hen' & _).
  assert (ex = Exhausted) as -> by congruence.
  rewrite (Hex eq_refl) in Hig.
  apply build_table_spec in Hb as (rows & Ht & Hperm & _).
  assert (Hg : map gvec t = map gvec rows)
    by (rewrite Ht; apply mark_shells_gvec).
  rewrite Hg. split.
  - intros Hin. apply (Permutation_in _ Hperm) in Hin.
    apply filter_In in Hin as [Hin Hle]. rewrite Hig in Hin.
    apply filter_In in Hin as [Hv Hlt].
    apply In_visited_max in Hv. apply Qltb_lt in Hlt.
    apply Qle_bool_iff in Hle. auto.
  - intros (Hv & Hlt & Hle).
    apply (Permutation_in _ (Permutation_sym Hperm)).
    apply filter_In. split; [|now apply Qle_bool_iff].
    rewrite Hig. apply filter_In.
    split; [now apply In_visited_max | now apply Qltb_lt].
Qed.

(** X2. With [nplane] infinite, [calc_gvectors] returns a table as soon as
    one integer triple of L1 norm below [nplanemax] has energy below [Ecut];
    the table is empty exactly when none of these triples has energy at
    most the effective [Ecut1]. *)
Theorem unbounded_search_returns_a_table (K : vec3) (B : mat3)
    (Ecut Ecut1 thresh : Q) (spinor : bool) (nplanemax : Z) (g0 : ivec3) :
  L1 g0 < nplanemax -> (etot K B g0 < Ecut)%Q ->
  exists t,
    calc_gvectors K B Ecut Inf Ecut1 thresh spinor nplanemax = Ok t /\
    (t = [] <->
     forall g, L1 g < nplanemax -> (etot K B g < Ecut)%Q ->
               ~ (etot K B g <= effective_Ecut1 Ecut Ecut1)%Q).
Proof.
  intros HL HE.
  destruct (unbounded_search_ok K B Ecut Ecut1 thresh spinor nplanemax g0
              HL HE) as (t & Hcalc).
  exists t. split; [exact Hcalc|].
  pose proof (fun g => unbounded_table_members _ _ _ _ _ _ _ _ g Hcalc)
    as Hmem.
  split.
  - intros -> g Hv Hlt Hle.
    apply (proj2 (Hmem g)). auto.
  - intros Hnone. destruct t as [|e t']; [reflexivity|]. exfalso.
    destruct (proj1 (Hmem (gvec e)) (or_introl eq_refl))
      as (Hv & Hlt & Hle).
    exact (Hnone _ Hv Hlt Hle).
Qed.

Lemma unbounded_search_returns_a_table_witness :
  L1 (1, 0, 0) < 4 /\ (etot K_gamma B_cubic (1, 0, 0)%Z < 5)%Q /\
  exists t,
    calc_gvectors K_gamma B_cubic 5 Inf (1 # 2) (1 # 1000) false 4 = Ok t /\
    (t = [] <->
     forall g, L1 g < 4 -> (etot K_gamma B_cubic g < 5)%Q ->
               ~ (etot K_gamma B_cubic g <= effective_Ecut1 5 (1 # 2))%Q).
Proof.
  assert (HL : L1 (1, 0, 0) < 4) by (vm_compute; reflexivity).
  assert (HE : (etot K_gamma B_cubic (1, 0, 0)%Z < 5)%Q)
    by (vm_compute; reflexivity).
  split; [exact HL|]. split; [exact HE|].
  exact (unbounded_search_returns_a_table K_gamma B_cubic 5 (1 # 2)
           (1 # 1000) false 4 (1, 0, 0)%Z HL HE).
Defined.

(** ** Column 4: the canonical order *)

Lemma mark_shells_vector_and_index (w : list nat) (t : list entry) :
  map vector_and_index (mark_shells w t) = map vector_and_index t.
Proof.
  apply (nth_ext _ _ (vector_and_index entry0) (vector_and_index entry0)).
  - now rewrite !length_map, mark_shells_length.
  - intros p Hp. rewrite length_map, mark_shells_length in Hp.
    rewrite !map_nth, mark_shells_pairs.
    destruct (fold_set_shell_nth (combine w (tl w)) t p Hp)
      as (Hg & Ho & _).
    unfold vector_and_index. now rewrite Hg, Ho.
Qed.

Lemma combine_map_r {A B C : Type} (f : B -> C) (l : list A) (l' : list B) :
  combine l (map f l') = map (fun p => (fst p, f (snd p))) (combine l l').
Proof.
  revert l'. induction l as [|a l IH]; intros [|b l']; simpl; auto.
  now rewrite IH.
Qed.

(** The rows of a built table, seen as (vector, canonical position): they
    are the pairs of a canonical arrangement [canon] of the collected
    vectors that pass the [Ecut1] test; [canon] is sorted by [order_key]. *)
Lemma build_table_order (K : vec3) (B : mat3) (ig : list ivec3)
    (Ecut1 thresh : Q) (t : list entry) :
  build_table ig (map (etot K B) ig) Ecut1 thresh = Ok t ->
  exists ng canon,
    span ig = Ok ng /\ Permutation canon ig /\
    StronglySorted (fun a b => (a <=? b) = true)
                   (map (order_key ng) canon) /\
    Permutation (map vector_and_index t)
      (filter (fun p => Qle_bool (etot K B (fst p)) Ecut1)
              (combine canon (map Z.of_nat (seq 0 (length ig))))).
Proof.
  unfold build_table. destruct (span ig) as [ng|e]; [|discriminate].
  cbn [bind]. intros [= <-].
  set (f := fun e : entry => etot K B (gvec e)).
  set (q := fun x : Q => Qle_bool x Ecut1).
  set (idx := argsort Z.leb (map (order_key ng) ig)).
  assert (Hidx : Permutation idx (seq 0 (length ig))).
  { unfold idx. rewrite <- (length_map (order_key ng) ig).
    apply argsort_Permutation. }
  set (igall1 := take (0, 0, 0) ig idx).
  assert (Hig1 : Permutation igall1 ig) by now apply take_Permutation.
  assert (Hlen1 : length igall1 = length ig)
    by now apply Permutation_length.
  assert (Hsorted : StronglySorted (fun a b => (a <=? b) = true)
                      (map (order_key ng) igall1)).
  { unfold igall1.
    rewrite <- (take_map (order_key ng) (0, 0, 0) 0)
      by now apply Permutation_seq_bound.
    unfold idx. apply take_argsort_sorted; intros; lia. }
  set (rows := map (fun gi : ivec3 * nat =>
                      mk_entry (fst gi) (Z.of_nat (snd gi)) 0 0)
                   (combine igall1 (seq 0 (length ig)))).
  assert (Hrows : map gvec rows = igall1).
  { unfold rows. rewrite map_map. simpl.
    apply map_fst_combine. now rewrite length_seq. }
  assert (Hpairs : map vector_and_index rows
                   = combine igall1 (map Z.of_nat (seq 0 (length ig)))).
  { unfold rows. rewrite map_map, combine_map_r. reflexivity. }
  assert (HEg1 : take 0%Q (map (etot K B) ig) idx = map f rows).
  { rewrite (take_map _ (0, 0, 0)).
    - fold igall1. rewrite <- Hrows, map_map. reflexivity.
    - now apply Permutation_seq_bound. }
  rewrite HEg1.
  set (mask := map q (map f rows)).
  set (rows2 := mask_select mask rows).
  assert (HEg2 : mask_select mask (map f rows) = map f rows2).
  { unfold rows2, mask. apply (mask_select_map2 f q). }
  rewrite HEg2.
  set (srt := argsort Qle_bool (map f rows2)).
  assert (Hsrt : Permutation srt (seq 0 (length rows2))).
  { unfold srt. rewrite <- (length_map f rows2).
    apply argsort_Permutation. }
  exists ng, igall1. split; [reflexivity|]. split; [exact Hig1|].
  split; [exact Hsorted|].
  rewrite mark_shells_vector_and_index.
  rewrite (Permutation_map vector_and_index
             (take_Permutation entry0 rows2 srt Hsrt)).
  unfold rows2, mask. rewrite map_map, mask_select_map.
  match goal with
  | |- Permutation ?a ?b => assert (Heq : a = b); [|now rewrite Heq]
  end.
  transitivity
    (filter (fun p => Qle_bool (etot K B (fst p)) Ecut1)
            (map vector_and_index rows)).
  - symmetry. apply filter_map_swap.
  - f_equal. exact Hpairs.
Qed.

Lemma In_combine_indices {A : Type} (d : A) (l : list A) (x : A) (z : Z) :
  In (x, z) (combine l (map Z.of_nat (seq 0 (length l)))) ->
  exists i, (i < length l)%nat /\ z = Z.of_nat i /\ nth i l d = x.
Proof.
  rewrite combine_map_r, in_map_iff. intros ([y i] & Heq & Hin).
  simpl in Heq. inversion Heq; subst.
  assert (Hgen : forall (l : list A) s,
             In (x, i) (combine l (seq s (length l))) ->
             (s <= i < s + length l)%nat /\ nth (i - s) l d = x).
  { clear. induction l as [|a l IH]; simpl; intros s Hin; [contradiction|].
    destruct Hin as [Heq | Hin].
    - inversion Heq; subst. rewrite Nat.sub_diag. split; [lia | reflexivity].
    - apply IH in Hin as [Hi Hx]. split; [lia|].
      replace (i - s)%nat with (S (i - S s)) by lia. exact Hx. }
  apply Hgen in Hin as [Hi Hx]. rewrite Nat.sub_0_r in Hx.
  exists i. repeat split; auto. lia.
Qed.

Lemma NoDup_snd_combine_indices {A : Type} (l : list A) :
  NoDup (map snd (combine l (map Z.of_nat (seq 0 (length l))))).
Proof.
  rewrite map_snd_combine by now rewrite length_map, length_seq.
  apply NoDup_map_injective; [intros x y; lia | apply seq_NoDup].
Qed.

Lemma NoDup_map_filter {A B : Type} (keep : A -> bool) (key : A -> B) :
  forall rows, NoDup (map key rows) -> NoDup (map key (filter keep rows)).
Proof.
  intros rows. induction rows as [|a l IH]; simpl; intros Hnd;
    [constructor|].
  inversion Hnd as [|? ? Hna Hnd']; subst.
  destruct (keep a); simpl; [|now apply IH].
  constructor; [|now apply IH].
  intros Hin. apply Hna. apply in_map_iff in Hin as (x & Hx & Hin).
  apply filter_In in Hin as [Hin _]. apply in_map_iff. eauto.
Qed.

(** X3. Column 4 of a returned table numbers the rows in the canonical
    order: its values are pairwise distinct, lie in [0, ncnt) for the number
    [ncnt] of vectors the loop collected, and a row with a smaller value
    never has a larger sort key [(g3 % ng3 * ng2 + g2 % ng2) * ng1
    + g1 % ng1]. *)
Theorem order_index_is_the_canonical_rank (K : vec3) (B : mat3) (Ecut : Q)
    (nplane : nplane_t) (Ecut1 thresh : Q) (spinor : bool) (nplanemax : Z)
    (t : list entry) :
  calc_gvectors K B Ecut nplane Ecut1 thresh spinor nplanemax = Ok t ->
  let found := found_vectors K B Ecut nplane spinor nplanemax in
  NoDup (map order_index t) /\
  (forall e, In e t -> 0 <= order_index e < Z.of_nat (length found)) /\
  exists ng,
    span found = Ok ng /\
    forall e e', In e t -> In e' t -> order_index e < order_index e' ->
                 order_key ng (gvec e) <= order_key ng (gvec e').
Proof.
  intros Hcalc found.
  destruct (calc_gvectors_found _ _ _ _ _ _ _ _ _ Hcalc)
    as (ex & st & N & Hen & _ & _ & _ & Hb).
  assert (Hfound : found = igall st)
    by (unfold found, found_vectors; now rewrite Hen).
  rewrite Hfound. clear Hfound found.
  apply build_table_order in Hb as (ng & canon & Hspan & Hcanon & Hsort & Hp).
  assert (Hlen : length canon = length (igall st))
    by now apply Permutation_length.
  rewrite <- Hlen in Hp.
  set (pairs := combine canon (map Z.of_nat (seq 0 (length canon)))) in *.
  assert (Hin : forall e, In e t ->
             exists i, (i < length canon)%nat /\
                       order_index e = Z.of_nat i /\
                       nth i canon (0, 0, 0) = gvec e).
  { intros e He.
    assert (Hpe : In (vector_and_index e) (map vector_and_index t))
      by now apply in_map.
    apply (Permutation_in _ Hp) in Hpe. apply filter_In in Hpe as [Hpe _].
    now apply (In_combine_indices (0, 0, 0)) in Hpe. }
  split; [|split].
  - assert (Hmap : map order_index t = map snd (map vector_and_index t))
      by (rewrite map_map; reflexivity).
    rewrite Hmap.
    apply (Permutation_NoDup
             (Permutation_sym (Permutation_map snd Hp))).
    apply NoDup_map_filter, NoDup_snd_combine_indices.
  - intros e He. destruct (Hin e He) as (i & Hi & -> & _). lia.
  - exists ng. split; [exact Hspan|].
    intros e e' He He' Hlt.
    destruct (Hin e He) as (i & Hi & Hoi & Hgi).
    destruct (Hin e' He') as (j & Hj & Hoj & Hgj).
    rewrite <- Hgi, <- Hgj.
    assert (Hij : (i < j)%nat) by lia.
    pose proof (StronglySorted_nth _ 0 _ Hsort i j Hij) as Hs.
    rewrite length_map in Hs. specialize (Hs Hj).
    rewrite (nth_indep _ 0 (order_key ng (0, 0, 0))) in Hs
      by (rewrite length_map; lia).
    rewrite (nth_indep _ 0 (order_key ng (0, 0, 0)) (n := j)) in Hs
      by (rewrite length_map; lia).
    rewrite !map_nth in Hs. lia.
Qed.

Lemma order_index_is_the_canonical_rank_witness :
  calc_gvectors K_gamma B_cubic 5 Inf (-1) (1 # 1000) false 4 = Ok table7 /\
  let found := found_vectors K_gamma B_cubic 5 Inf false 4 in
  NoDup (map order_index table7) /\
  (forall e, In e table7 -> 0 <= order_index e < Z.of_nat (length found)) /\
  exists ng,
    span found = Ok ng /\
    forall e e', In e table7 -> In e' table7 ->
                 order_index e < order_index e' ->
                 order_key ng (gvec e) <= order_key ng (gvec e').
Proof.
  split; [vm_compute; reflexivity|].
  apply (order_index_is_the_canonical_rank K_gamma B_cubic 5 Inf (-1)
           (1 # 1000) false 4 table7).
  vm_compute; reflexivity.
Defined.

(** ** Shells of a returned table *)

(** The facts about energies and shell bounds that the properties of this
    section start from. *)
Lemma table_shells (K : vec3) (B : mat3) (Ecut : Q) (nplane : nplane_t)
    (Ecut1 thresh : Q) (spinor : bool) (nplanemax : Z) (t : list entry) :
  calc_gvectors K B Ecut nplane Ecut1 thresh spinor nplanemax = Ok t ->
  (forall i j, (i <= j < length t)%nat ->
               (energy_at K B t i <= energy_at K B t j)%Q) /\
  (forall p, (p < length t)%nat ->
     exists a b,
       (a <= p < b)%nat /\ (b <= length t)%nat /\
       (forall j, (a <= j < b)%nat ->
                  shell_start (nth j t entry0) = Z.of_nat a /\
                  shell_end (nth j t entry0) = Z.of_nat b) /\
       ((b < length t)%nat ->
        (thresh < energy_at K B t b - energy_at K B t (b - 1))%Q)).
Proof.
  intros Hcalc.
  apply calc_gvectors_ok in Hcalc as (rows & Ht & _ & _ & Hsorted).
  assert (Hlen : length t = length rows)
    by (rewrite Ht; apply mark_shells_length).
  assert (HE : energies K B t = energies K B rows)
    by (rewrite Ht; apply energies_mark_shells).
  assert (Hnth : forall i, (i < length t)%nat ->
                           nth i (energies K B rows) 0%Q = energy_at K B t i).
  { intros i Hi. rewrite <- HE. now apply energies_nth. }
  split.
  - intros i j Hij. destruct (Nat.eq_dec i j) as [-> | Hne].
    + apply Qle_refl.
    + rewrite <- !Hnth by lia. apply Qle_bool_iff.
      apply (StronglySorted_nth _ 0%Q _ Hsorted); [lia|].
      unfold energies. rewrite length_map. lia.
  - intros p Hp. rewrite Hlen in Hp.
    destruct (shells_spec (energies K B rows) thresh rows p) as
      (a & b & Hab & Hb & _ & _ & Hshared & _ & Hout); auto.
    { unfold energies. apply length_map. }
    rewrite <- Ht in Hshared.
    exists a, b. rewrite Hlen. repeat split; try tauto; try lia.
    + now apply Hshared.
    + now apply Hshared.
    + intros Hlt. specialize (Hout Hlt).
      unfold gap_after in Hout. apply Qltb_lt in Hout.
      replace (S (b - 1)) with b in Hout by lia.
      rewrite !Hnth in Hout by lia. exact Hout.
Qed.

(** X4. The shells of a returned table tile it: every row has
    [0 <= shell_start < shell_end <= n], the shell of the first row starts
    at 0, the shell of the last row ends at [n], and the row at a shell's
    end (when there is one) starts the next shell. *)
Theorem shells_tile_the_table (K : vec3) (B : mat3) (Ecut : Q)
    (nplane : nplane_t) (Ecut1 thresh : Q) (spinor : bool) (nplanemax : Z)
    (t : list entry) :
  calc_gvectors K B Ecut nplane Ecut1 thresh spinor nplanemax = Ok t ->
  let n := length t in
  (forall i, (i < n)%nat ->
     0 <= shell_start (nth i t entry0) < shell_end (nth i t entry0) /\
     shell_end (nth i t entry0) <= Z.of_nat n) /\
  ((0 < n)%nat ->
   shell_start (nth 0 t entry0) = 0 /\
   shell_end (nth (n - 1) t entry0) = Z.of_nat n) /\
  (forall i, (i < n)%nat -> shell_end (nth i t entry0) < Z.of_nat n ->
     shell_start (nth (Z.to_nat (shell_end (nth i t entry0))) t entry0)
     = shell_end (nth i t entry0)).
Proof.
  intros Hcalc n. apply table_shells in Hcalc as [_ Hsh]. fold n in Hsh.
  assert (Hown : forall p, (p < n)%nat ->
            exists a b, (a <= p < b)%nat /\ (b <= n)%nat /\
              shell_start (nth p t entry0) = Z.of_nat a /\
              shell_end (nth p t entry0) = Z.of_nat b /\
              (forall j, (a <= j < b)%nat ->
                 shell_start (nth j t entry0) = Z.of_nat a /\
                 shell_end (nth j t entry0) = Z.of_nat b)).
  { intros p Hp. destruct (Hsh p Hp) as (a & b & Hab & Hb & Hshared & _).
    exists a, b. destruct (Hshared p Hab). auto. }
  split; [|split].
  - intros i Hi. destruct (Hown i Hi) as (a & b & Hab & Hb & -> & -> & _).
    lia.
  - intros Hn. split.
    + destruct (Hown 0%nat Hn) as (a & b & Hab & _ & -> & _). lia.
    + destruct (Hown (n - 1)%nat ltac:(lia))
        as (a & b & Hab & Hb & _ & -> & _). lia.
  - intros i Hi Hend.
    destruct (Hown i Hi) as (a & b & Hab & Hb & _ & He & Hshared).
    rewrite He in *. rewrite Nat2Z.id.
    destruct (Hown b ltac:(lia)) as (c & d & Hcd & _ & Hs' & _ & Hshared').
    rewrite Hs'. f_equal.
    destruct (Nat.eq_dec c b) as [-> | Hne]; [reflexivity|].
    exfalso.
    destruct (Hshared (b - 1)%nat ltac:(lia)) as [_ H1].
    destruct (Hshared' (b - 1)%nat ltac:(lia)) as [_ H2].
    lia.
Qed.

Lemma shells_tile_the_table_witness :
  calc_gvectors K_gamma B_cubic 5 Inf (-1) (1 # 1000) false 4 = Ok table7 /\
  let n := length table7 in
  (forall i, (i < n)%nat ->
     0 <= shell_start (nth i table7 entry0)
       < shell_end (nth i table7 entry0) /\
     shell_end (nth i table7 entry0) <= Z.of_nat n) /\
  ((0 < n)%nat ->
   shell_start (nth 0 table7 entry0) = 0 /\
   shell_end (nth (n - 1) table7 entry0) = Z.of_nat n) /\
  (forall i, (i < n)%nat -> shell_end (nth i table7 entry0) < Z.of_nat n ->
     shell_start
       (nth (Z.to_nat (shell_end (nth i table7 entry0))) table7 entry0)
     = shell_end (nth i table7 entry0)).
Proof.
  split; [vm_compute; reflexivity|].
  apply (shells_tile_the_table K_gamma B_cubic 5 Inf (-1) (1 # 1000) false 4
           table7).
  vm_compute; reflexivity.
Defined.

(** X5. In a returned table two rows whose energies differ by at most
    [thresh] carry the same shell bounds; in particular rows of equal
    energy are never separated when [thresh] is not negative. *)
Theorem close_energies_share_a_shell (K : vec3) (B : mat3) (Ecut : Q)
    (nplane : nplane_t) (Ecut1 thresh : Q) (spinor : bool) (nplanemax : Z)
    (t : list entry) (i j : nat) :
  calc_gvectors K B Ecut nplane Ecut1 thresh spinor nplanemax = Ok t ->
  (i <= j < length t)%nat ->
  (energy_at K B t j - energy_at K B t i <= thresh)%Q ->
  shell_start (nth i t entry0) = shell_start (nth j t entry0) /\
  shell_end (nth i t entry0) = shell_end (nth j t entry0).
Proof.
  intros Hcalc Hij Hclose.
  apply table_shells in Hcalc as [Hsorted Hsh].
  destruct (Hsh i ltac:(lia)) as (a & b & Hab & Hb & Hshared & Hout).
  destruct (Nat.lt_ge_cases j b) as [Hjb | Hbj].
  - destruct (Hshared i Hab) as [-> ->].
    destruct (Hshared j ltac:(lia)) as [-> ->]. auto.
  - exfalso. specialize (Hout ltac:(lia)).
    pose proof (Hsorted i (b - 1)%nat ltac:(lia)) as H1.
    pose proof (Hsorted b j ltac:(lia)) as H2.
    lra.
Qed.

Lemma close_energies_share_a_shell_witness :
  calc_gvectors K_gamma B_cubic 5 Inf (-1) (1 # 1000) false 4 = Ok table7 /\
  (1 <= 6 < length table7)%nat /\
  (energy_at K_gamma B_cubic table7 6 - energy_at K_gamma B_cubic table7 1
   <= 1 # 1000)%Q /\
  shell_start (nth 1 table7 entry0) = shell_start (nth 6 table7 entry0) /\
  shell_end (nth 1 table7 entry0) = shell_end (nth 6 table7 entry0).
Proof.
  assert (H1 : calc_gvectors K_gamma B_cubic 5 Inf (-1) (1 # 1000) false 4
               = Ok table7) by (vm_compute; reflexivity).
  assert (H2 : (1 <= 6 < length table7)%nat) by (simpl; lia).
  assert (H3 : (energy_at K_gamma B_cubic table7 6
                - energy_at K_gamma B_cubic table7 1 <= 1 # 1000)%Q)
    by (vm_compute; discriminate).
  split; [exact H1|]. split; [exact H2|]. split; [exact H3|].
  exact (close_energies_share_a_shell K_gamma B_cubic 5 Inf (-1) (1 # 1000)
           false 4 table7 1 6 H1 H2 H3).
Defined.

(** ** The Gamma point *)

Lemma etot_gamma_origin (B : mat3) : (etot K_gamma B (0, 0, 0)%Z == 0)%Q.
Proof.
  destruct B as [[[[a b] c] [[d e] f]] [[g h] i]].
  unfold etot, norm_sq, vec_dot_mat, mat_dot_vec, transpose, vadd, to_vec,
    dot3, K_gamma, twomhbar2, correction. simpl. field.
Qed.

Lemma effective_Ecut1_pos (Ecut Ecut1 : Q) :
  (0 < Ecut)%Q -> (0 < effective_Ecut1 Ecut Ecut1)%Q.
Proof.
  intros HE. unfold effective_Ecut1.
  destruct (Qle_bool Ecut1 0) eqn:Hle; [exact HE|].
  apply Qnot_le_lt. intros H. apply Qle_bool_iff in H. congruence.
Qed.

Lemma square_sum_zero (a b c : Q) :
  (a * a + b * b + c * c == 0)%Q -> (a == 0 /\ b == 0 /\ c == 0)%Q.
Proof.
  intros H.
  assert (Ha : (a * a == 0)%Q) by nra.
  assert (Hb : (b * b == 0)%Q) by nra.
  assert (Hc : (c * c == 0)%Q) by nra.
  apply Qmult_integral in Ha, Hb, Hc. tauto.
Qed.

(** A matrix with a non-zero determinant sends no non-zero vector to 0. *)
Lemma mat_dot_vec_kernel (M : mat3) (u : vec3) :
  ~ (det3 M == 0)%Q ->
  veq (mat_dot_vec M u) (0, 0, 0)%Q -> veq u (0, 0, 0)%Q.
Proof.
  destruct M as [[[[a b] c] [[d e] f]] [[g h] i]].
  destruct u as [[u1 u2] u3].
  unfold veq, mat_dot_vec, dot3, det3. cbn [fst snd].
  set (D := (a * (e * i - f * h) - b * (d * i - f * g)
             + c * (d * h - e * g))%Q).
  intros HD (H1 & H2 & H3).
  set (X1 := (a * u1 + b * u2 + c * u3)%Q) in *.
  set (X2 := (d * u1 + e * u2 + f * u3)%Q) in *.
  set (X3 := (g * u1 + h * u2 + i * u3)%Q) in *.
  assert (I1 : (D * u1 == (e * i - f * h) * X1 + (c * h - b * i) * X2
                          + (b * f - c * e) * X3)%Q)
    by (unfold D, X1, X2, X3; ring).
  assert (I2 : (D * u2 == (f * g - d * i) * X1 + (a * i - c * g) * X2
                          + (c * d - a * f) * X3)%Q)
    by (unfold D, X1, X2, X3; ring).
  assert (I3 : (D * u3 == (d * h - e * g) * X1 + (b * g - a * h) * X2
                          + (a * e - b * d) * X3)%Q)
    by (unfold D, X1, X2, X3; ring).
  rewrite H1, H2, H3 in I1, I2, I3.
  assert (Z1 : (D * u1 == 0)%Q) by (rewrite I1; ring).
  assert (Z2 : (D * u2 == 0)%Q) by (rewrite I2; ring).
  assert (Z3 : (D * u3 == 0)%Q) by (rewrite I3; ring).
  apply Qmult_integral in Z1, Z2, Z3. tauto.
Qed.

Lemma det3_transpose (M : mat3) : (det3 (transpose M) == det3 M)%Q.
Proof.
  destruct M as [[[[a b] c] [[d e] f]] [[g h] i]]. simpl. ring.
Qed.

(** On a lattice with linearly independent vectors only [G = 0] has zero
    energy at the Gamma point. *)
Lemma etot_gamma_zero (B : mat3) (g : ivec3) :
  ~ (det3 B == 0)%Q -> (etot K_gamma B g == 0)%Q -> g = (0, 0, 0).
Proof.
  intros HD HE.
  assert (Hn : (norm_sq (vec_dot_mat (vadd K_gamma (to_vec g)) B) == 0)%Q).
  { assert (Hc : ~ (twomhbar2 == 0)%Q)
      by (intros H; pose proof twomhbar2_pos; lra).
    assert (Heq : (norm_sq (vec_dot_mat (vadd K_gamma (to_vec g)) B)
                   == etot K_gamma B g * twomhbar2)%Q)
      by (unfold etot; field; exact Hc).
    rewrite Heq, HE. ring. }
  unfold vec_dot_mat in Hn.
  assert (Hk : veq (vadd K_gamma (to_vec g)) (0, 0, 0)%Q).
  { apply (mat_dot_vec_kernel (transpose B)).
    - now rewrite det3_transpose.
    - destruct (mat_dot_vec (transpose B) (vadd K_gamma (to_vec g)))
        as [[x y] z].
      unfold norm_sq, dot3 in Hn. apply square_sum_zero in Hn.
      unfold veq. simpl. tauto. }
  apply to_vec_injective. destruct g as [[g1 g2] g3].
  unfold veq, vadd, K_gamma, to_vec in *. simpl in *.
  destruct Hk as (H1 & H2 & H3). clear HD HE Hn.
  change (inject_Z 0) with 0%Q. repeat split; lra.
Qed.

(** X6. At the Gamma point with a positive [Ecut], [nplane] infinite and
    at least one radius, [calc_gvectors] returns a non-empty table whose
    first row has energy 0; when the reciprocal lattice vectors are
    linearly independent that row is [G = (0, 0, 0)]. *)
Theorem gamma_table_starts_at_the_origin (B : mat3) (Ecut Ecut1 thresh : Q)
    (spinor : bool) (nplanemax : Z) :
  (0 < Ecut)%Q -> 1 <= nplanemax ->
  exists t,
    calc_gvectors K_gamma B Ecut Inf Ecut1 thresh spinor nplanemax = Ok t /\
    (0 < length t)%nat /\
    (energy_at K_gamma B t 0 == 0)%Q /\
    (~ (det3 B == 0)%Q -> gvec (nth 0 t entry0) = (0, 0, 0)).
Proof.
  intros HE Hmax.
  assert (H0 : (etot K_gamma B (0, 0, 0)%Z < Ecut)%Q)
    by (rewrite etot_gamma_origin; exact HE).
  assert (HL : L1 (0, 0, 0) < nplanemax)
    by (change (L1 (0, 0, 0)) with 0; lia).
  destruct (unbounded_search_ok K_gamma B Ecut Ecut1 thresh spinor nplanemax
              (0, 0, 0) HL H0) as (t & Hcalc).
  exists t. split; [exact Hcalc|].
  assert (Hin : In (0, 0, 0) (map gvec t)).
  { apply (unbounded_table_members _ _ _ _ _ _ _ _ _ Hcalc).
    split; [exact HL|]. split; [exact H0|].
    rewrite etot_gamma_origin. apply Qlt_le_weak.
    now apply effective_Ecut1_pos. }
  apply (In_nth _ _ (gvec entry0)) in Hin as (p & Hp & Hgp).
  rewrite length_map in Hp. rewrite map_nth in Hgp.
  assert (Hzero : (energy_at K_gamma B t 0 == 0)%Q).
  { apply table_shells in Hcalc as [Hsorted _].
    pose proof (Hsorted 0%nat p ltac:(lia)) as Hle.
    unfold energy_at in Hle at 2. rewrite Hgp, etot_gamma_origin in Hle.
    pose proof (etot_nonneg K_gamma B (gvec (nth 0 t entry0))) as Hge.
    unfold energy_at in *. lra. }
  split; [lia|]. split; [exact Hzero|].
  intros HD. now apply (etot_gamma_zero B).
Qed.

Lemma gamma_table_starts_at_the_origin_witness :
  (0 < 5)%Q /\ 1 <= 4 /\
  exists t,
    calc_gvectors K_gamma B_cubic 5 Inf (-1) (1 # 1000) false 4 = Ok t /\
    (0 < length t)%nat /\
    (energy_at K_gamma B_cubic t 0 == 0)%Q /\
    (~ (det3 B_cubic == 0)%Q -> gvec (nth 0 t entry0) = (0, 0, 0)).
Proof.
  assert (H1 : (0 < 5)%Q) by reflexivity.
  assert (H2 : 1 <= 4) by lia.
  split; [exact H1|]. split; [exact H2|].
  exact (gamma_table_starts_at_the_origin B_cubic 5 (-1) (1 # 1000) false 4
           H1 H2).
Defined.

(** ** The "stuck" error *)

Lemma memory_at_start (K : vec3) (B : mat3) (Ecut : Q) :
  memory_at K B Ecut 0 = repeat true 10.
Proof. reflexivity. Qed.

Lemma memory_at_succ (K : vec3) (B : mat3) (Ecut : Q) (N : Z) :
  0 <= N ->
  tl (memory_at K B Ecut N) ++ [empty_radius K B Ecut N]
  = memory_at K B Ecut (N + 1).
Proof.
  intros HN. unfold memory_at. cbn [seq map tl app].
  repeat match goal with
         | |- context [Z.of_nat ?k] =>
             let v := eval vm_compute in (Z.of_nat k) in
             change (Z.of_nat k) with v
         end.
  replace (N + 1 - 10 + 9) with N by lia.
  replace (N + 1 - 10 + 0) with (N - 10 + 1) by lia.
  replace (N + 1 - 10 + 1) with (N - 10 + 2) by lia.
  replace (N + 1 - 10 + 2) with (N - 10 + 3) by lia.
  replace (N + 1 - 10 + 3) with (N - 10 + 4) by lia.
  replace (N + 1 - 10 + 4) with (N - 10 + 5) by lia.
  replace (N + 1 - 10 + 5) with (N - 10 + 6) by lia.
  replace (N + 1 - 10 + 6) with (N - 10 + 7) by lia.
  replace (N + 1 - 10 + 7) with (N - 10 + 8) by lia.
  replace (N + 1 - 10 + 8) with (N - 10 + 9) by lia.
  destruct (Z.ltb_spec N 0) as [Hneg | _]; [lia | reflexivity].
Qed.

Lemma enum_loop_memory (K : vec3) (B : mat3) (Ecut : Q) (nplane : nplane_t)
    (spinor : bool) (fuel : nat) :
  forall N st ex st',
    0 <= N -> enum_inv K B Ecut N st -> memory st = memory_at K B Ecut N ->
    enum_loop K B Ecut nplane spinor fuel N st = (ex, st') ->
    exists N', N <= N' <= N + Z.of_nat fuel /\
               enum_inv K B Ecut N' st' /\
               memory st' = memory_at K B Ecut N' /\
               (ex <> Exhausted ->
                N' < N + Z.of_nat fuel /\
                check_stop (length (igall st')) (memory st') nplane spinor
                = Some ex).
Proof.
  induction fuel as [|fuel IH]; intros N st ex st' HN Hinv Hmem Hrun;
    simpl in Hrun.
  - inversion Hrun; subst. exists N.
    split; [lia|]. split; [assumption|]. split; [assumption|].
    intros Hne. now contradiction Hne.
  - destruct (check_stop (length (igall st)) (memory st) nplane spinor)
      as [ex0|] eqn:Hstop.
    + inversion Hrun; subst. exists N.
      split; [lia|]. split; [assumption|]. split; [assumption|].
      intros _. split; [lia | assumption].
    + rewrite visit_fold in Hrun. simpl in Hrun.
      apply IH in Hrun; [| lia | |].
      * destruct Hrun as (N' & HN' & Hinv' & Hmem' & Hex).
        exists N'.
        split; [lia|]. split; [assumption|]. split; [assumption|].
        intros Hne. destruct (Hex Hne) as [Hlt Hs].
        split; [lia | assumption].
      * destruct Hinv as [Hig Heg]. unfold enum_inv. simpl. split.
        -- rewrite visited_succ by exact HN. now rewrite filter_app, Hig.
        -- now rewrite map_app, Heg.
      * simpl. rewrite Hmem. now apply memory_at_succ.
Qed.

Lemma memory_all_true (K : vec3) (B : mat3) (Ecut : Q) (N : Z) (g : ivec3) :
  forallb (fun b => b) (memory_at K B Ecut N) = true ->
  N - 10 <= L1 g < N -> ~ (etot K B g < Ecut)%Q.
Proof.
  intros Hall Hg Hlt. rewrite forallb_forall in Hall.
  pose proof (L1_nonneg g) as Hnn.
  assert (Hin : In (empty_radius K B Ecut (L1 g)) (memory_at K B Ecut N)).
  { unfold memory_at. apply in_map_iff.
    exists (Z.to_nat (L1 g - (N - 10))). split.
    - replace (N - 10 + Z.of_nat (Z.to_nat (L1 g - (N - 10)))) with (L1 g)
        by lia.
      destruct (Z.ltb_spec (L1 g) 0); [lia | reflexivity].
    - apply in_seq. lia. }
  apply Hall in Hin. unfold empty_radius in Hin.
  apply negb_true_iff in Hin.
  assert (Hex : existsb (below K B Ecut) (shell (L1 g)) = true).
  { apply existsb_exists. exists g. split; [now apply In_shell|].
    now apply Qltb_lt. }
  congruence.
Qed.

(** X7. [calc_gvectors] raises the "stuck" error only with
    [spinor = False] and a finite [nplane], at the start of a radius
    [N >= 11] (below [nplanemax]) at which the number of vectors collected
    is at least [nplane / 2] and below [nplane], and after ten radii in a
    row, [N - 10 .. N - 1], without any triple below [Ecut]. *)
Theorem stuck_error_means_ten_empty_radii (K : vec3) (B : mat3) (Ecut : Q)
    (nplane : nplane_t) (Ecut1 thresh : Q) (spinor : bool) (nplanemax : Z) :
  calc_gvectors K B Ecut nplane Ecut1 thresh spinor nplanemax
  = Raise StuckError ->
  spinor = false /\
  exists n N,
    nplane = Finite n /\ 11 <= N < nplanemax /\
    let found := Z.of_nat (length (filter (below K B Ecut) (visited N))) in
    n <= 2 * found /\ found < n /\
    forall g, N - 10 <= L1 g < N -> ~ (etot K B g < Ecut)%Q.
Proof.
  unfold calc_gvectors, enumerate.
  destruct (enum_loop K B Ecut nplane spinor (Z.to_nat nplanemax) 0
              init_state) as [ex st] eqn:Hrun.
  intros Hraise.
  assert (ex = Stuck) as ->.
  { destruct ex; auto;
      destruct (check_count_cases nplane spinor (length (igall st)))
        as [Hc | (c & n & Hc)]; rewrite Hc in Hraise; cbn [bind] in Hraise;
      try discriminate;
      apply build_table_raises in Hraise as [_ Habs]; discriminate. }
  apply enum_loop_memory in Hrun; [|lia| |reflexivity].
  2:{ unfold enum_inv. simpl. auto. }
  destruct Hrun as (N & HN & [Hig _] & Hmem & Hex).
  destruct (Hex ltac:(discriminate)) as [HNlt Hstop].
  apply check_stop_cases in Hstop
    as (Hhalf & [(Hc & _) | (_ & Hsp & Hfull)]); [discriminate|].
  split; [exact Hsp|].
  destruct nplane as [n|]; [|discriminate].
  unfold ge_half in Hhalf. unfold ge_full in Hfull.
  apply Z.leb_le in Hhalf. apply Z.leb_gt in Hfull.
  assert (Hmemtrue : forallb (fun b => b) (memory_at K B Ecut N) = true).
  { rewrite <- Hmem.
    destruct (Hex ltac:(discriminate)) as [_ Hs]. unfold check_stop in Hs.
    rewrite Hsp in Hs.
    destruct (ge_half _ _); [|discriminate].
    destruct (ge_full _ _); [discriminate|].
    destruct (forallb _ (memory st)); [reflexivity | discriminate]. }
  assert (Hgap : forall g, N - 10 <= L1 g < N -> ~ (etot K B g < Ecut)%Q)
    by (intros g; now apply memory_all_true).
  rewrite Hig in Hhalf, Hfull.
  exists n, N. split; [reflexivity|]. split; [|auto].
  split; [|lia].
  destruct (filter (below K B Ecut) (visited N)) as [|g l] eqn:Hf;
    [simpl in *; lia|].
  assert (Hin : In g (filter (below K B Ecut) (visited N)))
    by (rewrite Hf; now left).
  apply filter_In in Hin as [Hv Hb]. apply In_visited in Hv.
  apply Qltb_lt in Hb. pose proof (L1_nonneg g).
  destruct (Z_lt_ge_dec (L1 g) (N - 10)) as [Hlt | Hge]; [lia|].
  exfalso. apply (Hgap g); [lia | exact Hb].
Qed.

Lemma stuck_error_means_ten_empty_radii_witness :
  calc_gvectors K_gamma B_needle 3 (Finite 5) (-1) (1 # 1000) false 10000
  = Raise StuckError /\
  false = false /\
  exists n N,
    Finite 5 = Finite n /\ 11 <= N < 10000 /\
    let found :=
      Z.of_nat (length (filter (below K_gamma B_needle 3) (visited N))) in
    n <= 2 * found /\ found < n /\
    forall g, N - 10 <= L1 g < N -> ~ (etot K_gamma B_needle g < 3)%Q.
Proof.
  assert (H : calc_gvectors K_gamma B_needle 3 (Finite 5) (-1) (1 # 1000)
                false 10000 = Raise StuckError) by (vm_compute; reflexivity).
  split; [exact H|].
  exact (stuck_error_means_ten_empty_radii K_gamma B_needle 3 (Finite 5)
           (-1) (1 # 1000) false 10000 H).
Defined.

(* ================================================================== *)
(** * Further properties of [transformed_g] and of the evaluators *)

(** ** Tables of [calc_gvectors] under [transformed_g] *)

Lemma table_members (K : vec3) (B : mat3) (Ecut : Q) (nplane : nplane_t)
    (Ecut1 thresh : Q) (spinor : bool) (nplanemax : Z) (t : list entry) :
  calc_gvectors K B Ecut nplane Ecut1 thresh spinor nplanemax = Ok t ->
  exists N,
    NoDup (map gvec t) /\
    forall g, In g (map gvec t) <->
              L1 g < N /\ (etot K B g < Ecut)%Q /\
              (etot K B g <= effective_Ecut1 Ecut Ecut1)%Q.
Proof.
  intros Hcalc.
  destruct (calc_gvectors_found _ _ _ _ _ _ _ _ _ Hcalc)
    as (ex & st & N & Hen & HN & Hex & Hig & Hb).
  apply build_table_spec in Hb as (rows & Ht & Hperm & _).
  assert (Hg : map gvec t = map gvec rows)
    by (rewrite Ht; apply mark_shells_gvec).
  exists N. rewrite Hg. split.
  - apply (Permutation_NoDup (Permutation_sym Hperm)).
    apply NoDup_filter. rewrite Hig. apply NoDup_filter, NoDup_visited.
  - intros g. split.
    + intros Hin. apply (Permutation_in _ Hperm) in Hin.
      apply filter_In in Hin as [Hin Hle]. rewrite Hig in Hin.
      apply filter_In in Hin as [Hv Hlt].
      apply In_visited in Hv. apply Qltb_lt in Hlt.
      apply Qle_bool_iff in Hle. auto.
    + intros (Hv & Hlt & Hle).
      apply (Permutation_in _ (Permutation_sym Hperm)).
      apply filter_In. split; [|now apply Qle_bool_iff].
      rewrite Hig. apply filter_In. split; [now apply In_visited|].
      now apply Qltb_lt.
Qed.

Lemma table_bounds (K : vec3) (B : mat3) (Ecut : Q) (nplane : nplane_t)
    (Ecut1 thresh : Q) (spinor : bool) (nplanemax : Z) (t : list entry) :
  calc_gvectors K B Ecut nplane Ecut1 thresh spinor nplanemax = Ok t ->
  bounds_in_table t.
Proof.
  intros Hcalc e Hin. apply table_shells in Hcalc as [_ Hsh].
  apply (In_nth _ _ entry0) in Hin as (p & Hp & <-).
  destruct (Hsh p Hp) as (a & b & Hab & Hb & Hshared & _).
  destruct (Hshared p Hab) as [-> ->]. lia.
Qed.

(** Rows of equal energy lie in each other's shell when [thresh] is not
    negative. *)
Lemma equal_energy_in_shell (K : vec3) (B : mat3) (Ecut : Q)
    (nplane : nplane_t) (Ecut1 thresh : Q) (spinor : bool) (nplanemax : Z)
    (t : list entry) (i p : nat) :
  calc_gvectors K B Ecut nplane Ecut1 thresh spinor nplanemax = Ok t ->
  (0 <= thresh)%Q -> (i < length t)%nat -> (p < length t)%nat ->
  (energy_at K B t i == energy_at K B t p)%Q ->
  shell_start (nth i t entry0) <= Z.of_nat p < shell_end (nth i t entry0).
Proof.
  intros Hcalc Hth Hi Hp HE.
  apply table_shells in Hcalc as [Hsorted Hsh].
  destruct (Hsh i Hi) as (a & b & Hab & Hb & Hshared & Hout).
  destruct (Hshared i Hab) as [Hs He]. rewrite Hs, He.
  assert (Hpb : (p < b)%nat).
  { destruct (Nat.lt_ge_cases p b) as [Hlt | Hge]; [exact Hlt|]. exfalso.
    specialize (Hout ltac:(lia)).
    pose proof (Hsorted i (b - 1)%nat ltac:(lia)) as H1.
    pose proof (Hsorted b p ltac:(lia)) as H2. lra. }
  assert (Hap : (a <= p)%nat).
  { destruct (Nat.le_gt_cases a p) as [Hle | Hgt]; [exact Hle|]. exfalso.
    destruct (Hsh p Hp) as (c & d & Hcd & Hd & Hshared' & Hout').
    destruct (Nat.lt_ge_cases i d) as [Hid | Hdi].
    - destruct (Hshared' i ltac:(lia)) as [Hs' _]. lia.
    - specialize (Hout' ltac:(lia)).
      pose proof (Hsorted p (d - 1)%nat ltac:(lia)) as H1.
      pose proof (Hsorted d i ltac:(lia)) as H2. lra. }
  lia.
Qed.

(** ** The rotation map on the tables of [calc_gvectors] *)

(** C2. For every table returned by [calc_gvectors] and every rotation [A]
    (invertible, with [inv(A).T] a matrix of integers) that passes the
    k-point check: a returned [rotind] has the length of the table,
    [rotind[i]] is a position inside row [i]'s own shell whose vector is
    the rounded image of G-vector [i] (never the initial [-1]), and
    [rotind] is injective on the indices of the table. If some row has no
    such position in its shell, [transformed_g] raises the "no pair found"
    [RuntimeError] for a row without one; if every row has one, the array
    is returned. *)
Theorem transformed_g_partner_or_raise (K : vec3) (L : mat3) (Ecut : Q)
    (nplane : nplane_t) (Ecut1 thresh : Q) (spinor : bool) (nplanemax : Z)
    (t : list entry) (kpt : vec3) (RecLattice A B : mat3) :
  calc_gvectors K L Ecut nplane Ecut1 thresh spinor nplanemax = Ok t ->
  dual A = Ok B -> integral_mat B -> kpoint_check B kpt = true ->
  let tr := igTr B kpt t in
  (forall rotind, transformed_g kpt t RecLattice A = Ok rotind ->
     length rotind = length t /\
     (forall i, (i < length t)%nat ->
        let j := nth i rotind (-1) in
        j <> -1 /\
        shell_start (nth i t entry0) <= j < shell_end (nth i t entry0) /\
        0 <= j < Z.of_nat (length t) /\
        gvec (nth (Z.to_nat j) t entry0) = nth i tr (0, 0, 0)) /\
     NoDup rotind /\
     (forall i i', (i < length t)%nat -> (i' < length t)%nat ->
        nth i rotind (-1) = nth i' rotind (-1) -> i = i')) /\
  ((exists i, (i < length t)%nat /\ no_partner t tr i) ->
   exists i, (i < length t)%nat /\ no_partner t tr i /\
             transformed_g kpt t RecLattice A = Raise (NoPairFound i) /\
             is_RuntimeError (NoPairFound i) = true) /\
  ((forall i, (i < length t)%nat -> ~ no_partner t tr i) ->
   exists rotind, transformed_g kpt t RecLattice A = Ok rotind).
Proof.
  intros Hcalc Hd Hint Hk tr.
  pose proof (table_bounds _ _ _ _ _ _ _ _ _ Hcalc) as Hb.
  destruct (table_members _ _ _ _ _ _ _ _ _ Hcalc) as (N & Hnd & _).
  rewrite transformed_g_unfold, Hd. cbn [bind].
  rewrite Hk. cbn [negb]. fold tr.
  assert (Hlen : length tr = length t) by apply igTr_length.
  assert (Hbt : forall x,
            In x (combine (seq 0 (length t)) (combine t tr)) ->
            0 <= shell_start (fst (snd x)) /\
            shell_end (fst (snd x)) <= Z.of_nat (length t)).
  { intros [i [e g]] Hin. apply In_todo in Hin as (Hi & -> & _); auto.
    apply Hb, nth_In, Hi. }
  split; [|split].
  - intros rotind Hrun.
    assert (Hinj : NoDup rotind).
    { apply (rotind_NoDup t tr); auto. now apply (igTr_NoDup A). }
    apply rot_loop_ok in Hrun.
    apply (Forall2_nth _ _ _ (0%nat, (entry0, (0, 0, 0))) (-1)) in Hrun
      as [Hl Hall].
    rewrite todo_length in Hl, Hall by exact Hlen.
    split; [now symmetry|]. split; [|split; [exact Hinj|]].
    + intros i Hi. specialize (Hall i Hi).
      rewrite todo_nth in Hall by auto.
      destruct Hall as (Hne & Hj & e' & He' & Hg). cbn [fst snd] in Hj, Hg.
      destruct (Hb (nth i t entry0) (nth_In _ _ Hi)) as [Hs Hend].
      assert (Hr : 0 <= nth i rotind (-1) < Z.of_nat (length t)) by lia.
      cbv zeta. split; [exact Hne|]. split; [exact Hj|].
      split; [exact Hr|].
      rewrite (py_index_nonneg t _ entry0 Hr) in He'.
      inversion He'; subst e'. exact Hg.
    + intros i i' Hi Hi' Heq.
      apply (proj1 (NoDup_nth rotind (-1)) Hinj); auto; lia.
  - intros (i0 & Hi0 & Hno).
    destruct (rot_loop_bounded t
                (combine (seq 0 (length t)) (combine t tr)) Hbt)
      as [(js & _ & Hall) | ([i [e g]] & Hin & Hrun & Hnone)].
    + exfalso.
      destruct (Hall (i0, (nth i0 t entry0, nth i0 tr (0, 0, 0))))
        as (j & Hj & Hg).
      { rewrite <- (todo_nth t tr i0 Hlen Hi0). apply nth_In.
        now rewrite todo_length. }
      exact (Hno j Hj Hg).
    + apply In_todo in Hin as (Hi & -> & ->); auto. cbn [fst snd] in *.
      exists i. repeat split; auto.
  - intros Hall.
    destruct (rot_loop_bounded t
                (combine (seq 0 (length t)) (combine t tr)) Hbt)
      as [(js & Hrun & _) | ([i [e g]] & Hin & _ & Hnone)]; [eauto|].
    exfalso. apply In_todo in Hin as (Hi & -> & ->); auto.
    cbn [fst snd] in Hnone. exact (Hall i Hi Hnone).
Qed.

Lemma transformed_g_partner_or_raise_witness :
  (calc_gvectors K_gamma B_cubic 5 Inf (-1) (1 # 1000) false 4 = Ok table7 /\
   transformed_g K_gamma table7 B_cubic rot3 = Ok [0; 4; 3; 5; 6; 2; 1] /\
   NoDup [0; 4; 3; 5; 6; 2; 1]) /\
  (calc_gvectors K_gamma B_flat 40 Inf (-1) (1 # 1000) false 5
   = Ok table_flat /\
   exists i, transformed_g K_gamma table_flat B_flat rot3
             = Raise (NoPairFound i)).
Proof.
  assert (Hd : dual rot3 = Ok rot3) by (vm_compute; reflexivity).
  assert (Hint : integral_mat rot3).
  { unfold integral_mat, integral_vec, rot3. simpl.
    repeat split; (exists 1; reflexivity) || (exists 0; reflexivity). }
  assert (Hk : kpoint_check rot3 K_gamma = true) by (vm_compute; reflexivity).
  split.
  - assert (Hcalc : calc_gvectors K_gamma B_cubic 5 Inf (-1) (1 # 1000)
                      false 4 = Ok table7) by (vm_compute; reflexivity).
    assert (Hrun : transformed_g K_gamma table7 B_cubic rot3
                   = Ok [0; 4; 3; 5; 6; 2; 1]) by (vm_compute; reflexivity).
    split; [exact Hcalc|]. split; [exact Hrun|].
    destruct (transformed_g_partner_or_raise K_gamma B_cubic 5 Inf (-1)
                (1 # 1000) false 4 table7 K_gamma B_cubic rot3 rot3
                Hcalc Hd Hint Hk) as [Hok _].
    destruct (Hok _ Hrun) as (_ & _ & Hinj & _). exact Hinj.
  - assert (Hcalc : calc_gvectors K_gamma B_flat 40 Inf (-1) (1 # 1000)
                      false 5 = Ok table_flat) by (vm_compute; reflexivity).
    split; [exact Hcalc|].
    destruct (transformed_g_partner_or_raise K_gamma B_flat 40 Inf (-1)
                (1 # 1000) false 5 table_flat K_gamma B_flat rot3 rot3
                Hcalc Hd Hint Hk) as (_ & Hraise & _).
    destruct Hraise as (i & _ & _ & Hr & _).
    + exists 1%nat. split; [simpl; lia|]. intros j Hj.
      change (shell_start (nth 1 table_flat entry0)) with 1 in Hj.
      change (shell_end (nth 1 table_flat entry0)) with 3 in Hj.
      assert (Hcases : j = 1 \/ j = 2) by lia.
      destruct Hcases as [-> | ->]; vm_compute; discriminate.
    + exists i. exact Hr.
Defined.

(** X8. A transformation that keeps the energy of every vector of a table
    returned by [calc_gvectors] and does not move it to a larger L1 norm is
    accepted by [transformed_g] on that table when [thresh] is not negative:
    the map is returned, and [rotind[i]] is the position of the image of
    row [i]. *)
Theorem energy_preserving_map_is_found (K : vec3) (L : mat3) (Ecut : Q)
    (nplane : nplane_t) (Ecut1 thresh : Q) (spinor : bool) (nplanemax : Z)
    (t : list entry) (RecLattice A B : mat3) :
  calc_gvectors K L Ecut nplane Ecut1 thresh spinor nplanemax = Ok t ->
  (0 <= thresh)%Q ->
  dual A = Ok B -> kpoint_check B K = true ->
  (forall g, In g (map gvec t) ->
     L1 (transform_g B (wrap_around B K) g) <= L1 g) ->
  (forall g, In g (map gvec t) ->
     (etot K L (transform_g B (wrap_around B K) g) == etot K L g)%Q) ->
  exists rotind,
    transformed_g K t RecLattice A = Ok rotind /\
    length rotind = length t /\
    forall i, (i < length t)%nat ->
      0 <= nth i rotind (-1) < Z.of_nat (length t) /\
      gvec (nth (Z.to_nat (nth i rotind (-1))) t entry0)
      = transform_g B (wrap_around B K) (gvec (nth i t entry0)).
Proof.
  intros Hcalc Hth Hd Hk HL HE.
  pose proof (table_bounds _ _ _ _ _ _ _ _ _ Hcalc) as Hb.
  destruct (table_members _ _ _ _ _ _ _ _ _ Hcalc) as (N & Hnd & Hmem).
  rewrite transformed_g_unfold, Hd. cbn [bind]. rewrite Hk. cbn [negb].
  set (tr := igTr B K t).
  assert (Hlen : length tr = length t) by apply igTr_length.
  assert (Htr : forall i, (i < length t)%nat ->
            nth i tr (0, 0, 0)
            = transform_g B (wrap_around B K) (gvec (nth i t entry0))).
  { intros i Hi. unfold tr, igTr.
    rewrite (nth_indep _ (0, 0, 0)
               (transform_g B (wrap_around B K) (gvec entry0)))
      by now rewrite length_map.
    now rewrite (map_nth (fun e => transform_g B (wrap_around B K) (gvec e))). }
  assert (Hbt : forall x,
            In x (combine (seq 0 (length t)) (combine t tr)) ->
            0 <= shell_start (fst (snd x)) /\
            shell_end (fst (snd x)) <= Z.of_nat (length t)).
  { intros [i [e g]] Hin. apply In_todo in Hin as (Hi & -> & _); auto.
    apply Hb, nth_In, Hi. }
  destruct (rot_loop_bounded t (combine (seq 0 (length t)) (combine t tr)) Hbt)
    as [(js & Hrun & _) | ([i [e g]] & Hin & _ & Hnone)].
  - exists js. split; [exact Hrun|].
    apply rot_loop_ok in Hrun.
    apply (Forall2_nth _ _ _ (0%nat, (entry0, (0, 0, 0))) (-1)) in Hrun
      as [Hl Hall].
    rewrite todo_length in Hl, Hall by exact Hlen.
    split; [now symmetry|]. intros i Hi.
    specialize (Hall i Hi). rewrite todo_nth in Hall by auto.
    destruct Hall as (_ & Hj & e' & He' & Hg). cbn [fst snd] in Hj, Hg.
    destruct (Hb (nth i t entry0) (nth_In _ _ Hi)) as [Hs Hend].
    assert (Hr : 0 <= nth i js (-1) < Z.of_nat (length t)) by lia.
    split; [exact Hr|].
    rewrite (py_index_nonneg t _ entry0 Hr) in He'. inversion He'; subst e'.
    rewrite Hg. now apply Htr.
  - exfalso. apply In_todo in Hin as (Hi & -> & ->); auto.
    cbn [fst snd] in Hnone. rewrite Htr in Hnone by exact Hi.
    set (g := gvec (nth i t entry0)) in *.
    assert (Hgin : In g (map gvec t)) by (apply in_map, nth_In, Hi).
    destruct (proj1 (Hmem g) Hgin) as (Hv & Hlt & Hle).
    specialize (HL g Hgin). specialize (HE g Hgin).
    assert (Hin' : In (transform_g B (wrap_around B K) g) (map gvec t)).
    { apply Hmem. rewrite HE. repeat split; auto. lia. }
    apply (In_nth _ _ (gvec entry0)) in Hin' as (p & Hp & Hgp).
    rewrite length_map in Hp. rewrite map_nth in Hgp.
    apply (Hnone (Z.of_nat p)); [|now rewrite Nat2Z.id].
    apply (equal_energy_in_shell K L Ecut nplane Ecut1 thresh spinor
             nplanemax); auto.
    unfold energy_at. rewrite Hgp. fold g. now rewrite HE.
Qed.

Lemma energy_preserving_map_is_found_witness :
  calc_gvectors K_gamma B_cubic 5 Inf (-1) (1 # 1000) false 4 = Ok table7 /\
  exists rotind,
    transformed_g K_gamma table7 B_cubic rot3 = Ok rotind /\
    length rotind = length table7 /\
    forall i, (i < length table7)%nat ->
      0 <= nth i rotind (-1) < Z.of_nat (length table7) /\
      gvec (nth (Z.to_nat (nth i rotind (-1))) table7 entry0)
      = transform_g rot3 (wrap_around rot3 K_gamma)
          (gvec (nth i table7 entry0)).
Proof.
  assert (Hcalc : calc_gvectors K_gamma B_cubic 5 Inf (-1) (1 # 1000) false 4
                  = Ok table7) by (vm_compute; reflexivity).
  split; [exact Hcalc|].
  apply (energy_preserving_map_is_found K_gamma B_cubic 5 Inf (-1) (1 # 1000)
           false 4 table7 B_cubic rot3 rot3 Hcalc).
  - vm_compute. discriminate.
  - vm_compute. reflexivity.
  - vm_compute. reflexivity.
  - intros g Hin. simpl in Hin.
    repeat (destruct Hin as [<- | Hin]; [vm_compute; discriminate|]).
    contradiction.
  - intros g Hin. simpl in Hin.
    repeat (destruct Hin as [<- | Hin]; [vm_compute; reflexivity|]).
    contradiction.
Defined.

(** ** The returned map as a permutation *)

Lemma bounded_NoDup_Permutation (l : list Z) (n : nat) :
  NoDup l -> length l = n -> (forall j, In j l -> 0 <= j < Z.of_nat n) ->
  Permutation l (map Z.of_nat (seq 0 n)).
Proof.
  intros Hnd Hlen Hall. apply NoDup_Permutation_bis; auto.
  - rewrite length_map, length_seq. lia.
  - intros j Hj. apply Hall in Hj. apply in_map_iff.
    exists (Z.to_nat j). split; [lia|]. apply in_seq. lia.
Qed.

(** X9. On a table that lists no vector twice and whose shell bounds are
    positions of the table, a map returned for a transformation whose
    [inv(A).T] is a matrix of integers is a permutation of [0 .. n - 1],
    and the transformed vectors are the vectors of the table in another
    order. *)
Theorem rotind_is_a_permutation (kpt : vec3) (ig : list entry)
    (RecLattice A B : mat3) (rotind : list Z) :
  dual A = Ok B -> integral_mat B ->
  NoDup (map gvec ig) -> bounds_in_table ig ->
  transformed_g kpt ig RecLattice A = Ok rotind ->
  Permutation rotind (map Z.of_nat (seq 0 (length ig))) /\
  Permutation (igTr B kpt ig) (map gvec ig).
Proof.
  intros Hd Hint Hnd Hb Hrun.
  rewrite transformed_g_unfold, Hd in Hrun. cbn [bind] in Hrun.
  destruct (kpoint_check B kpt); cbn [negb] in Hrun; [|discriminate].
  set (tr := igTr B kpt ig) in *.
  assert (Hlen : length tr = length ig) by apply igTr_length.
  assert (Hnd' : NoDup rotind).
  { apply (rotind_NoDup ig tr); auto. now apply (igTr_NoDup A). }
  apply rot_loop_ok in Hrun.
  apply (Forall2_nth _ _ _ (0%nat, (entry0, (0, 0, 0))) (-1)) in Hrun
    as [Hl Hall].
  rewrite todo_length in Hl, Hall by exact Hlen.
  assert (Hentry : forall i, (i < length ig)%nat ->
            0 <= nth i rotind (-1) < Z.of_nat (length ig) /\
            gvec (nth (Z.to_nat (nth i rotind (-1))) ig entry0)
            = nth i tr (0, 0, 0)).
  { intros i Hi. specialize (Hall i Hi). rewrite todo_nth in Hall by auto.
    destruct Hall as (_ & Hj & e' & He' & Hg). cbn [fst snd] in Hj, Hg.
    destruct (Hb (nth i ig entry0) (nth_In _ _ Hi)) as [Hs Hend].
    assert (Hr : 0 <= nth i rotind (-1) < Z.of_nat (length ig)) by lia.
    split; [exact Hr|].
    rewrite (py_index_nonneg ig _ entry0 Hr) in He'.
    inversion He'; subst e'. exact Hg. }
  assert (Hperm : Permutation rotind (map Z.of_nat (seq 0 (length ig)))).
  { apply bounded_NoDup_Permutation; auto.
    intros j Hj. apply (In_nth _ _ (-1)) in Hj as (i & Hi & <-).
    apply Hentry. lia. }
  split; [exact Hperm|].
  assert (Heq : tr = map (fun j => gvec (nth (Z.to_nat j) ig entry0)) rotind).
  { apply (nth_ext _ _ (0, 0, 0) (gvec (nth (Z.to_nat (-1)) ig entry0))).
    - rewrite length_map. etransitivity; [exact Hlen | exact Hl].
    - intros i Hi.
      rewrite (map_nth (fun j => gvec (nth (Z.to_nat j) ig entry0))).
      symmetry. apply Hentry.
      apply (Nat.lt_le_trans _ _ _ Hi), Nat.eq_le_incl. exact Hlen. }
  rewrite Heq.
  apply (Permutation_map (fun j => gvec (nth (Z.to_nat j) ig entry0)))
    in Hperm.
  rewrite map_map in Hperm.
  assert (Hid : map (fun x => gvec (nth (Z.to_nat (Z.of_nat x)) ig entry0))
                    (seq 0 (length ig)) = map gvec ig).
  { apply (nth_ext _ _ (gvec entry0) (gvec entry0)).
    - now rewrite !length_map, length_seq.
    - intros i Hi. rewrite length_map, length_seq in Hi.
      rewrite (nth_indep _ (gvec entry0)
                 (gvec (nth (Z.to_nat (Z.of_nat 0)) ig entry0)))
        by now rewrite length_map, length_seq.
      rewrite (map_nth (fun x => gvec (nth (Z.to_nat (Z.of_nat x)) ig entry0))).
      rewrite seq_nth by exact Hi. rewrite Nat.add_0_l, Nat2Z.id.
      symmetry. apply (map_nth gvec). }
  now rewrite Hid in Hperm.
Qed.

Lemma rotind_is_a_permutation_witness :
  dual minus_eye3 = Ok minus_eye3 /\
  transformed_g K_half table_pair B_cubic minus_eye3 = Ok [1; 0] /\
  Permutation [1; 0] (map Z.of_nat (seq 0 (length table_pair))) /\
  Permutation (igTr minus_eye3 K_half table_pair) (map gvec table_pair).
Proof.
  assert (Hd : dual minus_eye3 = Ok minus_eye3) by (vm_compute; reflexivity).
  assert (Hrun : transformed_g K_half table_pair B_cubic minus_eye3
                 = Ok [1; 0]) by (vm_compute; reflexivity).
  split; [exact Hd|]. split; [exact Hrun|].
  apply (rotind_is_a_permutation K_half table_pair B_cubic minus_eye3
           minus_eye3 [1; 0] Hd).
  - unfold integral_mat, integral_vec, minus_eye3. simpl.
    repeat split; (exists (-1); reflexivity) || (exists 0; reflexivity).
  - simpl. repeat constructor; simpl; intuition discriminate.
  - intros e [<- | [<- | []]]; simpl; lia.
  - exact Hrun.
Defined.

(** ** When the evaluators return *)

Lemma py_index_in_range {A : Type} (a : list A) (j : Z) :
  - Z.of_nat (length a) <= j < Z.of_nat (length a) ->
  exists x, py_index a j = Ok x.
Proof.
  intros Hj. unfold py_index.
  set (k := if j <? 0 then j + Z.of_nat (length a) else j).
  assert (Hk : 0 <= k < Z.of_nat (length a)).
  { unfold k. destruct (Z.ltb_spec j 0); lia. }
  destruct (Z.leb_spec 0 k); [|lia].
  destruct (Z.ltb_spec k (Z.of_nat (length a))); [|lia]. simpl.
  destruct (nth_error a (Z.to_nat k)) as [x|] eqn:Hn; [eauto|].
  apply nth_error_None in Hn. lia.
Qed.

Lemma py_index_ok_range {A : Type} (a : list A) (j : Z) (x : A) :
  py_index a j = Ok x -> - Z.of_nat (length a) <= j < Z.of_nat (length a).
Proof.
  unfold py_index.
  destruct (Z.ltb_spec j 0);
    match goal with
    | |- context [(0 <=? ?k) && (?k <? ?n)] =>
        destruct (Z.leb_spec 0 k); destruct (Z.ltb_spec k n)
    end; simpl; try discriminate; intros _; lia.
Qed.

Lemma mapM_ok {A B : Type} (f : A -> result B) (l : list A) :
  (forall x, In x l -> exists y, f x = Ok y) ->
  exists r, mapM f l = Ok r /\ length r = length l.
Proof.
  induction l as [|a l IH]; intros Hall.
  - exists []. split; reflexivity.
  - destruct (Hall a (or_introl eq_refl)) as (y & Hy).
    destruct IH as (r & Hr & Hlen); [intros x Hx; apply Hall; now right|].
    exists (y :: r). cbn [mapM]. rewrite Hy, Hr. cbn [bind].
    split; [reflexivity | simpl; now f_equal].
Qed.

Lemma mapM_raise {A B : Type} (f : A -> result B) (l : list A) (ex : exn) :
  mapM f l = Raise ex -> exists x, In x l /\ f x = Raise ex.
Proof.
  induction l as [|a l IH]; simpl; [discriminate|].
  destruct (f a) as [y|e] eqn:Hfa; simpl.
  - destruct (mapM f l) as [ys|e]; simpl; [discriminate|].
    intros [= <-]. destruct (IH eq_refl) as (x & Hx & Hfx). eauto.
  - intros [= <-]. eauto.
Qed.

Lemma check_width_ok (spinor : bool) (npw1 : nat) (WF : list (list C))
    (w : list C) :
  check_width spinor npw1 WF = Ok tt -> In w WF ->
  length w = if spinor then (2 * npw1)%nat else npw1.
Proof.
  unfold check_width.
  destruct (forallb _ WF) eqn:Hall; [|discriminate]. intros _ Hin.
  rewrite forallb_forall in Hall. apply Hall in Hin.
  now apply Nat.eqb_eq in Hin.
Qed.

(** The positions of a returned map index the table. *)
Lemma rotind_in_range (K : vec3) (igall : list entry) (RL A : mat3)
    (igrot : list Z) (j : Z) :
  transformed_g K igall RL A = Ok igrot -> In j igrot ->
  - Z.of_nat (length igall) <= j < Z.of_nat (length igall).
Proof.
  intros Hrun Hj. rewrite transformed_g_unfold in Hrun.
  destruct (dual A) as [B|]; cbn [bind] in Hrun; [|discriminate].
  destruct (kpoint_check B K); cbn [negb] in Hrun; [|discriminate].
  apply rot_loop_ok in Hrun.
  apply (Forall2_nth _ _ _ (0%nat, (entry0, (0, 0, 0))) (-1)) in Hrun
    as [Hl Hall].
  apply (In_nth _ _ (-1)) in Hj as (i & Hi & <-).
  rewrite <- Hl in Hi. destruct (Hall i Hi) as (_ & _ & e & He & _).
  now apply py_index_ok_range in He.
Qed.

Lemma take_z_ok {A : Type} (w : list A) (idx : list Z) :
  (forall j, In j idx ->
             - Z.of_nat (length w) <= j < Z.of_nat (length w)) ->
  exists r, take_z w idx = Ok r.
Proof.
  intros Hall. destruct (mapM_ok (py_index w) idx) as (r & Hr & _); [|eauto].
  intros j Hj. now apply py_index_in_range, Hall.
Qed.

Lemma band_pair_ok (spinor : bool) (S : smat) (npw1 : nat)
    (igrot : list Z) (multZ wm wn : list C) :
  (forall j, In j igrot -> - Z.of_nat npw1 <= j < Z.of_nat npw1) ->
  length wm = (if spinor then (2 * npw1)%nat else npw1) ->
  exists z, band_pair spinor S npw1 igrot multZ wm wn = Ok z.
Proof.
  intros Hrange Hlen. unfold band_pair. destruct spinor.
  - destruct (take_z_ok wm igrot) as (ur & ->).
    { intros j Hj. apply Hrange in Hj. lia. }
    destruct (take_z_ok wm (map (fun j => j + Z.of_nat npw1) igrot))
      as (dr & ->).
    { intros j Hj. apply in_map_iff in Hj as (j' & <- & Hj').
      apply Hrange in Hj'. lia. }
    cbn [bind]. eauto.
  - destruct (take_z_ok wm igrot) as (wr & ->).
    { intros j Hj. apply Hrange in Hj. lia. }
    cbn [bind]. eauto.
Qed.

Lemma band_trace_ok (spinor : bool) (S : smat) (npw1 : nat)
    (igrot : list Z) (multZ w : list C) :
  (forall j, In j igrot -> - Z.of_nat npw1 <= j < Z.of_nat npw1) ->
  length w = (if spinor then (2 * npw1)%nat else npw1) ->
  exists z, band_trace spinor S npw1 igrot multZ w = Ok z.
Proof.
  intros Hrange Hlen. rewrite band_trace_is_band_pair.
  now apply band_pair_ok.
Qed.

(** X10. With coefficient rows of the width of the table (doubled for
    spinors), [symm_eigenvalues] and [symm_matrix] fail exactly when
    [transformed_g] fails on the same table and transformation, with the
    same exception; otherwise they return one trace per band and a
    [bands x bands] matrix. *)
Theorem evaluators_return_when_the_map_is_found (K : vec3)
    (RecLattice : mat3) (WF : list (list C)) (igall : list entry) (A : mat3)
    (S : smat) (T : vec3) (spinor : bool) :
  check_width spinor (length igall) WF = Ok tt ->
  (forall ex, transformed_g K igall RecLattice A = Raise ex ->
     symm_eigenvalues K RecLattice WF igall A S T spinor = Raise ex /\
     symm_matrix K RecLattice WF igall A S T spinor = Raise ex) /\
  (forall igrot, transformed_g K igall RecLattice A = Ok igrot ->
     exists tr M,
       symm_eigenvalues K RecLattice WF igall A S T spinor = Ok tr /\
       symm_matrix K RecLattice WF igall A S T spinor = Ok M /\
       length tr = length WF /\ length M = length WF /\
       forall row, In row M -> length row = length WF).
Proof.
  intros Hw. unfold symm_eigenvalues, symm_matrix, multZ_eigenvalues. split.
  - intros ex Hrun. rewrite Hrun. cbn [bind]. split; [|reflexivity].
    unfold transformed_g in Hrun.
    destruct (inv3 A) as [Ainv|e]; cbn [bind] in *; [reflexivity|].
    now inversion Hrun.
  - intros igrot Hrun. rewrite Hrun, Hw. cbn [bind].
    assert (Hinv : exists Ainv, inv3 A = Ok Ainv).
    { unfold transformed_g in Hrun.
      destruct (inv3 A) as [Ainv|e]; [eauto | discriminate]. }
    destruct Hinv as (Ainv & ->). cbn [bind].
    pose proof (fun j => rotind_in_range K igall RecLattice A igrot j Hrun)
      as Hrange.
    pose proof (fun w => check_width_ok spinor (length igall) WF w Hw)
      as Hwidth.
    set (mz := phases (vec_dot_rows (mat_dot_vec Ainv T)
                         (add_column (coords igall) K))).
    set (mz' := multZ_matrix K igall A T).
    destruct (mapM_ok (band_trace spinor S (length igall) igrot mz) WF)
      as (tr & Htr & Hlt).
    { intros w Hin. apply band_trace_ok; auto. }
    destruct (mapM_ok
                (fun wm => mapM (band_pair spinor S (length igall) igrot mz'
                                   wm) WF) WF) as (M & HM & HlM).
    { intros wm Hin.
      destruct (mapM_ok (band_pair spinor S (length igall) igrot mz' wm) WF)
        as (row & Hrow & _); [|eauto].
      intros wn _. apply band_pair_ok; auto. }
    exists tr, M. repeat split; auto.
    intros row Hin. apply (In_nth _ _ []) in Hin as (m & Hm & <-).
    destruct (mapM_nth _ [] [] WF M HM) as [_ Hall].
    rewrite HlM in Hm. specialize (Hall m Hm). cbn beta in Hall.
    now destruct (mapM_nth _ [] C0 WF _ Hall) as [Hl _].
Qed.

Lemma evaluators_return_when_the_map_is_found_witness :
  check_width false (length table7) [band] = Ok tt /\
  (forall ex, transformed_g K_gamma table7 B_cubic rot3 = Raise ex ->
     symm_eigenvalues K_gamma B_cubic [band] table7 rot3 eye2 T_quarter false
     = Raise ex /\
     symm_matrix K_gamma B_cubic [band] table7 rot3 eye2 T_quarter false
     = Raise ex) /\
  (forall igrot, transformed_g K_gamma table7 B_cubic rot3 = Ok igrot ->
     exists tr M,
       symm_eigenvalues K_gamma B_cubic [band] table7 rot3 eye2 T_quarter
         false = Ok tr /\
       symm_matrix K_gamma B_cubic [band] table7 rot3 eye2 T_quarter false
       = Ok M /\
       length tr = length [band] /\ length M = length [band] /\
       forall row, In row M -> length row = length [band]).
Proof.
  assert (Hw : check_width false (length table7) [band] = Ok tt)
    by reflexivity.
  split; [exact Hw|].
  exact (evaluators_return_when_the_map_is_found K_gamma B_cubic [band]
           table7 rot3 eye2 T_quarter false Hw).
Defined.

(** ** The ways [transformed_g] fails *)

Lemma inv3_cases (A : mat3) :
  (inv3 A = Raise LinAlgError /\ (det3 A == 0)%Q) \/
  (exists Ainv, inv3 A = Ok Ainv /\ ~ (det3 A == 0)%Q).
Proof.
  destruct A as [[[[a b] c] [[d e] f]] [[g h] i]]. unfold inv3. cbv zeta.
  match goal with |- context [Qeq_bool ?x 0] => set (D := x) end.
  destruct (Qeq_bool D 0) eqn:HD.
  - left. split; [reflexivity | now apply Qeq_bool_iff].
  - right. eexists. split; [reflexivity|].
    intros Hz. apply Qeq_bool_iff in Hz. congruence.
Qed.

(** On rows whose shell bounds are positions of the table, a failing loop
    fails at the first row without a partner. *)
Lemma rot_loop_first (ig : list entry)
    (todo : list (nat * (entry * ivec3))) (ex : exn) :
  (forall x, In x todo ->
             0 <= shell_start (fst (snd x)) /\
             shell_end (fst (snd x)) <= Z.of_nat (length ig)) ->
  rot_loop ig todo = Raise ex ->
  exists pre x post,
    todo = pre ++ x :: post /\ ex = NoPairFound (fst x) /\
    (forall j, shell_start (fst (snd x)) <= j < shell_end (fst (snd x)) ->
               gvec (nth (Z.to_nat j) ig entry0) <> snd (snd x)) /\
    (forall y, In y pre ->
       exists j, shell_start (fst (snd y)) <= j < shell_end (fst (snd y)) /\
                 gvec (nth (Z.to_nat j) ig entry0) = snd (snd y)).
Proof.
  induction todo as [|[i [e tr]] todo IH]; intros Hb Hrun;
    [discriminate|].
  cbn [rot_loop] in Hrun.
  destruct (Hb (i, (e, tr)) (or_introl eq_refl)) as [Hs He].
  cbn [fst snd] in Hs, He.
  destruct (find_pair_scan ig tr _ (shell_start e) (shell_end e) Hs He
              eq_refl)
    as [(Hf & Hnone) | (j & Hj & Hg & _ & Hf)];
    rewrite Hf in Hrun; cbn [bind] in Hrun.
  - simpl in Hrun. inversion Hrun; subst ex.
    exists [], (i, (e, tr)), todo. repeat split; auto.
    intros y [].
  - destruct (Z.eqb_spec j (-1)) as [Hneg | _]; [lia|].
    destruct (rot_loop ig todo) as [js|ex'] eqn:Hrest; cbn [bind] in Hrun;
      [discriminate|].
    inversion Hrun; subst ex'.
    destruct (IH (fun x Hx => Hb x (or_intror Hx)) eq_refl)
      as (pre & x & post & -> & Hex & Hnone & Hall).
    exists ((i, (e, tr)) :: pre), x, post. repeat split; auto.
    intros y [<- | Hy]; [|now apply Hall].
    exists j. simpl. auto.
Qed.

(** X11. On a table whose shell bounds are positions of the table,
    [transformed_g] fails in three ways only: with [LinAlgError] when [A]
    is singular, with [NotSymmetryError] when the k-point test fails, and
    with the "no pair found" error, which names the first row whose shell
    does not hold its transformed vector. It never raises [IndexError]. *)
Theorem transformed_g_failure_modes (kpt : vec3) (ig : list entry)
    (RecLattice A : mat3) (ex : exn) :
  bounds_in_table ig ->
  transformed_g kpt ig RecLattice A = Raise ex ->
  (ex = LinAlgError /\ (det3 A == 0)%Q) \/
  (exists B, dual A = Ok B /\ ~ (det3 A == 0)%Q /\
     ((ex = NotSymmetryError /\ kpoint_check B kpt = false) \/
      (kpoint_check B kpt = true /\
       exists i, ex = NoPairFound i /\ (i < length ig)%nat /\
                 no_partner ig (igTr B kpt ig) i /\
                 forall i', (i' < i)%nat ->
                            ~ no_partner ig (igTr B kpt ig) i'))).
Proof.
  intros Hb Hrun. rewrite transformed_g_unfold in Hrun. unfold dual in *.
  destruct (inv3_cases A) as [[Hinv HD] | (Ainv & Hinv & HD)];
    rewrite Hinv in *; cbn [bind] in *.
  - left. inversion Hrun. auto.
  - right. exists (transpose Ainv). split; [reflexivity|].
    split; [exact HD|].
    set (B := transpose Ainv) in *.
    destruct (kpoint_check B kpt); cbn [negb] in Hrun.
    + right. split; [reflexivity|].
      set (tr := igTr B kpt ig) in *.
      assert (Hlen : length tr = length ig) by apply igTr_length.
      apply rot_loop_first in Hrun
        as (pre & [i [e g]] & post & Htodo & -> & Hnone & Hall).
      2:{ intros [i [e g]] Hin. apply In_todo in Hin as (Hi & -> & _); auto.
          apply Hb, nth_In, Hi. }
      cbn [fst snd] in *.
      assert (Hin : In (i, (e, g))
                       (combine (seq 0 (length ig)) (combine ig tr)))
        by (rewrite Htodo; apply in_elt).
      apply In_todo in Hin as (Hi & -> & ->); auto.
      assert (Hpos : i = length pre).
      { pose proof (todo_nth ig tr (length pre) Hlen) as Hn.
        rewrite Htodo in Hn. rewrite nth_middle in Hn.
        assert (Hlp : (length pre < length ig)%nat).
        { rewrite <- (todo_length ig tr Hlen), Htodo, length_app.
          simpl. lia. }
        specialize (Hn Hlp). now inversion Hn. }
      exists i. split; [reflexivity|]. split; [exact Hi|].
      split; [exact Hnone|].
      intros i' Hi' Hno.
      assert (Hy : In (i', (nth i' ig entry0, nth i' tr (0, 0, 0))) pre).
      { rewrite <- (todo_nth ig tr i' Hlen) by lia.
        rewrite Htodo, app_nth1 by lia. apply nth_In. lia. }
      destruct (Hall _ Hy) as (j & Hj & Hg). cbn [fst snd] in Hj, Hg.
      exact (Hno j Hj Hg).
    + left. inversion Hrun. auto.
Qed.

Lemma transformed_g_failure_modes_witness :
  bounds_in_table table_origin /\
  transformed_g K_half table_origin B_cubic minus_eye3
  = Raise (NoPairFound 0) /\
  ((NoPairFound 0 = LinAlgError /\ (det3 minus_eye3 == 0)%Q) \/
   (exists B, dual minus_eye3 = Ok B /\ ~ (det3 minus_eye3 == 0)%Q /\
      ((NoPairFound 0 = NotSymmetryError /\ kpoint_check B K_half = false) \/
       (kpoint_check B K_half = true /\
        exists i, NoPairFound 0 = NoPairFound i /\
                  (i < length table_origin)%nat /\
                  no_partner table_origin (igTr B K_half table_origin) i /\
                  forall i', (i' < i)%nat ->
                    ~ no_partner table_origin
                        (igTr B K_half table_origin) i')))).
Proof.
  assert (Hb : bounds_in_table table_origin)
    by (intros e [<- | []]; simpl; lia).
  assert (Hrun : transformed_g K_half table_origin B_cubic
                   minus_eye3 = Raise (NoPairFound 0))
    by (vm_compute; reflexivity).
  split; [exact Hb|]. split; [exact Hrun|].
  exact (transformed_g_failure_modes K_half table_origin
           B_cubic minus_eye3 (NoPairFound 0) Hb Hrun).
Defined.

(** ** The identity operation *)

Lemma Cmul_1_r (z : C) : Cmul z C1 = z.
Proof. destruct z as [x y]. unfold Cmul, C1. simpl. f_equal; ring. Qed.

Lemma fold_Cadd_start (l : list C) :
  forall a, fold_left Cadd l a = Cadd a (fold_left Cadd l C0).
Proof.
  induction l as [|x l IH]; intros a; simpl.
  - now rewrite Cadd_0_r.
  - rewrite (IH (Cadd a x)), (IH (Cadd C0 x)).
    destruct a, x, (fold_left Cadd l C0). unfold Cadd, C0. simpl.
    f_equal; ring.
Qed.

Lemma csum_cons (x : C) (l : list C) : csum (x :: l) = Cadd x (csum l).
Proof.
  unfold csum. simpl. now rewrite fold_Cadd_start, Cadd_0_l.
Qed.

Lemma csum_app (l1 l2 : list C) :
  csum (l1 ++ l2) = Cadd (csum l1) (csum l2).
Proof.
  induction l1 as [|x l1 IH]; simpl.
  - unfold csum at 2. simpl. now rewrite Cadd_0_l.
  - rewrite !csum_cons, IH.
    destruct x, (csum l1), (csum l2). unfold Cadd. simpl. f_equal; ring.
Qed.

Lemma csum_arr_add (a : list C) :
  forall b, length a = length b ->
            csum (arr_add a b) = Cadd (csum a) (csum b).
Proof.
  unfold arr_add.
  induction a as [|x a IH]; intros [|y b] Hlen; simpl in Hlen;
    try discriminate.
  - unfold csum. simpl. now rewrite Cadd_0_l.
  - cbn [combine map fst snd]. rewrite !csum_cons, IH by lia.
    destruct x, y, (csum a), (csum b). unfold Cadd. simpl. f_equal; ring.
Qed.

Lemma arr_mul_ones (a : list C) :
  forall n, (length a <= n)%nat -> arr_mul a (repeat C1 n) = a.
Proof.
  unfold arr_mul.
  induction a as [|x a IH]; intros [|n] Hn; simpl in *; try lia; auto.
  rewrite Cmul_1_r, IH by lia. reflexivity.
Qed.

Lemma arr_mul_app (a b : list C) :
  forall c d, length a = length c ->
              arr_mul (a ++ b) (c ++ d) = arr_mul a c ++ arr_mul b d.
Proof.
  unfold arr_mul.
  induction a as [|x a IH]; intros [|y c] d Hlen; simpl in Hlen;
    try discriminate; [reflexivity|].
  cbn [app combine map]. now rewrite IH by lia.
Qed.

Lemma arr_mul_length (a b : list C) :
  length (arr_mul a b) = Nat.min (length a) (length b).
Proof. unfold arr_mul. now rewrite length_map, length_combine. Qed.

(** With [S] the identity, the four spinor terms reduce to the two diagonal
    ones. *)
Lemma spinor_identity_terms (P : list C) :
  forall Q R T, length P = length Q -> length P = length R ->
                length P = length T ->
    arr_add (arr_add (arr_scale P C1) (arr_scale Q C0))
            (arr_add (arr_scale R C0) (arr_scale T C1))
    = arr_add P T.
Proof.
  unfold arr_add, arr_scale.
  induction P as [|p P IH]; intros [|q Q] [|r R] [|t T] HQ HR HT;
    simpl in HQ, HR, HT; try discriminate; [reflexivity|].
  cbn [map combine fst snd]. rewrite IH by lia. f_equal.
  rewrite !Cmul_1_r, !Cmul_0_r, Cadd_0_r, Cadd_0_l. reflexivity.
Qed.

Lemma py_index_nth_error {A : Type} (a : list A) (k : nat) (x : A) :
  nth_error a k = Some x -> py_index a (Z.of_nat k) = Ok x.
Proof.
  intros Hk. unfold py_index.
  assert (Hlt : (k < length a)%nat) by (apply nth_error_Some; congruence).
  destruct (Z.ltb_spec (Z.of_nat k) 0) as [Hneg | _]; [lia|].
  destruct (Z.leb_spec 0 (Z.of_nat k)); [|lia].
  destruct (Z.ltb_spec (Z.of_nat k) (Z.of_nat (length a))); [|lia]. simpl.
  now rewrite Nat2Z.id, Hk.
Qed.

Lemma skipn_nth_error {A : Type} (w : list A) :
  forall s x, nth_error w s = Some x -> skipn s w = x :: skipn (S s) w.
Proof.
  induction w as [|a w IH]; intros [|s] x Hx; simpl in Hx; try discriminate.
  - now inversion Hx.
  - apply IH in Hx. exact Hx.
Qed.

(** [w[s : s + m]] read through the index array [s, ..., s + m - 1]. *)
Lemma take_z_seq {A : Type} (w : list A) (m : nat) :
  forall s, (s + m <= length w)%nat ->
            take_z w (map Z.of_nat (seq s m)) = Ok (firstn m (skipn s w)).
Proof.
  unfold take_z. induction m as [|m IH]; intros s Hs; [reflexivity|].
  cbn [seq map mapM].
  destruct (nth_error w s) as [x|] eqn:Hx.
  - rewrite (py_index_nth_error w s x Hx). cbn [bind].
    rewrite IH by lia. cbn [bind].
    now rewrite (skipn_nth_error w s x Hx).
  - apply nth_error_None in Hx. lia.
Qed.

Lemma shifted_indices (n m : nat) :
  forall s, map (fun j => j + Z.of_nat n) (map Z.of_nat (seq s m))
            = map Z.of_nat (seq (s + n) m).
Proof.
  induction m as [|m IH]; intros s; [reflexivity|].
  cbn [seq map]. rewrite (IH (S s)). f_equal. lia.
Qed.

Lemma band_pair_identity (spinor : bool) (n : nat) (wm wn : list C) :
  length wm = (if spinor then (2 * n)%nat else n) ->
  length wn = (if spinor then (2 * n)%nat else n) ->
  band_pair spinor eye2 n (map Z.of_nat (seq 0 n)) (repeat C1 n) wm wn
  = Ok (cdot (arr_conj wm) wn).
Proof.
  intros Hm Hn. unfold band_pair. destruct spinor.
  - rewrite (shifted_indices n n 0). cbn [Nat.add].
    rewrite !take_z_seq by lia. cbn [bind skipn].
    rewrite (firstn_all2 (skipn n wm)) by (rewrite length_skipn; lia).
    change (S00 eye2) with C1. change (S01 eye2) with C0.
    change (S10 eye2) with C0. change (S11 eye2) with C1.
    assert (Hfm : length (firstn n wm) = n) by (rewrite length_firstn; lia).
    assert (Hfn : length (firstn n wn) = n) by (rewrite length_firstn; lia).
    assert (Hsm : length (skipn n wm) = n) by (rewrite length_skipn; lia).
    assert (Hsn : length (skipn n wn) = n) by (rewrite length_skipn; lia).
    rewrite !arr_mul_ones
      by (rewrite arr_mul_length; unfold arr_conj; rewrite length_map; lia).
    rewrite spinor_identity_terms
      by (rewrite !arr_mul_length; unfold arr_conj; rewrite !length_map;
          lia).
    rewrite csum_arr_add
      by (rewrite !arr_mul_length; unfold arr_conj; rewrite !length_map;
          lia).
    unfold cdot.
    rewrite <- (firstn_skipn n wm) at 3. rewrite <- (firstn_skipn n wn) at 3.
    unfold arr_conj at 3. rewrite map_app. fold (arr_conj (firstn n wm)).
    fold (arr_conj (skipn n wm)).
    rewrite arr_mul_app by (unfold arr_conj; rewrite length_map; lia).
    now rewrite csum_app.
  - rewrite take_z_seq by lia. cbn [bind skipn].
    rewrite firstn_all2 by lia.
    rewrite arr_mul_ones
      by (rewrite arr_mul_length; unfold arr_conj; rewrite length_map; lia).
    reflexivity.
Qed.

Lemma mapM_map {A B : Type} (f : A -> result B) (h : A -> B) (l : list A) :
  (forall x, In x l -> f x = Ok (h x)) -> mapM f l = Ok (map h l).
Proof.
  induction l as [|a l IH]; intros Hall; [reflexivity|].
  cbn [mapM map]. rewrite (Hall a (or_introl eq_refl)). cbn [bind].
  rewrite IH by (intros x Hx; apply Hall; now right). reflexivity.
Qed.

Lemma phases_without_translation (M : mat3) (K : vec3) (ig : list entry) :
  phases (vec_dot_rows (mat_dot_vec M (0, 0, 0)%Q)
            (add_column (coords ig) K))
  = repeat C1 (length ig).
Proof.
  rewrite vec_dot_rows_columns. unfold phases. rewrite map_map.
  rewrite <- map_const. apply map_ext. intros e. apply cexp_at_zero.
  destruct M as [[[[a b] c] [[d e'] f]] [[g h] i]].
  destruct (vadd (to_vec (gvec e)) K) as [[x1 x2] x3]. simpl. ring.
Qed.

Lemma identity_map_on_table (K : vec3) (B : mat3) (Ecut : Q)
    (nplane : nplane_t) (Ecut1 thresh : Q) (spinor : bool) (nplanemax : Z)
    (t : list entry) (kpt : vec3) (RL : mat3) :
  calc_gvectors K B Ecut nplane Ecut1 thresh spinor nplanemax = Ok t ->
  transformed_g kpt t RL eye3 = Ok (map Z.of_nat (seq 0 (length t))).
Proof.
  intros Hcalc. apply identity_map.
  - now destruct (table_members _ _ _ _ _ _ _ _ _ Hcalc) as (N & Hnd & _).
  - intros i Hi. apply table_shells in Hcalc as [_ Hsh].
    destruct (Hsh i Hi) as (a & b & Hab & Hb & Hshared & _).
    destruct (Hshared i Hab) as [-> ->]. lia.
Qed.

(** X12. For the identity operation ([A] and [S] identities, [T = 0]) on a
    table returned by [calc_gvectors], with coefficient rows of the width
    of the table (doubled for spinors), [symm_matrix] returns the overlaps
    [sum_g conj(WF[m, g]) WF[n, g]] of the bands and [symm_eigenvalues]
    the overlaps of every band with itself. *)
Theorem identity_operation_gives_the_overlaps (K : vec3) (B : mat3)
    (Ecut : Q) (nplane : nplane_t) (Ecut1 thresh : Q) (spinor0 : bool)
    (nplanemax : Z) (t : list entry) (kpt : vec3) (RecLattice : mat3)
    (WF : list (list C)) (spinor : bool) :
  calc_gvectors K B Ecut nplane Ecut1 thresh spinor0 nplanemax = Ok t ->
  check_width spinor (length t) WF = Ok tt ->
  symm_matrix kpt RecLattice WF t eye3 eye2 (0, 0, 0)%Q spinor
  = Ok (map (fun wm => map (fun wn => cdot (arr_conj wm) wn) WF) WF) /\
  symm_eigenvalues kpt RecLattice WF t eye3 eye2 (0, 0, 0)%Q spinor
  = Ok (map (fun w => cdot (arr_conj w) w) WF).
Proof.
  intros Hcalc Hw.
  pose proof (identity_map_on_table _ _ _ _ _ _ _ _ _ kpt RecLattice Hcalc)
    as Hid.
  pose proof (fun w => check_width_ok spinor (length t) WF w Hw) as Hwidth.
  unfold symm_matrix, symm_eigenvalues, multZ_eigenvalues, multZ_matrix.
  change (inv3 eye3) with (Ok (transpose eye3)) at 1.
  rewrite Hid, Hw. cbn [bind].
  rewrite !phases_without_translation. split.
  - apply mapM_map. intros wm Hm. apply mapM_map. intros wn Hn.
    apply band_pair_identity; auto.
  - apply mapM_map. intros w Hin. rewrite band_trace_is_band_pair.
    apply band_pair_identity; auto.
Qed.

Lemma identity_operation_gives_the_overlaps_witness :
  calc_gvectors K_gamma B_cubic 5 Inf (-1) (1 # 1000) false 4 = Ok table7 /\
  check_width false (length table7) [band] = Ok tt /\
  symm_matrix K_half B_cubic [band] table7 eye3 eye2 (0, 0, 0)%Q false
  = Ok (map (fun wm => map (fun wn => cdot (arr_conj wm) wn) [band])
            [band]) /\
  symm_eigenvalues K_half B_cubic [band] table7 eye3 eye2 (0, 0, 0)%Q false
  = Ok (map (fun w => cdot (arr_conj w) w) [band]).
Proof.
  assert (Hcalc : calc_gvectors K_gamma B_cubic 5 Inf (-1) (1 # 1000) false 4
                  = Ok table7) by (vm_compute; reflexivity).
  assert (Hw : check_width false (length table7) [band] = Ok tt)
    by reflexivity.
  split; [exact Hcalc|]. split; [exact Hw|].
  exact (identity_operation_gives_the_overlaps K_gamma B_cubic 5 Inf (-1)
           (1 # 1000) false 4 table7 K_half B_cubic [band] false Hcalc Hw).
Defined.

(** ** A transformation and its inverse *)

Lemma integral_comp (x y : Q) : (x == y)%Q -> integral x -> integral y.
Proof. intros Hxy [z Hz]. exists z. now rewrite <- Hxy. Qed.

Lemma integral_opp (x : Q) : integral x -> integral (- x).
Proof. intros [z Hz]. exists (- z). now rewrite inject_Z_opp, Hz. Qed.

Lemma vround_exact (v : vec3) : integral_vec v -> veq (to_vec (vround v)) v.
Proof.
  destruct v as [[x1 x2] x3]. intros (H1 & H2 & H3). unfold veq. simpl.
  repeat split; now apply np_round_of_integral.
Qed.

Lemma transform_g_round_trip (B B' : mat3) (K : vec3) (g : ivec3) :
  integral_mat B -> integral_mat B' ->
  veq (mat_dot_vec B' (mat_dot_vec B (to_vec g))) (to_vec g) ->
  veq (mat_dot_vec B' (mat_dot_vec B K)) K ->
  integral_vec (vsub (mat_dot_vec B K) K) ->
  transform_g B' (wrap_around B' K) (transform_g B (wrap_around B K) g) = g.
Proof.
  intros HB HB' Hg HK Hint.
  pose proof (vround_exact _ Hint) as Hd. fold (wrap_around B K) in Hd.
  set (d := wrap_around B K) in *.
  pose proof (transform_g_exact B d g HB) as H1.
  set (g1 := transform_g B d g) in *.
  assert (Hint' : integral_vec (vsub (mat_dot_vec B' K) K)).
  { clearbody d. clear H1 g1 Hint HB Hg.
    destruct B as [[[[b11 b12] b13] [[b21 b22] b23]] [[b31 b32] b33]].
    destruct B' as [[[[c11 c12] c13] [[c21 c22] c23]] [[c31 c32] c33]].
    destruct K as [[k1 k2] k3], d as [[d1 d2] d3].
    destruct HB' as ((I11 & I12 & I13) & (I21 & I22 & I23) & (I31 & I32 & I33)).
    unfold veq in *. simpl in *.
    destruct Hd as (Hd1 & Hd2 & Hd3), HK as (HK1 & HK2 & HK3).
    repeat split.
    - apply (integral_comp
               (- (c11 * inject_Z d1 + c12 * inject_Z d2 + c13 * inject_Z d3))).
      + cbn [fst snd]. rewrite Hd1, Hd2, Hd3. clear Hd1 Hd2 Hd3. lra.
      + apply integral_opp.
        repeat (apply integral_plus || apply integral_mult
                || apply integral_inject || assumption).
    - apply (integral_comp
               (- (c21 * inject_Z d1 + c22 * inject_Z d2 + c23 * inject_Z d3))).
      + cbn [fst snd]. rewrite Hd1, Hd2, Hd3. clear Hd1 Hd2 Hd3. lra.
      + apply integral_opp.
        repeat (apply integral_plus || apply integral_mult
                || apply integral_inject || assumption).
    - apply (integral_comp
               (- (c31 * inject_Z d1 + c32 * inject_Z d2 + c33 * inject_Z d3))).
      + cbn [fst snd]. rewrite Hd1, Hd2, Hd3. clear Hd1 Hd2 Hd3. lra.
      + apply integral_opp.
        repeat (apply integral_plus || apply integral_mult
                || apply integral_inject || assumption). }
  pose proof (vround_exact _ Hint') as Hd'. fold (wrap_around B' K) in Hd'.
  set (d' := wrap_around B' K) in *.
  pose proof (transform_g_exact B' d' g1 HB') as H2.
  apply to_vec_injective.
  set (g2 := transform_g B' d' g1) in *.
  clearbody d g1 d' g2. clear HB HB' Hint Hint'.
  destruct B as [[[[b11 b12] b13] [[b21 b22] b23]] [[b31 b32] b33]].
  destruct B' as [[[[c11 c12] c13] [[c21 c22] c23]] [[c31 c32] c33]].
  destruct K as [[k1 k2] k3], g as [[x1 x2] x3], d as [[d1 d2] d3].
  destruct g1 as [[p1 p2] p3], d' as [[e1 e2] e3], g2 as [[q1 q2] q3].
  unfold veq in *. simpl in *.
  destruct Hd as (Hd1 & Hd2 & Hd3), HK as (HK1 & HK2 & HK3).
  destruct Hd' as (He1 & He2 & He3), Hg as (Hg1 & Hg2 & Hg3).
  destruct H1 as (Hp1 & Hp2 & Hp3), H2 as (Hq1 & Hq2 & Hq3).
  repeat split.
  - rewrite Hq1, Hp1, Hp2, Hp3, He1, Hd1, Hd2, Hd3. nra.
  - rewrite Hq2, Hp1, Hp2, Hp3, He2, Hd1, Hd2, Hd3. nra.
  - rewrite Hq3, Hp1, Hp2, Hp3, He3, Hd1, Hd2, Hd3. nra.
Qed.

(** The entries of a returned map on a table whose shell bounds are
    positions of the table. *)
Lemma rotind_entries (kpt : vec3) (ig : list entry) (RL A B : mat3)
    (rotind : list Z) :
  dual A = Ok B -> bounds_in_table ig ->
  transformed_g kpt ig RL A = Ok rotind ->
  length rotind = length ig /\
  forall i, (i < length ig)%nat ->
    0 <= nth i rotind (-1) < Z.of_nat (length ig) /\
    gvec (nth (Z.to_nat (nth i rotind (-1))) ig entry0)
    = transform_g B (wrap_around B kpt) (gvec (nth i ig entry0)).
Proof.
  intros Hd Hb Hrun.
  rewrite transformed_g_unfold, Hd in Hrun. cbn [bind] in Hrun.
  destruct (kpoint_check B kpt); cbn [negb] in Hrun; [|discriminate].
  set (tr := igTr B kpt ig) in *.
  assert (Hlen : length tr = length ig) by apply igTr_length.
  apply rot_loop_ok in Hrun.
  apply (Forall2_nth _ _ _ (0%nat, (entry0, (0, 0, 0))) (-1)) in Hrun
    as [Hl Hall].
  rewrite todo_length in Hl, Hall by exact Hlen.
  split; [now symmetry|]. intros i Hi.
  specialize (Hall i Hi). rewrite todo_nth in Hall by auto.
  destruct Hall as (_ & Hj & e' & He' & Hg). cbn [fst snd] in Hj, Hg.
  destruct (Hb (nth i ig entry0) (nth_In _ _ Hi)) as [Hs Hend].
  assert (Hr : 0 <= nth i rotind (-1) < Z.of_nat (length ig)) by lia.
  split; [exact Hr|].
  rewrite (py_index_nonneg ig _ entry0 Hr) in He'.
  inversion He'; subst e'. rewrite Hg. unfold tr, igTr.
  rewrite (nth_indep _ (0, 0, 0)
             (transform_g B (wrap_around B kpt) (gvec entry0)))
    by now rewrite length_map.
  now rewrite (map_nth (fun e => transform_g B (wrap_around B kpt) (gvec e))).
Qed.

(** X13. Let [inv(A).T] and [inv(A').T] be matrices of integers that are
    inverse to each other, and let the k-point move by exactly an integer
    vector under [A]. On a table that lists no vector twice and whose shell
    bounds are positions of the table, the maps returned for [A] and for
    [A'] are inverse to each other: [rotind'[rotind[i]] = i]. *)
Theorem inverse_transformation_gives_inverse_map (kpt : vec3)
    (ig : list entry) (RecLattice A A' B B' : mat3) (r r' : list Z) :
  dual A = Ok B -> dual A' = Ok B' ->
  integral_mat B -> integral_mat B' ->
  (forall v, veq (mat_dot_vec B' (mat_dot_vec B v)) v) ->
  integral_vec (vsub (mat_dot_vec B kpt) kpt) ->
  NoDup (map gvec ig) -> bounds_in_table ig ->
  transformed_g kpt ig RecLattice A = Ok r ->
  transformed_g kpt ig RecLattice A' = Ok r' ->
  forall i, (i < length ig)%nat ->
            nth (Z.to_nat (nth i r (-1))) r' (-1) = Z.of_nat i.
Proof.
  intros Hd Hd' HB HB' Hinv Hk Hnd Hb Hr Hr' i Hi.
  destruct (rotind_entries kpt ig RecLattice A B r Hd Hb Hr) as [_ He].
  destruct (rotind_entries kpt ig RecLattice A' B' r' Hd' Hb Hr')
    as [_ He'].
  destruct (He i Hi) as [Hj Hg].
  set (j := Z.to_nat (nth i r (-1))) in *.
  assert (Hjn : (j < length ig)%nat) by (unfold j; lia).
  destruct (He' j Hjn) as [Hj' Hg'].
  rewrite Hg in Hg'.
  rewrite (transform_g_round_trip B B' kpt (gvec (nth i ig entry0)))
    in Hg'; auto.
  assert (Heq : Z.to_nat (nth j r' (-1)) = i).
  { apply (proj1 (NoDup_nth (map gvec ig) (gvec entry0)) Hnd);
      rewrite ?length_map; try lia.
    now rewrite !map_nth. }
  lia.
Qed.

Lemma inverse_transformation_gives_inverse_map_witness :
  transformed_g K_gamma table7 B_cubic rot3 = Ok [0; 4; 3; 5; 6; 2; 1] /\
  transformed_g K_gamma table7 B_cubic rot3_inv = Ok [0; 6; 5; 2; 1; 3; 4] /\
  forall i, (i < length table7)%nat ->
            nth (Z.to_nat (nth i [0; 4; 3; 5; 6; 2; 1] (-1)))
                [0; 6; 5; 2; 1; 3; 4] (-1) = Z.of_nat i.
Proof.
  assert (Hr : transformed_g K_gamma table7 B_cubic rot3
               = Ok [0; 4; 3; 5; 6; 2; 1]) by (vm_compute; reflexivity).
  assert (Hr' : transformed_g K_gamma table7 B_cubic rot3_inv
                = Ok [0; 6; 5; 2; 1; 3; 4]) by (vm_compute; reflexivity).
  split; [exact Hr|]. split; [exact Hr'|].
  apply (inverse_transformation_gives_inverse_map K_gamma table7 B_cubic
           rot3 rot3_inv rot3 rot3_inv).
  - vm_compute. reflexivity.
  - vm_compute. reflexivity.
  - unfold integral_mat, integral_vec, rot3. simpl.
    repeat split; (exists 1; reflexivity) || (exists 0; reflexivity).
  - unfold integral_mat, integral_vec, rot3_inv. simpl.
    repeat split; (exists 1; reflexivity) || (exists 0; reflexivity).
  - intros [[v1 v2] v3]. unfold veq, rot3, rot3_inv. simpl.
    repeat split; ring.
  - unfold integral_vec, rot3, K_gamma. simpl.
    repeat split; exists 0; reflexivity.
  - vm_compute. repeat constructor; simpl; intuition discriminate.
  - intros e Hin. simpl in Hin.
    repeat (destruct Hin as [<- | Hin]; [simpl; lia|]). contradiction.
  - exact Hr.
  - exact Hr'.
Defined.
